(** * Deep generative models: DDPM noise schedule and reverse process, VAE KL term

    A shallow embedding of [denoising-diffusion/ddpm.py] and of
    [variational-autoencoder/vae/vae.py].  Tensors carry their shape and
    their entries in row-major order; entries are real numbers, so every
    statement below is one of exact arithmetic.  Exceptions are values of
    an error type, the random generator is an explicit stream of
    unit-normal draws, and the denoising network's forward pass is a
    parameter of the procedures that call it. *)

From Stdlib Require Import String.
From Stdlib Require Import Reals Lra Lia ZArith Bool Arith List.
Import ListNotations.

(** ** Exceptions *)

Inductive exn : Type :=
| RuntimeError (msg : string)   (* [raise RuntimeError(msg)] in the source   *)
| AssertionError                (* a failed [assert]                         *)
| IndexError                    (* integer index outside a dimension         *)
| TypeError                     (* [@typechecked] rejects an argument        *)
| UnboundLocalError             (* a local read before its first assignment  *)
| TorchError.                   (* an error raised inside the tensor library *)

Inductive result (A : Type) : Type :=
| Ok (a : A)
| Err (e : exn).

Arguments Ok {A} a.
Arguments Err {A} e.

Definition rbind {A B : Type} (r : result A) (k : A -> result B) : result B :=
  match r with
  | Ok a => k a
  | Err e => Err e
  end.

Declare Scope result_scope.
Delimit Scope result_scope with result.
Notation "x <- r ;; k" := (rbind r (fun x => k))
  (at level 61, r at next level, right associativity) : result_scope.
Notation "' pat <- r ;; k" := (rbind r (fun pat => k))
  (at level 61, pat pattern, r at next level, right associativity) : result_scope.
Notation "'assert!' c 'else' e ;; k" := (if c then k else Err e)
  (at level 61, c at next level, e at next level, right associativity) : result_scope.

(** ** The tensor library, as far as the two models use it *)

Module Torch.

Open Scope R_scope.
Open Scope result_scope.

Record Tensor : Type := mkTensor { shape : list nat; data : list R }.

Definition numel (s : list nat) : nat := fold_right Nat.mul 1%nat s.

Definition ndim (t : Tensor) : nat := length (shape t).

(** A tensor holds exactly as many entries as its shape announces. *)
Definition wf (t : Tensor) : Prop := length (data t) = numel (shape t).

Definition shape_eqb (s1 s2 : list nat) : bool :=
  if list_eq_dec Nat.eq_dec s1 s2 then true else false.

Fixpoint zip_with (f : R -> R -> R) (l1 l2 : list R) : list R :=
  match l1, l2 with
  | x :: l1', y :: l2' => f x y :: zip_with f l1' l2'
  | _, _ => []
  end.

(** *** Broadcasting *)

Definition pad_shape (r : nat) (s : list nat) : list nat :=
  repeat 1%nat (r - length s) ++ s.

Definition bdim (x y : nat) : option nat :=
  if (x =? y)%nat then Some x
  else if (x =? 1)%nat then Some y
  else if (y =? 1)%nat then Some x
  else None.

Fixpoint bzip (a b : list nat) : option (list nat) :=
  match a, b with
  | [], [] => Some []
  | x :: a', y :: b' =>
      match bdim x y, bzip a' b' with
      | Some d, Some r => Some (d :: r)
      | _, _ => None
      end
  | _, _ => None
  end.

Definition broadcast_shapes (a b : list nat) : option (list nat) :=
  let r := Nat.max (length a) (length b) in
  bzip (pad_shape r a) (pad_shape r b).

(** [chunks k m d] cuts [d] into [k] consecutive blocks of [m] entries. *)
Fixpoint chunks (k m : nat) (d : list R) : list (list R) :=
  match k with
  | O => []
  | S k' => firstn m d :: chunks k' m (skipn m d)
  end.

(** Entries of a tensor of shape [src] laid out for the shape [tgt]: a
    dimension of size one is repeated, any other is kept. *)
Fixpoint expand (src tgt : list nat) (d : list R) {struct src} : list R :=
  match src, tgt with
  | s :: src', t :: tgt' =>
      let rows := map (expand src' tgt') (chunks s (numel src') d) in
      if (s =? t)%nat then concat rows else concat (repeat (concat rows) t)
  | _, _ => d
  end.

(** One value per sample, laid out over the [m] entries of each sample. *)
Definition per_sample (v : list R) (m : nat) : list R :=
  flat_map (fun x => repeat x m) v.

Definition binop (f : R -> R -> R) (a b : Tensor) : result Tensor :=
  match broadcast_shapes (shape a) (shape b) with
  | None => Err TorchError
  | Some s =>
      let r := length s in
      Ok (mkTensor s (zip_with f (expand (pad_shape r (shape a)) s (data a))
                                 (expand (pad_shape r (shape b)) s (data b))))
  end.

Definition add := binop Rplus.
Definition sub := binop Rminus.
Definition mul := binop Rmult.
Definition div := binop Rdiv.

(** *** Pointwise operations and operations with a Python scalar *)

Definition tmap (f : R -> R) (t : Tensor) : Tensor :=
  mkTensor (shape t) (map f (data t)).

Definition sqrt (t : Tensor) : Tensor := tmap R_sqrt.sqrt t.
Definition exp (t : Tensor) : Tensor := tmap Rtrigo_def.exp t.
Definition rsub (c : R) (t : Tensor) : Tensor := tmap (fun x => c - x) t.
Definition sub_scalar (t : Tensor) (c : R) : Tensor := tmap (fun x => x - c) t.
Definition scale (c : R) (t : Tensor) : Tensor := tmap (fun x => c * x) t.
Definition square (t : Tensor) : Tensor := tmap (fun x => x ^ 2) t.

(** *** Construction *)

Definition ones (n : nat) : Tensor := mkTensor [n] (repeat 1 n).

Definition full (n : nat) (v : R) : Tensor := mkTensor [n] (repeat v n).

(** [torch.linspace(start, end, steps)]: [steps] points from [start] to
    [end] at equal distance; a single step yields [start]. *)
Definition linspace (start stop : R) (steps : nat) : Tensor :=
  mkTensor [steps]
    (map (fun i => start + INR i * ((stop - start) / INR (steps - 1)))
         (seq 0 steps)).

Fixpoint cumprod_from (acc : R) (l : list R) : list R :=
  match l with
  | [] => []
  | x :: l' => acc * x :: cumprod_from (acc * x) l'
  end.

(** [torch.cumprod(t, dim=0)] of a one-dimensional tensor. *)
Definition cumprod (t : Tensor) : Tensor :=
  mkTensor (shape t)
    match data t with
    | [] => []
    | x :: l => x :: cumprod_from x l
    end.

(** [torch.cat((a, b))] of two one-dimensional tensors. *)
Definition cat (a b : Tensor) : Tensor :=
  mkTensor [length (data a) + length (data b)]%nat (data a ++ data b).

(** [t[:-1]] of a one-dimensional tensor. *)
Definition drop_last (t : Tensor) : Tensor :=
  mkTensor [Nat.pred (length (data t))] (removelast (data t)).

(** [t.view(-1, 1, ..., 1)] with [k] trailing ones. *)
Definition view_column (t : Tensor) (k : nat) : Tensor :=
  mkTensor (length (data t) :: repeat 1%nat k) (data t).

(** *** Indexing *)

(** Python's rule for an integer index into a dimension of size [len]:
    negative indices count from the end. *)
Definition py_index (len : nat) (i : Z) : option nat :=
  if ((0 <=? i) && (i <? Z.of_nat len))%Z then Some (Z.to_nat i)
  else if ((- Z.of_nat len <=? i) && (i <? 0))%Z then Some (Z.to_nat (i + Z.of_nat len))
  else None.

(** The position that an index within [-len, len) denotes. *)
Definition norm_index (len : nat) (i : Z) : nat :=
  if (0 <=? i)%Z then Z.to_nat i else Z.to_nat (i + Z.of_nat len).

(** The entries of [d] that in-range indices [n] pick. *)
Definition picks (d : list R) (n : list Z) : list R :=
  map (fun i => nth (norm_index (length d) i) d 0) n.

(** [t[i]] for a one-dimensional [t] and a Python integer [i]. *)
Definition getitem (t : Tensor) (i : Z) : result R :=
  match py_index (length (data t)) i with
  | Some k => Ok (nth k (data t) 0)
  | None => Err IndexError
  end.

Fixpoint set_nth (k : nat) (v : R) (l : list R) : list R :=
  match l, k with
  | [], _ => []
  | _ :: l', O => v :: l'
  | x :: l', S k' => x :: set_nth k' v l'
  end.

(** [t[i] = v] for a one-dimensional [t]. *)
Definition setitem (t : Tensor) (i : Z) (v : R) : result Tensor :=
  match py_index (length (data t)) i with
  | Some k => Ok (mkTensor (shape t) (set_nth k v (data t)))
  | None => Err IndexError
  end.

(** A one-dimensional tensor of 64-bit integers. *)
Definition LongTensor : Type := list Z.

Definition wrap64 (z : Z) : Z := ((z + 2 ^ 63) mod 2 ^ 64 - 2 ^ 63)%Z.

Definition long_sub (n : LongTensor) (c : Z) : LongTensor :=
  map (fun k => wrap64 (k - c)) n.

Definition long_full (n : nat) (v : Z) : LongTensor := repeat v n.

Fixpoint gather (d : list R) (n : LongTensor) : result (list R) :=
  match n with
  | [] => Ok []
  | i :: n' =>
      match py_index (length d) i with
      | Some k => r <- gather d n' ;; Ok (nth k d 0 :: r)
      | None => Err IndexError
      end
  end.

(** [t[n]] for a one-dimensional [t] and a tensor [n] of indices. *)
Definition index (t : Tensor) (n : LongTensor) : result Tensor :=
  d <- gather (data t) n ;; Ok (mkTensor [length n] d).

(** *** Reductions *)

Definition sum_list (l : list R) : R := fold_right Rplus 0 l.

(** [torch.sum(t)]: a zero-dimensional tensor. *)
Definition sum_all (t : Tensor) : Tensor := mkTensor [] [sum_list (data t)].

(** [torch.sum(t, 1)] of a two-dimensional tensor. *)
Definition sum_dim1 (t : Tensor) : result Tensor :=
  match shape t with
  | [b; l] => Ok (mkTensor [b] (map sum_list (chunks b l (data t))))
  | _ => Err IndexError
  end.

(** *** Random numbers

    The generator is the stream of the unit-normal draws it will hand
    out; drawing a tensor consumes as many of them as the tensor has
    entries. *)

Definition rng : Type := nat -> R.

Definition randn (s : list nat) (g : rng) : Tensor * rng :=
  (mkTensor s (map g (seq 0 (numel s))), fun i => g (i + numel s)%nat).

Definition nonneg (x : R) : bool := if Rle_dec 0 x then true else false.

(** [torch.normal(mean, std)]: [std] may not hold a negative entry; the
    draw is [mean + std * xi] for a unit-normal [xi] of the shape on
    which [mean] and [std] agree. *)
Definition normal (mean std : Tensor) (g : rng) : result (Tensor * rng) :=
  assert! forallb nonneg (data std) else TorchError ;;
  match broadcast_shapes (shape mean) (shape std) with
  | None => Err TorchError
  | Some s =>
      let '(xi, g') := randn s g in
      noise <- mul std xi ;;
      z <- add mean noise ;;
      Ok (z, g')
  end.

(** *** Reading an entry of a tensor of one, two or four dimensions *)

Definition at4 (t : Tensor) (b c h w : nat) : R :=
  match shape t with
  | [_; C; H; W] => nth (((b * C + c) * H + h) * W + w) (data t) 0
  | _ => 0
  end.

Definition at1 (t : Tensor) (i : nat) : R := nth i (data t) 0.

Definition at2 (t : Tensor) (i j : nat) : R :=
  match shape t with
  | [_; L] => nth (i * L + j) (data t) 0
  | _ => 0
  end.

End Torch.

(** ** denoising-diffusion/ddpm.py *)

Module Ddpm.

Import Torch.
Open Scope R_scope.
Open Scope result_scope.

(** *** The denoising networks, as their constructors lay them out *)

(** [nn.Conv2d(in_channels, out_channels, kernel_size, padding)]; the
    library cannot allocate weights for a negative number of channels. *)
Record Conv2d : Type := mkConv2d
  { in_channels : Z; out_channels : Z; kernel_size : Z; padding : Z }.

Definition Conv2d_init (i o k p : Z) : result Conv2d :=
  assert! ((0 <=? i) && (0 <=? o))%Z else TorchError ;;
  Ok (mkConv2d i o k p).

(** [ConvLayer = partial(nn.Conv2d, kernel_size=3, padding=1)] *)
Definition ConvLayer (i o : Z) : result Conv2d := Conv2d_init i o 3 1.

(** [range(n)] and [range(a, b)] *)
Definition range (n : Z) : list Z := map Z.of_nat (seq 0 (Z.to_nat n)).
Definition range2 (a b : Z) : list Z :=
  map (fun i => (a + Z.of_nat i)%Z) (seq 0 (Z.to_nat (b - a))).

Fixpoint mapM {A B : Type} (f : A -> result B) (l : list A) : result (list B) :=
  match l with
  | [] => Ok []
  | x :: l' => y <- f x ;; r <- mapM f l' ;; Ok (y :: r)
  end.

Record ResNet : Type := mkResNet
  { res_embed : Conv2d; res_out : Conv2d; res_layers : list (Conv2d * Conv2d) }.

Definition ResNet_init (feature_dim hidden_dim n_layers : Z) : result ResNet :=
  embed <- ConvLayer (feature_dim + 1) hidden_dim ;;
  out <- ConvLayer hidden_dim feature_dim ;;
  layers <- mapM (fun _ : Z =>
                    c1 <- ConvLayer (hidden_dim + 1) hidden_dim ;;
                    c2 <- ConvLayer hidden_dim hidden_dim ;;
                    Ok (c1, c2))
                 (range n_layers) ;;
  Ok (mkResNet embed out layers).

Record MiniUnet : Type := mkMiniUnet
  { unet_n_layers : Z;
    unet_embed : Conv2d;
    unet_out : Conv2d;
    unet_downscaling : list (Conv2d * Conv2d);
    unet_bottom_map : Conv2d * Conv2d;
    unet_upscaling : list (Conv2d * Conv2d) }.

(** [4**n] is an integer for [0 <= n] only; no layer can be built from
    the fraction that a negative exponent gives. *)
Definition pow4 (n : Z) : result Z :=
  assert! (0 <=? n)%Z else TorchError ;; Ok (4 ^ n)%Z.

Definition MiniUnet_init (feature_dim hidden_dim n_layers : Z) : result MiniUnet :=
  assert! (n_layers <=? 2)%Z else AssertionError ;;
  embed <- ConvLayer (feature_dim + 1) hidden_dim ;;
  out <- ConvLayer hidden_dim feature_dim ;;
  downscaling <- mapM (fun i : Z =>
                         c1 <- ConvLayer (4 ^ i * hidden_dim + 1) (4 ^ i * hidden_dim) ;;
                         c2 <- Conv2d_init (4 ^ i * hidden_dim) (4 ^ i * hidden_dim) 1 0 ;;
                         Ok (c1, c2))
                      (range n_layers) ;;
  p <- pow4 n_layers ;;
  let bottom_channels := (p * hidden_dim)%Z in
  b1 <- ConvLayer (bottom_channels + 1) bottom_channels ;;
  b2 <- ConvLayer bottom_channels bottom_channels ;;
  upscaling <- mapM (fun i : Z =>
                       c1 <- ConvLayer (2 * 4 ^ i * hidden_dim + 1) (4 ^ i * hidden_dim) ;;
                       c2 <- Conv2d_init (4 ^ i * hidden_dim) (4 ^ i * hidden_dim) 1 0 ;;
                       Ok (c1, c2))
                    (rev (range2 1 (n_layers + 1))) ;;
  Ok (mkMiniUnet n_layers embed out downscaling (b1, b2) upscaling).

Inductive Network : Type :=
| NetResNet (net : ResNet)
| NetMiniUnet (net : MiniUnet).

(** *** The diffusion model *)

Record DDPM : Type := mkDDPM
  { N : Z;
    type : string;
    model : Network;
    alpha : Tensor;
    beta : Tensor;
    alpha_bar : Tensor;
    beta_tilde : Tensor }.

Definition beta_start : R := 1e-4.
Definition beta_end : R := 2e-2.

Definition unknown_model_type (ty : string) : exn :=
  RuntimeError ("Unknown model type " ++ ty).

(** Lines 165 to 172 of [__init__]: the choice of the network. *)
Definition select_model (type : string) (hidden_dim n_layers : Z) : result Network :=
  if String.eqb type "resnet" then
    net <- ResNet_init 1 hidden_dim n_layers ;; Ok (NetResNet net)
  else if String.eqb type "unet" then
    net <- MiniUnet_init 1 hidden_dim n_layers ;; Ok (NetMiniUnet net)
  else Err (unknown_model_type type).

Definition DDPM_init (N : Z) (type : string) (hidden_dim n_layers : Z) : result DDPM :=
  model <- select_model type hidden_dim n_layers ;;
  assert! (0 <=? N)%Z else TorchError ;;
  let beta := linspace beta_start beta_end (Z.to_nat N) in
  let alpha := rsub 1 beta in
  let alpha_bar := cumprod alpha in
  let numerator_shifted := rsub 1 (cat (ones 1) (drop_last alpha_bar)) in
  ratio <- div numerator_shifted (rsub 1 alpha_bar) ;;
  beta_tilde <- mul beta ratio ;;
  beta_0 <- getitem beta 0 ;;
  beta_tilde <- setitem beta_tilde 0 beta_0 ;;
  Ok (mkDDPM N type model alpha beta alpha_bar beta_tilde).

(** [batch_broadcast(a, b)] *)
Definition batch_broadcast (a b : Tensor) : result Tensor :=
  assert! (ndim a =? 1)%nat else AssertionError ;;
  Ok (view_column a (ndim b - 1)).

(** What [@typechecked] asks of two [ImageBatch] arguments and one
    [NoiseLevel] argument: four dimensions, and the same size under the
    same dimension name. *)
Definition typecheck (a : Tensor) (n : LongTensor) (b : Tensor) : bool :=
  (ndim a =? 4)%nat && shape_eqb (shape a) (shape b)
  && (length n =? hd 0%nat (shape a))%nat.

(** ... and of a returned [ImageBatch]. *)
Definition typecheck_return (a r : Tensor) : result Tensor :=
  assert! shape_eqb (shape r) (shape a) else TypeError ;; Ok r.

(** [a += b] *)
Definition iadd (a b : Tensor) : result Tensor :=
  r <- add a b ;;
  assert! shape_eqb (shape r) (shape a) else TorchError ;; Ok r.

(** [n / float(self.N)] *)
Definition normalize (m : DDPM) (n : LongTensor) : Tensor :=
  mkTensor [length n] (map (fun k => IZR k / IZR (N m)) n).

(** Lines 213 to 215 of [simplified_loss]: the noisy sample [z_n]. *)
Definition noisy_sample (m : DDPM) (x0 : Tensor) (n : LongTensor) (epsilon : Tensor)
  : result Tensor :=
  a <- index (alpha_bar m) n ;;
  broadcasted_alpha_bar_n <- batch_broadcast a x0 ;;
  z_n <- mul broadcasted_alpha_bar_n x0 ;;
  a' <- index (alpha_bar m) n ;;
  s <- batch_broadcast (sqrt (rsub 1 a')) epsilon ;;
  t <- mul s epsilon ;;
  iadd z_n t.

Definition estimate_x0 (m : DDPM) (z_n : Tensor) (n : LongTensor) (epsilon : Tensor)
  : result Tensor :=
  assert! typecheck z_n n epsilon else TypeError ;;
  a <- index (alpha_bar m) n ;;
  broadcasted_alpha_bar_n <- batch_broadcast a z_n ;;
  t <- mul (sqrt (rsub 1 broadcasted_alpha_bar_n)) epsilon ;;
  d <- sub z_n t ;;
  x_0 <- div d (sqrt broadcasted_alpha_bar_n) ;;
  typecheck_return z_n x_0.

Definition sample_z_n_previous (m : DDPM) (x0 z_n : Tensor) (n : LongTensor) (g : rng)
  : result (Tensor * rng) :=
  assert! typecheck x0 n z_n else TypeError ;;
  alpha_n <- index (alpha m) n ;;
  alpha_bar_prev <- index (alpha_bar m) (long_sub n 1) ;;
  t1 <- mul (sqrt alpha_n) (rsub 1 alpha_bar_prev) ;;
  alpha_bar_n <- index (alpha_bar m) n ;;
  c1 <- div t1 (rsub 1 alpha_bar_n) ;;
  b1 <- batch_broadcast c1 z_n ;;
  mu <- mul z_n b1 ;;
  alpha_bar_prev' <- index (alpha_bar m) (long_sub n 1) ;;
  beta_n <- index (beta m) n ;;
  t2 <- mul (sqrt alpha_bar_prev') beta_n ;;
  alpha_bar_n' <- index (alpha_bar m) n ;;
  c2 <- div t2 (rsub 1 alpha_bar_n') ;;
  b2 <- batch_broadcast c2 x0 ;;
  t <- mul x0 b2 ;;
  mu <- iadd mu t ;;
  beta_tilde_n <- index (beta_tilde m) n ;;
  broadcasted_beta_tilde <- batch_broadcast beta_tilde_n z_n ;;
  '(z, g') <- normal mu broadcasted_beta_tilde g ;;
  z <- typecheck_return z_n z ;;
  Ok (z, g').

Section WithNetwork.

(** The forward pass of the denoising network, [self.model(z_n, n)],
    with whatever weights training has left in it. *)
Variable forward : Network -> Tensor -> Tensor -> result Tensor.

Definition simplified_loss (m : DDPM) (x0 : Tensor) (n : LongTensor) (epsilon : Tensor)
  : result Tensor :=
  assert! typecheck x0 n epsilon else TypeError ;;
  let norm_n := normalize m n in
  z_n <- noisy_sample m x0 n epsilon ;;
  epsilon_theta <- forward (model m) z_n norm_n ;;
  d <- sub epsilon epsilon_theta ;;
  Ok (sum_all (square d)).

(** The body of [for n in reversed(range(self.N))] in [sample], run over
    the remaining values [ns] of [n]; [x0] is unbound until the first
    pass has assigned it. *)
Fixpoint sample_loop (m : DDPM) (batch_size : nat) (ns : list Z)
    (z_n : Tensor) (x0 : option Tensor) (g : rng) : result (option Tensor * rng) :=
  match ns with
  | [] => Ok (x0, g)
  | n :: ns' =>
      let noise_level := long_full batch_size n in
      let normalize_noise_level := full batch_size (IZR n / IZR (N m)) in
      predicted_noise <- forward (model m) z_n normalize_noise_level ;;
      x0' <- estimate_x0 m z_n noise_level predicted_noise ;;
      if (n =? 0)%Z then Ok (Some x0', g)
      else
        '(z_n', g') <- sample_z_n_previous m x0' z_n noise_level g ;;
        sample_loop m batch_size ns' z_n' (Some x0') g'
  end.

Definition sample (m : DDPM) (batch_size : Z) (g : rng) : result (Tensor * rng) :=
  assert! (0 <=? batch_size)%Z else TorchError ;;
  let noise_shape := [Z.to_nat batch_size; 1; 28; 28]%nat in
  let '(z_n, g) := randn noise_shape g in
  '(x0, g) <- sample_loop m (Z.to_nat batch_size) (rev (range (N m))) z_n None g ;;
  match x0 with
  | Some x0 => Ok (x0, g)
  | None => Err UnboundLocalError
  end.

End WithNetwork.

End Ddpm.

(** ** variational-autoencoder/vae/vae.py *)

Module Vae.

Import Torch.
Open Scope R_scope.
Open Scope result_scope.

(** What [@typechecked] asks of two arguments of type
    [TensorType['batch_size', 'latent_dim']]. *)
Definition typecheck_latent (mu logsigma : Tensor) : bool :=
  (ndim mu =? 2)%nat && shape_eqb (shape mu) (shape logsigma).


Definition kl_divergence (mu logsigma : Tensor) : result Tensor :=
  assert! typecheck_latent mu logsigma else TypeError ;;
  log_sigma_squared <- add logsigma logsigma ;;
  let sigma_squared := exp log_sigma_squared in
  mu_squared <- mul mu mu ;;
  s1 <- add sigma_squared mu_squared ;;
  s2 <- sub s1 log_sigma_squared ;;
  s <- sum_dim1 (sub_scalar s2 1) ;;
  let kl := scale 0.5 s in
  assert! shape_eqb (shape kl) [hd 0%nat (shape mu)] else TypeError ;;
  Ok kl.

End Vae.

(** ** The sampling procedure as the specification words it *)

Module Spec.

Import Torch Ddpm.
Open Scope R_scope.
Open Scope result_scope.

Section WithNetwork.

Variable forward : Network -> Tensor -> Tensor -> result Tensor.

(** Section 4.4, from noise level [k] on: predict the noise from
    [(z_n, n/N)], compute the estimate of the clean image, and either
    return it, at level zero, or sample [z_{n-1}] and go one level down. *)
Fixpoint denoise_from (m : DDPM) (batch_size : nat) (k : nat) (z_n : Tensor) (g : rng)
  : result (Tensor * rng) :=
  let n := Z.of_nat k in
  predicted_noise <- forward (model m) z_n (full batch_size (IZR n / IZR (N m))) ;;
  x0 <- estimate_x0 m z_n (long_full batch_size n) predicted_noise ;;
  match k with
  | O => Ok (x0, g)
  | S k' =>
      '(z_prev, g') <- sample_z_n_previous m x0 z_n (long_full batch_size n) g ;;
      denoise_from m batch_size k' z_prev g'
  end.

End WithNetwork.

(** Section 4.5: the divergence of sample [b] from the standard normal
    prior, half the sum over the latent dimensions of
    [sigma^2 + mu^2 - 2 log sigma - 1] with [sigma = exp (log sigma)]. *)
Definition kl_term (mu logsigma : R) : R :=
  let sigma := Rtrigo_def.exp logsigma in
  sigma ^ 2 + mu ^ 2 - 2 * logsigma - 1.

Definition sum_over (k : nat) (f : nat -> R) : R := sum_list (map f (seq 0 k)).

Definition kl_per_sample (mu logsigma : Tensor) (b : nat) : R :=
  1 / 2 * sum_over (nth 1 (shape mu) 0%nat)
            (fun j => kl_term (at2 mu b j) (at2 logsigma b j)).

End Spec.

(** ** Concrete inputs *)

Module Examples.

Import Torch Ddpm.
Open Scope R_scope.

(** A batch of one image of one pixel. *)
Definition pixel (v : R) : Tensor := mkTensor [1; 1; 1; 1]%nat [v].

(** [DDPM(N=2, type="resnet", hidden_dim=4, n_layers=1)] *)
Definition two_steps : DDPM :=
  match DDPM_init 2 "resnet" 4 1 with
  | Ok m => m
  | Err _ =>
      let c := mkConv2d 0 0 0 0 in
      mkDDPM 0 "" (NetResNet (mkResNet c c [])) (ones 0) (ones 0) (ones 0) (ones 0)
  end.

(** A generator whose every draw is one. *)
Definition all_ones : rng := fun _ => 1.

(** A network that predicts its input as the noise. *)
Definition echo (_ : Network) (z_n _ : Tensor) : result Tensor := Ok z_n.

End Examples.

(** ** denoising-diffusion/ddpm.py: the training loss *)

Module DdpmTraining.

Import Torch Ddpm.
Open Scope R_scope.
Open Scope result_scope.

Section WithNetwork.

Variable forward : Network -> Tensor -> Tensor -> result Tensor.

(** [torch.randint(high, (size,))]: [size] integers drawn from
    [0, high), by whatever the generator does for integers. *)
Variable randint : Z -> nat -> rng -> result (LongTensor * rng).


End WithNetwork.

End DdpmTraining.

(** ** More of the tensor library *)

Module TorchMore.

Import Torch.
Open Scope R_scope.
Open Scope result_scope.



End TorchMore.

(** ** variational-autoencoder/vae/vae.py: the training objective *)

Module VaeTraining.

Import Torch TorchMore Vae.
Open Scope R_scope.
Open Scope result_scope.

Section WithNetworks.

(** [self.encoder(x)], [self.decoder(z)] and
    [F.binary_cross_entropy(theta, x, reduction="none")] *)
Variable encoder : Tensor -> result (Tensor * Tensor).
Variable decoder : Tensor -> result Tensor.
Variable binary_cross_entropy : Tensor -> Tensor -> result Tensor.


End WithNetworks.

End VaeTraining.

(** ** The rearrangements of [MiniUnet.forward] *)

Module Einops.

Import Torch.
Open Scope R_scope.
Open Scope result_scope.

(** The indices [(b, c, h, w)] of the entry at row-major position [p] of
    a tensor with [C] channels of [H] rows and [W] columns. *)
Definition unravel4 (C H W p : nat) : nat * nat * nat * nat :=
  (p / W / H / C, (p / W / H) mod C, (p / W) mod H, p mod W)%nat.

(** [eo.rearrange(t, "b c (h h2) (w w2) -> b (c h2 w2) h w", h2=2, w2=2)]:
    every two by two block of pixels becomes four channels.  The error
    that einops raises for a shape it cannot split is a runtime error of
    the library. *)
Definition space_to_depth (t : Tensor) : result Tensor :=
  match shape t with
  | [B; C; H2; W2] =>
      assert! Nat.even H2 && Nat.even W2 else TorchError ;;
      let h := (H2 / 2)%nat in
      let w := (W2 / 2)%nat in
      Ok (mkTensor [B; C * 2 * 2; h; w]%nat
            (map (fun o =>
                    let '(b, k, i, j) := unravel4 (C * 2 * 2) h w o in
                    let c := (k / 2 / 2)%nat in
                    let h2 := ((k / 2) mod 2)%nat in
                    let w2 := (k mod 2)%nat in
                    nth (((b * C + c) * H2 + (i * 2 + h2)) * W2 + (j * 2 + w2)) (data t) 0)
                 (seq 0 (numel [B; C * 2 * 2; h; w]%nat))))
  | _ => Err TorchError
  end.

(** [eo.rearrange(t, "b (c h2 w2) h w -> b c (h h2) (w w2)", h2=2, w2=2)]:
    every four channels become a two by two block of pixels. *)
Definition depth_to_space (t : Tensor) : result Tensor :=
  match shape t with
  | [B; K; h; w] =>
      assert! (K mod 4 =? 0)%nat else TorchError ;;
      let C := (K / 4)%nat in
      Ok (mkTensor [B; C; h * 2; w * 2]%nat
            (map (fun p =>
                    let '(b, c, y, x) := unravel4 C (h * 2) (w * 2) p in
                    let k := ((c * 2 + y mod 2) * 2 + x mod 2)%nat in
                    nth (((b * K + k) * h + y / 2) * w + x / 2) (data t) 0)
                 (seq 0 (numel [B; C; h * 2; w * 2]%nat))))
  | _ => Err TorchError
  end.

End Einops.

(** ** More concrete inputs *)

Module ExamplesMore.

Import Torch Ddpm.
Open Scope R_scope.



End ExamplesMore.

(** * Properties *)

(** ** The tensor library *)

Module TorchFacts.

Import Torch.
Open Scope R_scope.

(** *** The operations on small inputs *)

Example mul_column (a b x1 x2 x3 x4 x5 x6 : R) :
  mul (mkTensor [2; 1]%nat [a; b]) (mkTensor [2; 3]%nat [x1; x2; x3; x4; x5; x6])
  = Ok (mkTensor [2; 3]%nat [a * x1; a * x2; a * x3; b * x4; b * x5; b * x6]).
Proof. reflexivity. Qed.

Example add_row (a b c x1 x2 x3 x4 x5 x6 : R) :
  add (mkTensor [3]%nat [a; b; c]) (mkTensor [2; 3]%nat [x1; x2; x3; x4; x5; x6])
  = Ok (mkTensor [2; 3]%nat [a + x1; b + x2; c + x3; a + x4; b + x5; c + x6]).
Proof. reflexivity. Qed.

Example sub_mismatch (a b c x1 x2 : R) :
  sub (mkTensor [3]%nat [a; b; c]) (mkTensor [2]%nat [x1; x2]) = Err TorchError.
Proof. reflexivity. Qed.

Example index_last (a b c : R) :
  index (mkTensor [3]%nat [a; b; c]) [(-1)%Z; 0%Z; 2%Z] = Ok (mkTensor [3]%nat [c; a; c]).
Proof. reflexivity. Qed.

Example index_out (a b c : R) :
  index (mkTensor [3]%nat [a; b; c]) [3%Z] = Err IndexError.
Proof. reflexivity. Qed.

Example long_sub_zero : long_sub [0%Z; 2%Z] 1 = [(-1)%Z; 1%Z].
Proof. reflexivity. Qed.

Example long_sub_wraps : long_sub [(- 2 ^ 63)%Z] 1 = [(2 ^ 63 - 1)%Z].
Proof. reflexivity. Qed.

Example cumprod_three (a b c : R) :
  cumprod (mkTensor [3]%nat [a; b; c]) = mkTensor [3]%nat [a; a * b; a * b * c].
Proof. reflexivity. Qed.

(** *** Lists *)

Lemma shape_eqb_refl (s : list nat) : shape_eqb s s = true.
Proof. unfold shape_eqb. destruct (list_eq_dec Nat.eq_dec s s); congruence. Qed.

Lemma zip_with_length f (l1 l2 : list R) :
  length l1 = length l2 -> length (zip_with f l1 l2) = length l1.
Proof.
  revert l2. induction l1 as [|x l1 IH]; intros [|y l2] H; simpl in *; try congruence.
  injection H as H. now rewrite IH.
Qed.

Lemma zip_with_nth f (l1 l2 : list R) (i : nat) :
  length l1 = length l2 -> (i < length l1)%nat ->
  nth i (zip_with f l1 l2) 0 = f (nth i l1 0) (nth i l2 0).
Proof.
  revert l2 i. induction l1 as [|x l1 IH]; intros [|y l2] i H Hi; simpl in *;
    try lia; try congruence.
  destruct i as [|i]; [reflexivity|]. apply IH; [congruence | lia].
Qed.

(** *** Blocks *)

Lemma chunks_length k m d : length (chunks k m d) = k.
Proof. revert d. induction k as [|k IH]; intros d; simpl; [reflexivity | now rewrite IH]. Qed.

Lemma concat_chunks k m d : length d = (k * m)%nat -> concat (chunks k m d) = d.
Proof.
  revert d. induction k as [|k IH]; intros d H; simpl in *.
  - destruct d; simpl in *; [reflexivity | lia].
  - rewrite IH.
    + apply firstn_skipn.
    + rewrite length_skipn. lia.
Qed.

Lemma chunks_block_length k m d :
  length d = (k * m)%nat -> Forall (fun c => length c = m) (chunks k m d).
Proof.
  revert d. induction k as [|k IH]; intros d H; simpl in *; constructor.
  - rewrite length_firstn. lia.
  - apply IH. rewrite length_skipn. lia.
Qed.

Lemma chunks_singletons (d : list R) :
  chunks (length d) 1 d = map (fun v => [v]) d.
Proof. induction d as [|x d IH]; simpl; [reflexivity | now rewrite IH]. Qed.

Lemma nth_chunks k m d i j :
  length d = (k * m)%nat -> (i < k)%nat -> (j < m)%nat ->
  nth j (nth i (chunks k m d) []) 0 = nth (i * m + j) d 0.
Proof.
  revert d i. induction k as [|k IH]; intros d i H Hi Hj; [lia|].
  simpl. destruct i as [|i].
  - simpl. rewrite <- (firstn_skipn m d) at 2.
    rewrite app_nth1; [reflexivity | rewrite length_firstn; simpl in H; lia].
  - rewrite IH; [| rewrite length_skipn; simpl in H; lia | lia | lia].
    rewrite <- (firstn_skipn m d) at 2.
    rewrite app_nth2; rewrite length_firstn; simpl in H.
    + f_equal. rewrite Nat.min_l by lia. simpl. lia.
    + rewrite Nat.min_l by lia. simpl. lia.
Qed.

(** *** Broadcasting *)

Lemma numel_ones k : numel (repeat 1%nat k) = 1%nat.
Proof. induction k as [|k IH]; simpl; [reflexivity | rewrite IH; reflexivity]. Qed.

Lemma pad_shape_same (s : list nat) : pad_shape (length s) s = s.
Proof. unfold pad_shape. now rewrite Nat.sub_diag. Qed.

Lemma bdim_same x : bdim x x = Some x.
Proof. unfold bdim. now rewrite Nat.eqb_refl. Qed.

Lemma bdim_one_l y : bdim 1 y = Some y.
Proof.
  unfold bdim. destruct (Nat.eqb_spec 1 y) as [->|]; [reflexivity|].
  reflexivity.
Qed.

Lemma bdim_one_r x : bdim x 1 = Some x.
Proof.
  unfold bdim. destruct (Nat.eqb_spec x 1) as [->|]; [reflexivity|].
  simpl. reflexivity.
Qed.

Lemma bzip_same s : bzip s s = Some s.
Proof. induction s as [|x s IH]; simpl; [reflexivity | now rewrite bdim_same, IH]. Qed.

Lemma bzip_ones_l s : bzip (repeat 1%nat (length s)) s = Some s.
Proof. induction s as [|x s IH]; simpl; [reflexivity | now rewrite bdim_one_l, IH]. Qed.

Lemma bzip_ones_r s : bzip s (repeat 1%nat (length s)) = Some s.
Proof. induction s as [|x s IH]; simpl; [reflexivity | now rewrite bdim_one_r, IH]. Qed.

Lemma broadcast_shapes_same s : broadcast_shapes s s = Some s.
Proof.
  unfold broadcast_shapes. rewrite Nat.max_id, pad_shape_same. apply bzip_same.
Qed.

Lemma broadcast_shapes_column_l b s :
  broadcast_shapes (b :: repeat 1%nat (length s)) (b :: s) = Some (b :: s).
Proof.
  unfold broadcast_shapes. simpl length. rewrite repeat_length, Nat.max_id.
  replace (pad_shape (S (length s)) (b :: repeat 1%nat (length s)))
    with (b :: repeat 1%nat (length s)).
  - replace (pad_shape (S (length s)) (b :: s)) with (b :: s)
      by (symmetry; apply (pad_shape_same (b :: s))).
    simpl. now rewrite bdim_same, bzip_ones_l.
  - unfold pad_shape. simpl. now rewrite repeat_length, Nat.sub_diag.
Qed.

Lemma broadcast_shapes_column_r b s :
  broadcast_shapes (b :: s) (b :: repeat 1%nat (length s)) = Some (b :: s).
Proof.
  unfold broadcast_shapes. simpl length. rewrite repeat_length, Nat.max_id.
  replace (pad_shape (S (length s)) (b :: repeat 1%nat (length s)))
    with (b :: repeat 1%nat (length s)).
  - replace (pad_shape (S (length s)) (b :: s)) with (b :: s)
      by (symmetry; apply (pad_shape_same (b :: s))).
    simpl. now rewrite bdim_same, bzip_ones_r.
  - unfold pad_shape. simpl. now rewrite repeat_length, Nat.sub_diag.
Qed.

Lemma expand_same s d : length d = numel s -> expand s s d = d.
Proof.
  revert d. induction s as [|x s IH]; intros d H; simpl; [reflexivity|].
  rewrite Nat.eqb_refl. simpl in H.
  rewrite <- (concat_chunks x (numel s) d) at 2 by exact H.
  f_equal. rewrite <- (map_id (chunks x (numel s) d)) at 2.
  apply map_ext_in. intros c Hc.
  apply IH. pose proof (chunks_block_length x (numel s) d H) as F.
  rewrite Forall_forall in F. now apply F.
Qed.

Lemma concat_repeat_repeat (v : R) m t :
  concat (repeat (repeat v m) t) = repeat v (t * m).
Proof.
  induction t as [|t IH]; simpl; [reflexivity|].
  now rewrite IH, repeat_app.
Qed.

Lemma expand_ones s v : expand (repeat 1%nat (length s)) s [v] = repeat v (numel s).
Proof.
  induction s as [|t s IH]; simpl; [reflexivity|].
  rewrite numel_ones. cbn [chunks firstn map concat]. rewrite IH.
  rewrite (app_nil_r (repeat v (numel s))).
  destruct t as [|[|t]].
  - reflexivity.
  - simpl. now rewrite Nat.add_0_r.
  - apply concat_repeat_repeat.
Qed.

Lemma expand_column b s d :
  length d = b ->
  expand (b :: repeat 1%nat (length s)) (b :: s) d = per_sample d (numel s).
Proof.
  intros <-. unfold per_sample. simpl. rewrite Nat.eqb_refl, numel_ones, chunks_singletons.
  rewrite map_map, flat_map_concat_map. f_equal.
  apply map_ext. intros v. apply expand_ones.
Qed.

Lemma per_sample_length (d : list R) m :
  length (per_sample d m) = (length d * m)%nat.
Proof.
  unfold per_sample. induction d as [|x d IH]; simpl; [reflexivity|].
  now rewrite length_app, repeat_length, IH.
Qed.

Lemma per_sample_nth (d : list R) m i :
  (i < length d * m)%nat -> nth i (per_sample d m) 0 = nth (i / m) d 0.
Proof.
  unfold per_sample. revert i. induction d as [|x d IH]; intros i Hi; simpl in *; [lia|].
  assert (m <> 0)%nat by (intros ->; lia).
  destruct (Nat.lt_ge_cases i m) as [Hlt|Hge].
  - rewrite app_nth1 by (now rewrite repeat_length).
    rewrite Nat.div_small by exact Hlt. apply nth_repeat_lt. exact Hlt.
  - rewrite app_nth2; rewrite repeat_length; [|exact Hge].
    rewrite IH by lia.
    replace i with ((i - m) + 1 * m)%nat at 2 by lia.
    rewrite Nat.div_add by exact H.
    now rewrite Nat.add_1_r.
Qed.

(** *** Binary operations on the shapes that occur *)

Lemma binop_same f a b :
  shape a = shape b -> wf a -> wf b ->
  binop f a b = Ok (mkTensor (shape a) (zip_with f (data a) (data b))).
Proof.
  unfold binop, wf. intros E Ha Hb. rewrite <- E, broadcast_shapes_same.
  cbv zeta. rewrite pad_shape_same, !expand_same; congruence.
Qed.

Lemma binop_column_l f a x b s :
  shape a = b :: repeat 1%nat (length s) -> shape x = b :: s ->
  length (data a) = b -> wf x ->
  binop f a x
  = Ok (mkTensor (b :: s) (zip_with f (per_sample (data a) (numel s)) (data x))).
Proof.
  unfold binop, wf. intros Ea Ex Ha Hx. rewrite Ea, Ex, broadcast_shapes_column_l.
  cbv zeta. rewrite (pad_shape_same (b :: s)).
  replace (pad_shape (length (b :: s)) (b :: repeat 1%nat (length s)))
    with (b :: repeat 1%nat (length s))
    by (unfold pad_shape; simpl; now rewrite repeat_length, Nat.sub_diag).
  rewrite expand_column by exact Ha.
  rewrite expand_same by (now rewrite <- Ex).
  reflexivity.
Qed.

Lemma binop_column_r f a x b s :
  shape a = b :: repeat 1%nat (length s) -> shape x = b :: s ->
  length (data a) = b -> wf x ->
  binop f x a
  = Ok (mkTensor (b :: s) (zip_with f (data x) (per_sample (data a) (numel s)))).
Proof.
  unfold binop, wf. intros Ea Ex Ha Hx. rewrite Ea, Ex, broadcast_shapes_column_r.
  cbv zeta. rewrite (pad_shape_same (b :: s)).
  replace (pad_shape (length (b :: s)) (b :: repeat 1%nat (length s)))
    with (b :: repeat 1%nat (length s))
    by (unfold pad_shape; simpl; now rewrite repeat_length, Nat.sub_diag).
  rewrite expand_column by exact Ha.
  rewrite expand_same by (now rewrite <- Ex).
  reflexivity.
Qed.

(** *** Indexing *)

Lemma py_index_in len i :
  (- Z.of_nat len <= i < Z.of_nat len)%Z -> py_index len i = Some (norm_index len i).
Proof.
  intros H. unfold py_index, norm_index.
  destruct (Z.leb_spec 0 i) as [H0|H0]; simpl.
  - destruct (Z.ltb_spec i (Z.of_nat len)); [reflexivity | lia].
  - destruct (Z.leb_spec (- Z.of_nat len) i); [|lia].
    destruct (Z.ltb_spec i 0); [reflexivity | lia].
Qed.

Lemma norm_index_lt len i :
  (- Z.of_nat len <= i < Z.of_nat len)%Z -> (norm_index len i < len)%nat.
Proof. intros H. unfold norm_index. destruct (Z.leb_spec 0 i); lia. Qed.

Lemma gather_in d n :
  Forall (fun i => (- Z.of_nat (length d) <= i < Z.of_nat (length d))%Z) n ->
  gather d n = Ok (picks d n).
Proof.
  unfold picks. induction 1 as [|i n Hi _ IH]; simpl; [reflexivity|].
  rewrite py_index_in by exact Hi. now rewrite IH.
Qed.

Lemma index_in t n :
  Forall (fun i => (- Z.of_nat (length (data t)) <= i < Z.of_nat (length (data t)))%Z) n ->
  index t n = Ok (mkTensor [length n] (picks (data t) n)).
Proof. intros H. unfold index. now rewrite gather_in by exact H. Qed.

Lemma wrap64_small z : (- 2 ^ 63 <= z < 2 ^ 63)%Z -> wrap64 z = z.
Proof. intros H. unfold wrap64. rewrite Z.mod_small; lia. Qed.

Lemma set_nth_length k v l : length (set_nth k v l) = length l.
Proof.
  revert k. induction l as [|x l IH]; intros [|k]; simpl; try reflexivity.
  now rewrite IH.
Qed.

Lemma nth_set_nth_eq k v l : (k < length l)%nat -> nth k (set_nth k v l) 0 = v.
Proof.
  revert k. induction l as [|x l IH]; intros [|k] H; simpl in *; try lia; try reflexivity.
  apply IH. lia.
Qed.

Lemma nth_set_nth_neq k j v l : k <> j -> nth j (set_nth k v l) 0 = nth j l 0.
Proof.
  revert k j. induction l as [|x l IH]; intros [|k] [|j] H; simpl; try reflexivity;
    try congruence.
  apply IH. congruence.
Qed.

(** *** Cumulative products *)

Lemma cumprod_from_length acc l : length (cumprod_from acc l) = length l.
Proof. revert acc. induction l as [|x l IH]; intros acc; simpl; [reflexivity | now rewrite IH]. Qed.

Lemma cumprod_length t : length (data (cumprod t)) = length (data t).
Proof.
  unfold cumprod. simpl. destruct (data t); simpl; [reflexivity|].
  now rewrite cumprod_from_length.
Qed.

Lemma cumprod_from_step acc l i :
  (i < length l)%nat ->
  nth i (cumprod_from acc l) 0 = nth i (acc :: cumprod_from acc l) 0 * nth i l 0.
Proof.
  revert acc i. induction l as [|x l IH]; intros acc i H; simpl in *; [lia|].
  destruct i as [|i]; [reflexivity|].
  rewrite IH by lia. reflexivity.
Qed.

Lemma cumprod_first t : at1 (cumprod t) 0 = at1 t 0.
Proof. unfold at1, cumprod. simpl. destruct (data t); reflexivity. Qed.

Lemma cumprod_step t i :
  (S i < length (data t))%nat ->
  at1 (cumprod t) (S i) = at1 (cumprod t) i * at1 t (S i).
Proof.
  unfold at1, cumprod. simpl. destruct (data t) as [|x l]; simpl; intros H; [lia|].
  apply cumprod_from_step. lia.
Qed.

Lemma linspace_length a b n : length (data (linspace a b n)) = n.
Proof. unfold linspace. simpl. now rewrite length_map, length_seq. Qed.

Lemma wf_tmap f t : wf t -> wf (tmap f t).
Proof. unfold wf, tmap. simpl. now rewrite length_map. Qed.

Lemma wf_linspace a b n : wf (linspace a b n).
Proof. unfold wf. rewrite linspace_length. simpl. lia. Qed.

Lemma wf_vector n d : length d = n -> wf (mkTensor [n] d).
Proof. unfold wf. simpl. lia. Qed.

Lemma removelast_length (l : list R) : length (removelast l) = Nat.pred (length l).
Proof.
  induction l as [|x l IH]; [reflexivity|].
  destruct l as [|y l]; [reflexivity|].
  change (removelast (x :: y :: l)) with (x :: removelast (y :: l)).
  simpl length in *. now rewrite IH.
Qed.

Lemma at1_tmap f t i :
  (i < length (data t))%nat -> at1 (tmap f t) i = f (at1 t i).
Proof.
  intros H. unfold at1, tmap. simpl.
  rewrite (nth_indep _ 0 (f 0)) by (now rewrite length_map).
  apply map_nth.
Qed.

Lemma nth_removelast (l : list R) i :
  (i < Nat.pred (length l))%nat -> nth i (removelast l) 0 = nth i l 0.
Proof.
  revert i. induction l as [|x l IH]; intros i H; [reflexivity|].
  destruct l as [|y l]; [simpl in H; lia|].
  change (removelast (x :: y :: l)) with (x :: removelast (y :: l)).
  destruct i as [|i]; [reflexivity|].
  simpl nth. apply IH. simpl in *. lia.
Qed.

Lemma linspace_at a b n i :
  (i < n)%nat -> at1 (linspace a b n) i = a + INR i * ((b - a) / INR (n - 1)).
Proof.
  intros H. unfold at1, linspace. simpl.
  rewrite (nth_indep _ 0 (a + INR 0 * ((b - a) / INR (n - 1))))
    by (now rewrite length_map, length_seq).
  rewrite (map_nth (fun i => a + INR i * ((b - a) / INR (n - 1)))).
  now rewrite seq_nth.
Qed.

Lemma linspace_between a b n i :
  a <= b -> (i < n)%nat -> a <= at1 (linspace a b n) i <= b.
Proof.
  intros Hab H. rewrite linspace_at by exact H.
  destruct i as [|i].
  - simpl. lra.
  - assert (Hn : 0 < INR (n - 1)) by (apply lt_0_INR; lia).
    assert (Hi : 0 <= INR (S i) <= INR (n - 1))
      by (split; [apply pos_INR | apply le_INR; lia]).
    set (x := INR (S i)) in *. set (y := INR (n - 1)) in *.
    assert (Hq : 0 <= x / y <= 1).
    { split.
      - apply Rmult_le_pos; [lra | left; now apply Rinv_0_lt_compat].
      - apply (Rmult_le_reg_r y); [exact Hn|]. unfold Rdiv.
        rewrite Rmult_assoc, Rinv_l by lra. lra. }
    replace (x * ((b - a) / y)) with ((b - a) * (x / y)) by (unfold Rdiv; ring).
    nra.
Qed.

Lemma zip_with_length_min f (l1 l2 : list R) :
  length (zip_with f l1 l2) = Nat.min (length l1) (length l2).
Proof.
  revert l2. induction l1 as [|x l1 IH]; intros [|y l2]; simpl; try reflexivity.
  now rewrite IH.
Qed.

Lemma zip_with_nth_lt f (l1 l2 : list R) (i : nat) :
  (i < length l1)%nat -> (i < length l2)%nat ->
  nth i (zip_with f l1 l2) 0 = f (nth i l1 0) (nth i l2 0).
Proof.
  revert l2 i. induction l1 as [|x l1 IH]; intros [|y l2] i H1 H2; simpl in *; try lia.
  destruct i as [|i]; [reflexivity|]. apply IH; lia.
Qed.

Lemma nth_map0 (f : R -> R) l i :
  (i < length l)%nat -> nth i (map f l) 0 = f (nth i l 0).
Proof.
  intros H. rewrite (nth_indep _ 0 (f 0)) by (now rewrite length_map). apply map_nth.
Qed.

Lemma nth_mapZ (f : Z -> R) (l : list Z) i :
  (i < length l)%nat -> nth i (map f l) 0 = f (nth i l 0%Z).
Proof.
  intros H. rewrite (nth_indep _ 0 (f 0%Z)) by (now rewrite length_map). apply map_nth.
Qed.

Lemma picks_length d n : length (picks d n) = length n.
Proof. unfold picks. apply length_map. Qed.

Lemma picks_nth d n b :
  (b < length n)%nat ->
  nth b (picks d n) 0 = nth (norm_index (length d) (nth b n 0%Z)) d 0.
Proof. intros H. unfold picks. now rewrite nth_mapZ. Qed.

Lemma norm_index_nonneg len k : (0 <= k)%Z -> norm_index len k = Z.to_nat k.
Proof. intros H. unfold norm_index. destruct (Z.leb_spec 0 k); [reflexivity | lia]. Qed.

(** Lengths of the lists that the operations above build. *)
Ltac list_len :=
  repeat first
    [ rewrite zip_with_length_min | rewrite per_sample_length | rewrite picks_length
    | rewrite length_map | rewrite repeat_length | rewrite length_seq ].

Lemma nth_zip_column_l f (av x : list R) m i :
  length x = (length av * m)%nat -> (i < length x)%nat ->
  nth i (zip_with f (per_sample av m) x) 0 = f (nth (i / m) av 0) (nth i x 0).
Proof.
  intros L Hi.
  rewrite zip_with_nth_lt by (rewrite ?per_sample_length; lia).
  rewrite per_sample_nth by lia. reflexivity.
Qed.

Lemma nth_zip_column_r f (av x : list R) m i :
  length x = (length av * m)%nat -> (i < length x)%nat ->
  nth i (zip_with f x (per_sample av m)) 0 = f (nth i x 0) (nth (i / m) av 0).
Proof.
  intros L Hi.
  rewrite zip_with_nth_lt by (rewrite ?per_sample_length; lia).
  rewrite per_sample_nth by lia. reflexivity.
Qed.

(** Row-major position of the entry [b, c, h, w]. *)
Lemma ravel4 B C H W b c h w :
  (b < B)%nat -> (c < C)%nat -> (h < H)%nat -> (w < W)%nat ->
  let i := (((b * C + c) * H + h) * W + w)%nat in
  (i < numel [B; C; H; W])%nat /\ (i / numel [C; H; W] = b)%nat.
Proof.
  intros Hb Hc Hh Hw i. subst i. simpl numel. rewrite !Nat.mul_1_r.
  assert (R0 : (c * H + h + 1 <= C * H)%nat).
  { apply Nat.le_trans with ((c + 1) * H)%nat; [lia|].
    apply Nat.mul_le_mono_r. lia. }
  assert (R1 : ((c * H + h) * W + w < C * (H * W))%nat).
  { apply Nat.lt_le_trans with ((c * H + h + 1) * W)%nat; [lia|].
    rewrite Nat.mul_assoc. apply Nat.mul_le_mono_r. exact R0. }
  assert (E : (((b * C + c) * H + h) * W + w
               = C * (H * W) * b + ((c * H + h) * W + w))%nat) by ring.
  split.
  - rewrite E. apply Nat.lt_le_trans with (C * (H * W) * (b + 1))%nat; [lia|].
    rewrite (Nat.mul_comm B). apply Nat.mul_le_mono_l. lia.
  - symmetry. apply (Nat.div_unique _ _ _ ((c * H + h) * W + w)%nat); [exact R1 | exact E].
Qed.

Lemma binop_same_shape f a b s :
  shape a = s -> shape b = s -> wf a -> wf b ->
  binop f a b = Ok (mkTensor s (zip_with f (data a) (data b))).
Proof. intros <- Hb Wa Wb. now apply binop_same. Qed.

End TorchFacts.

(** ** The diffusion model *)

Module DdpmFacts.

Import Torch TorchFacts Ddpm.
Open Scope R_scope.

(** *** The constructor and the helpers on small inputs *)

Example batch_broadcast_image (a b : R) (d : list R) :
  batch_broadcast (mkTensor [2]%nat [a; b]) (mkTensor [2; 1; 28; 28]%nat d)
  = Ok (mkTensor [2; 1; 1; 1]%nat [a; b]).
Proof. reflexivity. Qed.

Example no_step : DDPM_init 0 "resnet" 4 1 = Err IndexError.
Proof. reflexivity. Qed.

Example unknown_type :
  DDPM_init 10 "mlp" 4 1 = Err (RuntimeError "Unknown model type mlp").
Proof. reflexivity. Qed.

Example sample_without_step (forward : Network -> Tensor -> Tensor -> result Tensor) g :
  let c := mkConv2d 0 0 0 0 in
  let m := mkDDPM 0 "resnet" (NetResNet (mkResNet c c [])) (ones 0) (ones 0) (ones 0) (ones 0) in
  sample forward m 1 g = Err UnboundLocalError.
Proof. reflexivity. Qed.

(** *** The buffers of a constructed model *)

(** The construction, once the number of steps is positive: the
    network, then the four buffers. *)
Lemma DDPM_init_eq N ty hd nl :
  (1 <= N)%Z ->
  DDPM_init N ty hd nl
  = (net <- select_model ty hd nl ;;
     let b := linspace beta_start beta_end (Z.to_nat N) in
     let ab := cumprod (rsub 1 b) in
     Ok (mkDDPM N ty net (rsub 1 b) b ab
           (mkTensor [Z.to_nat N]
              (set_nth 0 (at1 b 0)
                 (zip_with Rmult (data b)
                    (zip_with Rdiv
                       (map (fun x => 1 - x) (1 :: removelast (data ab)))
                       (map (fun x => 1 - x) (data ab))))))))%result.
Proof.
  intros HN. unfold DDPM_init.
  destruct (select_model ty hd nl) as [net|e]; [|reflexivity].
  cbn [rbind]. destruct (Z.leb_spec 0 N) as [_|]; [|lia].
  cbv zeta.
  destruct (Z.to_nat N) as [|k] eqn:En; [lia|].
  assert (Lb : length (data (linspace beta_start beta_end (S k))) = S k)
    by apply linspace_length.
  assert (Sb : shape (linspace beta_start beta_end (S k)) = [S k]) by reflexivity.
  assert (Wb : wf (linspace beta_start beta_end (S k))) by apply wf_linspace.
  remember (linspace beta_start beta_end (S k)) as b eqn:Eb.
  assert (La : length (data (cumprod (rsub 1 b))) = S k)
    by (rewrite cumprod_length; simpl; now rewrite length_map).
  assert (Sab : shape (cumprod (rsub 1 b)) = [S k]) by (simpl; exact Sb).
  remember (cumprod (rsub 1 b)) as ab eqn:Eab.
  unfold div, mul.
  assert (Ln : length (data (rsub 1 (cat (ones 1) (drop_last ab)))) = S k).
  { simpl. rewrite length_map. simpl. rewrite removelast_length, La. reflexivity. }
  assert (Sn : shape (rsub 1 (cat (ones 1) (drop_last ab))) = [S k]).
  { simpl. rewrite removelast_length, La. reflexivity. }
  rewrite binop_same;
    [| now rewrite Sn | unfold wf; rewrite Ln, Sn; simpl; lia
     | apply wf_tmap; unfold wf; rewrite La, Sab; simpl; lia ].
  cbn [rbind].
  rewrite binop_same;
    [| now rewrite Sb, Sn
     | exact Wb
     | rewrite Sn; apply wf_vector; rewrite zip_with_length; [exact Ln|];
       rewrite Ln; cbn [rsub tmap data]; now rewrite length_map ].
  cbn [rbind].
  unfold getitem, setitem. cbn [data shape].
  rewrite zip_with_length, Lb;
    [| rewrite Lb, zip_with_length; [now rewrite Ln|];
       rewrite Ln; cbn [rsub tmap data]; now rewrite length_map ].
  change (py_index (S k) 0) with (Some 0%nat). cbn [rbind].
  rewrite Sb. reflexivity.
Qed.

(** Without a step there is no first entry to clamp. *)
Lemma DDPM_init_no_step N ty hd nl :
  (N < 1)%Z -> forall m, DDPM_init N ty hd nl <> Ok m.
Proof.
  intros HN m. unfold DDPM_init.
  destruct (select_model ty hd nl) as [net|e]; [|discriminate].
  cbn [rbind]. destruct (Z.leb_spec 0 N) as [H0|]; [|discriminate].
  replace N with 0%Z by lia. intros H. cbv in H. discriminate H.
Qed.

(** What a successful construction leaves in the buffers. *)
Lemma DDPM_init_inv N ty hd nl m :
  DDPM_init N ty hd nl = Ok m ->
  (1 <= N)%Z /\ Ddpm.N m = N /\ type m = ty /\
  select_model ty hd nl = Ok (model m) /\
  beta m = linspace beta_start beta_end (Z.to_nat N) /\
  alpha m = rsub 1 (beta m) /\
  alpha_bar m = cumprod (alpha m) /\
  shape (beta_tilde m) = [Z.to_nat N] /\
  data (beta_tilde m)
  = set_nth 0 (at1 (beta m) 0)
      (zip_with Rmult (data (beta m))
         (zip_with Rdiv (map (fun x => 1 - x) (1 :: removelast (data (alpha_bar m))))
                        (map (fun x => 1 - x) (data (alpha_bar m))))).
Proof.
  intros H.
  assert (HN : (1 <= N)%Z).
  { destruct (Z_lt_le_dec N 1) as [Hlt|]; [|assumption].
    exfalso. exact (DDPM_init_no_step N ty hd nl Hlt m H). }
  rewrite DDPM_init_eq in H by exact HN.
  destruct (select_model ty hd nl) as [net|e]; [|discriminate].
  cbn [rbind] in H. cbv zeta in H. injection H as <-.
  cbn [Ddpm.N type model beta alpha alpha_bar beta_tilde shape data].
  repeat split; try reflexivity; assumption.
Qed.

(** *** The noise schedule *)

Section Schedule.

Variables (N : Z) (ty : string) (hd nl : Z) (m : DDPM).
Hypothesis Hinit : DDPM_init N ty hd nl = Ok m.

Let steps : nat := Z.to_nat N.

Lemma beta_length : length (data (beta m)) = steps.
Proof.
  destruct (DDPM_init_inv _ _ _ _ _ Hinit) as (_ & _ & _ & _ & -> & _).
  apply linspace_length.
Qed.

Lemma alpha_length : length (data (alpha m)) = steps.
Proof.
  destruct (DDPM_init_inv _ _ _ _ _ Hinit) as (_ & _ & _ & _ & _ & -> & _).
  simpl. rewrite length_map. apply beta_length.
Qed.

Lemma alpha_bar_length : length (data (alpha_bar m)) = steps.
Proof.
  destruct (DDPM_init_inv _ _ _ _ _ Hinit) as (_ & _ & _ & _ & _ & _ & -> & _).
  rewrite cumprod_length. apply alpha_length.
Qed.

Lemma beta_range n : (n < steps)%nat -> beta_start <= at1 (beta m) n <= beta_end.
Proof.
  intros Hn. destruct (DDPM_init_inv _ _ _ _ _ Hinit) as (_ & _ & _ & _ & -> & _).
  apply linspace_between; [unfold beta_start, beta_end; lra | exact Hn].
Qed.

Lemma alpha_at n : (n < steps)%nat -> at1 (alpha m) n = 1 - at1 (beta m) n.
Proof.
  intros Hn. destruct (DDPM_init_inv _ _ _ _ _ Hinit) as (_ & _ & _ & _ & _ & -> & _).
  unfold rsub. rewrite at1_tmap; [reflexivity | now rewrite beta_length].
Qed.

Lemma alpha_range n : (n < steps)%nat -> 0 < at1 (alpha m) n < 1.
Proof.
  intros Hn. rewrite alpha_at by exact Hn.
  pose proof (beta_range _ Hn) as H. unfold beta_start, beta_end in H. lra.
Qed.

Lemma alpha_bar_first : at1 (alpha_bar m) 0 = at1 (alpha m) 0.
Proof.
  destruct (DDPM_init_inv _ _ _ _ _ Hinit) as (_ & _ & _ & _ & _ & _ & -> & _).
  apply cumprod_first.
Qed.

Lemma alpha_bar_step n :
  (S n < steps)%nat ->
  at1 (alpha_bar m) (S n) = at1 (alpha_bar m) n * at1 (alpha m) (S n).
Proof.
  intros Hn. destruct (DDPM_init_inv _ _ _ _ _ Hinit) as (_ & _ & _ & _ & _ & _ & E & _).
  rewrite E. apply cumprod_step. now rewrite alpha_length.
Qed.

Lemma alpha_bar_range n : (n < steps)%nat -> 0 < at1 (alpha_bar m) n < 1.
Proof.
  induction n as [|n IH]; intros Hn.
  - rewrite alpha_bar_first. now apply alpha_range.
  - rewrite alpha_bar_step by exact Hn.
    pose proof (alpha_range _ Hn). assert (0 < at1 (alpha_bar m) n < 1) by (apply IH; lia).
    nra.
Qed.

Lemma alpha_bar_decreasing n :
  (S n < steps)%nat -> at1 (alpha_bar m) (S n) < at1 (alpha_bar m) n.
Proof.
  intros Hn. rewrite alpha_bar_step by exact Hn.
  pose proof (alpha_range _ Hn). assert (0 < at1 (alpha_bar m) n < 1) by (apply alpha_bar_range; lia).
  nra.
Qed.

Lemma beta_tilde_length : length (data (beta_tilde m)) = steps.
Proof.
  destruct (DDPM_init_inv _ _ _ _ _ Hinit) as (_ & _ & _ & _ & _ & _ & _ & _ & ->).
  rewrite set_nth_length, zip_with_length; [apply beta_length|].
  rewrite zip_with_length; rewrite !length_map; simpl length;
    rewrite removelast_length, alpha_bar_length, ?beta_length.
  all: destruct (DDPM_init_inv _ _ _ _ _ Hinit) as (? & _); subst steps; lia.
Qed.

Lemma beta_tilde_first : at1 (beta_tilde m) 0 = at1 (beta m) 0.
Proof.
  pose proof beta_tilde_length as L.
  destruct (DDPM_init_inv _ _ _ _ _ Hinit) as (HN & _ & _ & _ & _ & _ & _ & _ & E).
  unfold at1 at 1. rewrite E in *. rewrite set_nth_length in L.
  apply nth_set_nth_eq. rewrite L. subst steps. lia.
Qed.

Lemma beta_tilde_at n :
  (0 < n < steps)%nat ->
  at1 (beta_tilde m) n
  = at1 (beta m) n * ((1 - at1 (alpha_bar m) (n - 1)) / (1 - at1 (alpha_bar m) n)).
Proof.
  intros Hn.
  destruct (DDPM_init_inv _ _ _ _ _ Hinit) as (HN & _ & _ & _ & _ & _ & _ & _ & E).
  unfold at1 at 1. rewrite E.
  rewrite nth_set_nth_neq by lia.
  pose proof beta_length as Lb. pose proof alpha_bar_length as La.
  assert (L1 : length (map (fun x => 1 - x) (1 :: removelast (data (alpha_bar m)))) = steps).
  { rewrite length_map. simpl length. rewrite removelast_length, La. lia. }
  assert (L2 : length (map (fun x => 1 - x) (data (alpha_bar m))) = steps)
    by (now rewrite length_map).
  rewrite zip_with_nth;
    [| rewrite zip_with_length; congruence | lia].
  rewrite zip_with_nth; [| congruence | lia].
  f_equal. f_equal.
  - rewrite (nth_indep _ 0 (1 - 0)) by lia.
    rewrite (map_nth (fun x => 1 - x)).
    destruct n as [|n]; [lia|]. simpl nth. rewrite Nat.sub_1_r. simpl Nat.pred.
    unfold at1. rewrite nth_removelast; [reflexivity | lia].
  - rewrite (nth_indep _ 0 (1 - 0)) by lia.
    now rewrite (map_nth (fun x => 1 - x)).
Qed.

Lemma beta_tilde_nonneg n : (n < steps)%nat -> 0 <= at1 (beta_tilde m) n.
Proof.
  intros Hn. destruct n as [|n].
  - rewrite beta_tilde_first. pose proof (beta_range _ Hn) as H.
    unfold beta_start in H. lra.
  - rewrite beta_tilde_at by lia.
    pose proof (beta_range _ Hn) as Hb. unfold beta_start in Hb.
    assert (H1 : 0 < at1 (alpha_bar m) (S n - 1) < 1) by (apply alpha_bar_range; lia).
    assert (H2 : 0 < at1 (alpha_bar m) (S n) < 1) by (apply alpha_bar_range; lia).
    apply Rmult_le_pos; [lra|].
    apply Rmult_le_pos; [lra|]. left. apply Rinv_0_lt_compat. lra.
Qed.

End Schedule.

Section Monotone.

Variables (N : Z) (ty : string) (hd nl : Z) (m : DDPM).
Hypothesis Hinit : DDPM_init N ty hd nl = Ok m.

Lemma alpha_bar_monotone i j :
  (i <= j)%nat -> (j < Z.to_nat N)%nat ->
  at1 (alpha_bar m) j <= at1 (alpha_bar m) i.
Proof.
  induction 1 as [|j Hij IH]; intros Hj; [lra|].
  pose proof (alpha_bar_decreasing N ty hd nl m Hinit j Hj).
  specialize (IH ltac:(lia)). lra.
Qed.

Lemma beta_at n :
  (n < Z.to_nat N)%nat ->
  at1 (beta m) n = beta_start + INR n * ((beta_end - beta_start) / INR (Z.to_nat N - 1)).
Proof.
  intros Hn. destruct (DDPM_init_inv _ _ _ _ _ Hinit) as (_ & _ & _ & _ & -> & _).
  now apply linspace_at.
Qed.

(** Each of the four buffers is a vector of [N] entries. *)
Lemma schedule_shapes :
  (shape (beta m) = [Z.to_nat N] /\ wf (beta m))
  /\ (shape (alpha m) = [Z.to_nat N] /\ wf (alpha m))
  /\ (shape (alpha_bar m) = [Z.to_nat N] /\ wf (alpha_bar m))
  /\ (shape (beta_tilde m) = [Z.to_nat N] /\ wf (beta_tilde m)).
Proof.
  pose proof (beta_length N ty hd nl m Hinit) as Lb.
  pose proof (alpha_length N ty hd nl m Hinit) as La.
  pose proof (alpha_bar_length N ty hd nl m Hinit) as Lc.
  pose proof (beta_tilde_length N ty hd nl m Hinit) as Lt.
  destruct (DDPM_init_inv _ _ _ _ _ Hinit) as (_ & _ & _ & _ & Eb & Ea & Ec & St & _).
  assert (Sb : shape (beta m) = [Z.to_nat N]) by (rewrite Eb; reflexivity).
  assert (Sa : shape (alpha m) = [Z.to_nat N]) by (rewrite Ea; exact Sb).
  assert (Sc : shape (alpha_bar m) = [Z.to_nat N]) by (rewrite Ec; exact Sa).
  unfold wf. rewrite Sb, Sa, Sc, St, Lb, La, Lc, Lt. cbn [numel fold_right].
  repeat split; lia.
Qed.

End Monotone.

(** *** Construction *)

Open Scope result_scope.

Lemma mapM_ok {A B : Type} (f : A -> result B) (l : list A) :
  (forall x, In x l -> exists y, f x = Ok y) -> exists r, mapM f l = Ok r.
Proof.
  induction l as [|x l IH]; intros H; simpl.
  - now exists [].
  - destruct (H x (or_introl eq_refl)) as [y ->].
    destruct IH as [r ->]; [intros z Hz; apply H; now right|].
    simpl. now exists (y :: r).
Qed.

Lemma mapM_err {A B : Type} (f : A -> result B) (l : list A) e :
  mapM f l = Err e -> exists x, In x l /\ f x = Err e.
Proof.
  induction l as [|x l IH]; simpl; [discriminate|].
  destruct (f x) as [y|e'] eqn:E; simpl.
  - destruct (mapM f l) as [r|e'']; simpl; [discriminate|].
    intros H. injection H as ->. destruct IH as (z & Hz & Ez); [reflexivity|].
    exists z. split; [now right | exact Ez].
  - intros H. injection H as ->. exists x. split; [now left | exact E].
Qed.

Lemma Conv2d_init_ok i o k p :
  (0 <= i)%Z -> (0 <= o)%Z -> Conv2d_init i o k p = Ok (mkConv2d i o k p).
Proof.
  intros Hi Ho. unfold Conv2d_init.
  destruct (Z.leb_spec 0 i); [|lia]. destruct (Z.leb_spec 0 o); [|lia]. reflexivity.
Qed.

Lemma Conv2d_init_err i o k p e : Conv2d_init i o k p = Err e -> e = TorchError.
Proof.
  unfold Conv2d_init. destruct ((0 <=? i)%Z && (0 <=? o)%Z); [discriminate|].
  now intros [= <-].
Qed.

Lemma in_range i n : In i (range n) -> (0 <= i < n)%Z.
Proof.
  unfold range. rewrite in_map_iff. intros (k & <- & Hk). apply in_seq in Hk. lia.
Qed.

Lemma in_range2 i a b : In i (range2 a b) -> (a <= i < b)%Z.
Proof.
  unfold range2. rewrite in_map_iff. intros (k & <- & Hk). apply in_seq in Hk. lia.
Qed.

Lemma ResNet_init_ok hd nl :
  (0 <= hd)%Z -> exists net, ResNet_init 1 hd nl = Ok net.
Proof.
  intros H. unfold ResNet_init, ConvLayer.
  rewrite !Conv2d_init_ok by lia. cbn [rbind].
  match goal with |- context [mapM ?f (range nl)] =>
    destruct (mapM_ok f (range nl)) as [r ->] end.
  - intros x _. simpl. eauto.
  - simpl. eauto.
Qed.

Lemma ResNet_init_err hd nl e : ResNet_init 1 hd nl = Err e -> e = TorchError.
Proof.
  unfold ResNet_init, ConvLayer.
  destruct (Conv2d_init (1 + 1) hd 3 1) eqn:E1; simpl;
    [| intros [= <-]; eapply Conv2d_init_err; eassumption].
  destruct (Conv2d_init hd 1 3 1) eqn:E2; simpl;
    [| intros [= <-]; eapply Conv2d_init_err; eassumption].
  match goal with |- context [mapM ?f ?l] => destruct (mapM f l) eqn:E3 end; simpl;
    [discriminate|].
  intros [= <-]. apply mapM_err in E3. destruct E3 as (x & _ & Ex).
  destruct (Conv2d_init (hd + 1) hd 3 1) eqn:E4; simpl in Ex;
    [| injection Ex as <-; eapply Conv2d_init_err; eassumption].
  destruct (Conv2d_init hd hd 3 1) eqn:E5; simpl in Ex;
    [discriminate | injection Ex as <-; eapply Conv2d_init_err; eassumption].
Qed.

Lemma MiniUnet_init_too_deep hd nl :
  (2 < nl)%Z -> MiniUnet_init 1 hd nl = Err AssertionError.
Proof.
  intros H. unfold MiniUnet_init. destruct (Z.leb_spec nl 2); [lia | reflexivity].
Qed.

Lemma MiniUnet_init_ok hd nl :
  (0 <= hd)%Z -> (0 <= nl <= 2)%Z -> exists net, MiniUnet_init 1 hd nl = Ok net.
Proof.
  intros H Hn. unfold MiniUnet_init, ConvLayer, pow4.
  destruct (Z.leb_spec nl 2); [|lia].
  rewrite !Conv2d_init_ok by lia. cbn [rbind].
  match goal with |- context [mapM ?f (range nl)] =>
    destruct (mapM_ok f (range nl)) as [r ->] end.
  { intros i Hi. apply in_range in Hi.
    assert (0 <= 4 ^ i * hd)%Z by (apply Z.mul_nonneg_nonneg; [apply Z.pow_nonneg|]; lia).
    rewrite !Conv2d_init_ok by lia. simpl. eauto. }
  cbn [rbind]. destruct (Z.leb_spec 0 nl); [|lia]. cbn [rbind]. cbv zeta.
  assert (0 <= 4 ^ nl * hd)%Z by (apply Z.mul_nonneg_nonneg; [apply Z.pow_nonneg|]; lia).
  rewrite !Conv2d_init_ok by lia. cbn [rbind].
  match goal with |- context [mapM ?f (rev ?l)] =>
    destruct (mapM_ok f (rev l)) as [r' ->] end.
  { intros i Hi. apply in_rev in Hi. apply in_range2 in Hi.
    assert (0 <= 4 ^ i * hd)%Z by (apply Z.mul_nonneg_nonneg; [apply Z.pow_nonneg|]; lia).
    rewrite !Conv2d_init_ok by lia. simpl. eauto. }
  simpl. eauto.
Qed.

Lemma MiniUnet_init_err hd nl e :
  MiniUnet_init 1 hd nl = Err e -> e = TorchError \/ e = AssertionError.
Proof.
  unfold MiniUnet_init, ConvLayer, pow4.
  destruct (nl <=? 2)%Z; [| intros [= <-]; now right].
  intros H. left. revert H.
  repeat
    match goal with
    | |- rbind (Conv2d_init ?a ?b ?c ?d) _ = Err _ -> _ =>
        let E := fresh "E" in
        destruct (Conv2d_init a b c d) eqn:E; cbn [rbind];
        [| intros [= <-]; eapply Conv2d_init_err; eassumption]
    | |- rbind (mapM ?f ?l) _ = Err _ -> _ =>
        let E := fresh "E" in
        destruct (mapM f l) eqn:E; cbn [rbind];
        [| intros [= <-]; apply mapM_err in E; destruct E as (x & _ & E); revert E ]
    | |- rbind (if ?c then _ else _) _ = Err _ -> _ =>
        destruct c; cbn [rbind]; [| intros [= <-]; reflexivity]
    | |- rbind (Ok _) _ = Err _ -> _ => cbn [rbind]
    | |- Ok _ = Err _ -> _ => discriminate
    end.
Qed.

Lemma select_model_resnet hd nl :
  select_model "resnet" hd nl = (net <- ResNet_init 1 hd nl ;; Ok (NetResNet net)).
Proof. reflexivity. Qed.

Lemma select_model_unet hd nl :
  select_model "unet" hd nl = (net <- MiniUnet_init 1 hd nl ;; Ok (NetMiniUnet net)).
Proof. reflexivity. Qed.

Lemma select_model_unknown ty hd nl :
  ty <> "resnet"%string -> ty <> "unet"%string ->
  select_model ty hd nl = Err (unknown_model_type ty).
Proof.
  intros H1 H2. unfold select_model.
  destruct (String.eqb_spec ty "resnet"); [contradiction|].
  destruct (String.eqb_spec ty "unet"); [contradiction|]. reflexivity.
Qed.

Lemma select_model_known_err ty hd nl e :
  ty = "resnet"%string \/ ty = "unet"%string ->
  select_model ty hd nl = Err e -> e = TorchError \/ e = AssertionError.
Proof.
  intros [-> | ->].
  - rewrite select_model_resnet.
    destruct (ResNet_init 1 hd nl) eqn:E; simpl; [discriminate|].
    intros [= <-]. left. eapply ResNet_init_err; eassumption.
  - rewrite select_model_unet.
    destruct (MiniUnet_init 1 hd nl) eqn:E; simpl; [discriminate|].
    intros [= <-]. eapply MiniUnet_init_err; eassumption.
Qed.

(** An error of the constructor is one of the network's, or one of the
    tensor library's when there is no step to build a schedule from. *)
Lemma DDPM_init_err N ty hd nl e :
  DDPM_init N ty hd nl = Err e ->
  select_model ty hd nl = Err e \/ e = TorchError \/ e = IndexError.
Proof.
  destruct (Z_lt_le_dec N 1) as [Hlt|Hge].
  - unfold DDPM_init. destruct (select_model ty hd nl) as [net|e']; [| cbn [rbind]; intros [= <-]; left; reflexivity].
    cbn [rbind]. destruct (Z.leb_spec 0 N) as [H0|]; [| intros [= <-]; auto].
    replace N with 0%Z by lia. intros H. cbv in H. injection H as <-. auto.
  - rewrite DDPM_init_eq by exact Hge.
    destruct (select_model ty hd nl) as [net|e']; [discriminate | cbn [rbind]; intros [= <-]; left; reflexivity].
Qed.

Lemma DDPM_init_ok N ty hd nl net :
  (1 <= N)%Z -> select_model ty hd nl = Ok net ->
  exists m, DDPM_init N ty hd nl = Ok m /\ model m = net.
Proof.
  intros HN Hs. rewrite DDPM_init_eq by exact HN. rewrite Hs. cbn [rbind]. cbv zeta.
  eexists. split; reflexivity.
Qed.

Lemma DDPM_init_outcomes N ty hd nl :
  (DDPM_init N ty hd nl = Err (unknown_model_type ty)
   <-> ty <> "resnet"%string /\ ty <> "unet"%string)
  /\ (ty = "resnet"%string -> (1 <= N)%Z -> (0 <= hd)%Z ->
      exists m net, DDPM_init N ty hd nl = Ok m /\ model m = NetResNet net)
  /\ (ty = "unet"%string -> (1 <= N)%Z -> (0 <= hd)%Z -> (0 <= nl <= 2)%Z ->
      exists m net, DDPM_init N ty hd nl = Ok m /\ model m = NetMiniUnet net)
  /\ (ty = "unet"%string -> (2 < nl)%Z -> DDPM_init N ty hd nl = Err AssertionError).
Proof.
  repeat split.
  - intros -> . apply DDPM_init_err in H.
    destruct H as [H | [H | H]]; try discriminate H.
    apply select_model_known_err in H; [| now left].
    destruct H; discriminate.
  - intros -> . apply DDPM_init_err in H.
    destruct H as [H | [H | H]]; try discriminate H.
    apply select_model_known_err in H; [| now right].
    destruct H; discriminate.
  - intros [H1 H2]. unfold DDPM_init.
    now rewrite select_model_unknown.
  - intros -> HN Hh. destruct (ResNet_init_ok hd nl Hh) as [net E].
    destruct (DDPM_init_ok N "resnet" hd nl (NetResNet net) HN) as (m & Hm & Hnet).
    + rewrite select_model_resnet, E. reflexivity.
    + now exists m, net.
  - intros -> HN Hh Hl. destruct (MiniUnet_init_ok hd nl Hh Hl) as [net E].
    destruct (DDPM_init_ok N "unet" hd nl (NetMiniUnet net) HN) as (m & Hm & Hnet).
    + rewrite select_model_unet, E. reflexivity.
    + now exists m, net.
  - intros -> Hl. unfold DDPM_init.
    now rewrite select_model_unet, MiniUnet_init_too_deep.
Qed.

(** C9 fails for "unet" with three layers: the constructor raises,
    by the assertion of the U-net. *)
Lemma DDPM_init_unet_three_layers :
  DDPM_init 10 "unet" 16 3 = Err AssertionError
  /\ ~ (exists m, DDPM_init 10 "unet" 16 3 = Ok m).
Proof.
  assert (E : DDPM_init 10 "unet" 16 3 = Err AssertionError) by reflexivity.
  split; [exact E|]. intros [m H]. rewrite E in H. discriminate H.
Qed.

(** *** Reconstruction of the clean image *)

Lemma typecheck_ok a n b B C H W :
  shape a = [B; C; H; W] -> shape b = [B; C; H; W] -> length n = B ->
  Ddpm.typecheck a n b = true.
Proof.
  intros Ha Hb Hn. unfold Ddpm.typecheck, ndim. rewrite Ha, Hb, shape_eqb_refl.
  simpl. now rewrite Hn, Nat.eqb_refl.
Qed.

Lemma batch_broadcast_eq v n t B C H W :
  shape t = [B; C; H; W] ->
  batch_broadcast (mkTensor [n] v) t = Ok (mkTensor [length v; 1; 1; 1]%nat v).
Proof. intros St. unfold batch_broadcast, ndim. rewrite St. reflexivity. Qed.

Lemma mul_column_l v x B C H W :
  length v = B -> shape x = [B; C; H; W] -> wf x ->
  mul (mkTensor [B; 1; 1; 1]%nat v) x
  = Ok (mkTensor [B; C; H; W] (zip_with Rmult (per_sample v (numel [C; H; W])) (data x))).
Proof. intros. now apply (binop_column_l Rmult (mkTensor [B; 1; 1; 1]%nat v) x B [C; H; W]). Qed.

Lemma binop_column_r4 f v x B C H W :
  length v = B -> shape x = [B; C; H; W] -> wf x ->
  binop f x (mkTensor [B; 1; 1; 1]%nat v)
  = Ok (mkTensor [B; C; H; W] (zip_with f (data x) (per_sample v (numel [C; H; W])))).
Proof. intros. now apply (binop_column_r f (mkTensor [B; 1; 1; 1]%nat v) x B [C; H; W]). Qed.

Lemma in_range_index (len : nat) (N : Z) (n : LongTensor) :
  Z.of_nat len = N -> Forall (fun k => (0 <= k < N)%Z) n ->
  Forall (fun i => (- Z.of_nat len <= i < Z.of_nat len)%Z) n.
Proof. intros <-. apply Forall_impl. intros; lia. Qed.

Section EstimateX0.

Variables (N : Z) (ty : string) (hd nl : Z) (m : DDPM).
Hypothesis Hinit : DDPM_init N ty hd nl = Ok m.

Variables (z_n epsilon : Tensor) (n : LongTensor) (B C H W : nat).
Hypothesis Sz : shape z_n = [B; C; H; W].
Hypothesis Wz : wf z_n.
Hypothesis Se : shape epsilon = [B; C; H; W].
Hypothesis We : wf epsilon.
Hypothesis Ln : length n = B.
Hypothesis Hn : Forall (fun k => (0 <= k < N)%Z) n.

Lemma estimate_x0_eq :
  estimate_x0 m z_n n epsilon
  = Ok (mkTensor [B; C; H; W]
          (zip_with Rdiv
             (zip_with Rminus (data z_n)
                (zip_with Rmult
                   (per_sample
                      (map R_sqrt.sqrt
                         (map (fun x => 1 - x) (picks (data (alpha_bar m)) n)))
                      (numel [C; H; W]))
                   (data epsilon)))
             (per_sample (map R_sqrt.sqrt (picks (data (alpha_bar m)) n))
                (numel [C; H; W])))).
Proof.
  assert (Lz : length (data z_n) = (B * numel [C; H; W])%nat) by (rewrite Wz, Sz; reflexivity).
  assert (Le : length (data epsilon) = (B * numel [C; H; W])%nat) by (rewrite We, Se; reflexivity).
  pose proof (alpha_bar_length N ty hd nl m Hinit) as La.
  destruct (DDPM_init_inv _ _ _ _ _ Hinit) as (HN & _).
  unfold estimate_x0. rewrite (typecheck_ok z_n n epsilon B C H W) by assumption.
  rewrite index_in by (apply (in_range_index _ N); [lia | exact Hn]).
  cbn [rbind]. rewrite (batch_broadcast_eq _ _ z_n B C H W Sz), picks_length, Ln.
  cbn [rbind]. unfold Torch.sqrt, rsub, tmap. cbn [shape data].
  rewrite (mul_column_l _ epsilon B C H W) by (list_len; assumption).
  cbn [rbind]. unfold sub, div.
  rewrite (binop_same_shape Rminus z_n _ [B; C; H; W]);
    [| assumption | reflexivity | assumption | unfold wf; cbn [data shape]; list_len; simpl numel in *; lia].
  cbn [rbind data].
  rewrite (binop_column_r4 Rdiv _ _ B C H W);
    [| list_len; assumption | reflexivity | unfold wf; cbn [data shape]; list_len; simpl numel in *; lia].
  cbn [rbind data]. unfold typecheck_return. cbn [shape]. rewrite Sz, shape_eqb_refl.
  reflexivity.
Qed.

Lemma estimate_x0_entries :
  exists x0,
    estimate_x0 m z_n n epsilon = Ok x0 /\ shape x0 = [B; C; H; W] /\ wf x0 /\
    forall b c h w, (b < B)%nat -> (c < C)%nat -> (h < H)%nat -> (w < W)%nat ->
      let alpha_bar_n := at1 (alpha_bar m) (Z.to_nat (nth b n 0%Z)) in
      at4 x0 b c h w
      = (at4 z_n b c h w - R_sqrt.sqrt (1 - alpha_bar_n) * at4 epsilon b c h w)
        / R_sqrt.sqrt alpha_bar_n.
Proof.
  assert (Lz : length (data z_n) = (B * numel [C; H; W])%nat) by (rewrite Wz, Sz; reflexivity).
  assert (Le : length (data epsilon) = (B * numel [C; H; W])%nat) by (rewrite We, Se; reflexivity).
  eexists. split; [apply estimate_x0_eq|]. split; [reflexivity|]. split.
  { unfold wf. cbn [data shape]. list_len. simpl numel in *. lia. }
  intros b c h w Hb Hc Hh Hw alpha_bar_n.
  destruct (ravel4 B C H W b c h w Hb Hc Hh Hw) as [Hi Hq].
  unfold at4. cbn [shape data]. rewrite Sz, Se.
  set (i := (((b * C + c) * H + h) * W + w)%nat) in *.
  change (numel [B; C; H; W]) with (B * numel [C; H; W])%nat in Hi.
  rewrite nth_zip_column_r by (list_len; lia).
  rewrite zip_with_nth_lt by (list_len; lia).
  rewrite nth_zip_column_l by (list_len; lia).
  rewrite Hq. rewrite !nth_map0 by (list_len; lia).
  rewrite picks_nth by lia.
  rewrite norm_index_nonneg; [reflexivity|].
  rewrite Forall_forall in Hn. apply Hn, nth_In. lia.
Qed.

End EstimateX0.

(** *** The reverse step *)

Lemma forallb_nonneg_picks d n :
  (forall k, (k < length d)%nat -> 0 <= nth k d 0) ->
  Forall (fun i => (- Z.of_nat (length d) <= i < Z.of_nat (length d))%Z) n ->
  forallb nonneg (picks d n) = true.
Proof.
  intros Hd Hn. apply forallb_forall. intros x Hx.
  unfold picks in Hx. apply in_map_iff in Hx. destruct Hx as (i & <- & Hi).
  rewrite Forall_forall in Hn. specialize (Hn i Hi).
  unfold nonneg. destruct (Rle_dec 0 _) as [|Hneg]; [reflexivity|].
  exfalso. apply Hneg, Hd. now apply norm_index_lt.
Qed.

Lemma long_sub_length n c : length (long_sub n c) = length n.
Proof. unfold long_sub. apply length_map. Qed.

Lemma long_sub_nth n b :
  (b < length n)%nat -> (- 2 ^ 63 < nth b n 0 < 2 ^ 63)%Z ->
  nth b (long_sub n 1) 0%Z = (nth b n 0 - 1)%Z.
Proof.
  intros Hb Hk. unfold long_sub.
  rewrite (nth_indep _ 0%Z (wrap64 (0 - 1))) by (now rewrite length_map).
  rewrite (map_nth (fun k => wrap64 (k - 1))). apply wrap64_small. lia.
Qed.

Lemma long_sub_in_range len n :
  (1 <= len)%nat ->
  Forall (fun k => (0 <= k < Z.of_nat len)%Z) n ->
  Forall (fun k => (- 2 ^ 63 <= k < 2 ^ 63)%Z) n ->
  Forall (fun i => (- Z.of_nat len <= i < Z.of_nat len)%Z) (long_sub n 1).
Proof.
  intros Hlen Hn Hl. unfold long_sub. rewrite Forall_map.
  rewrite Forall_forall in *. intros k Hk.
  specialize (Hn k Hk). specialize (Hl k Hk).
  rewrite wrap64_small by lia. lia.
Qed.

Section ReverseStep.

Variables (N : Z) (ty : string) (hd nl : Z) (m : DDPM).
Hypothesis Hinit : DDPM_init N ty hd nl = Ok m.

Variables (x0 z_n : Tensor) (n : LongTensor) (g : rng) (B C H W : nat).
Hypothesis Sx : shape x0 = [B; C; H; W].
Hypothesis Wx : wf x0.
Hypothesis Sz : shape z_n = [B; C; H; W].
Hypothesis Wz : wf z_n.
Hypothesis Ln : length n = B.
Hypothesis Hn : Forall (fun k => (0 <= k < N)%Z) n.
Hypothesis Hlong : Forall (fun k => (- 2 ^ 63 <= k < 2 ^ 63)%Z) n.

Lemma sample_z_n_previous_eq :
  let prev := long_sub n 1 in
  let c1 := zip_with Rdiv
              (zip_with Rmult (map R_sqrt.sqrt (picks (data (alpha m)) n))
                 (map (fun x => 1 - x) (picks (data (alpha_bar m)) prev)))
              (map (fun x => 1 - x) (picks (data (alpha_bar m)) n)) in
  let c2 := zip_with Rdiv
              (zip_with Rmult (map R_sqrt.sqrt (picks (data (alpha_bar m)) prev))
                 (picks (data (beta m)) n))
              (map (fun x => 1 - x) (picks (data (alpha_bar m)) n)) in
  let k := numel [C; H; W] in
  let mu := zip_with Rplus (zip_with Rmult (data z_n) (per_sample c1 k))
                           (zip_with Rmult (data x0) (per_sample c2 k)) in
  sample_z_n_previous m x0 z_n n g
  = Ok (mkTensor [B; C; H; W]
          (zip_with Rplus mu
             (zip_with Rmult (per_sample (picks (data (beta_tilde m)) n) k)
                (data (fst (randn [B; C; H; W] g))))),
        snd (randn [B; C; H; W] g)).
Proof.
  intros prev c1 c2 k mu.
  assert (Lz : length (data z_n) = (B * k)%nat) by (rewrite Wz, Sz; reflexivity).
  assert (Lx : length (data x0) = (B * k)%nat) by (rewrite Wx, Sx; reflexivity).
  assert (Lprev : length prev = B) by (subst prev; now rewrite long_sub_length).
  pose proof (alpha_bar_length N ty hd nl m Hinit) as La.
  pose proof (alpha_length N ty hd nl m Hinit) as Lal.
  pose proof (beta_length N ty hd nl m Hinit) as Lb.
  pose proof (beta_tilde_length N ty hd nl m Hinit) as Lbt.
  destruct (DDPM_init_inv _ _ _ _ _ Hinit) as (HN & _).
  assert (Hprev : Forall (fun i => (- Z.of_nat (Z.to_nat N) <= i < Z.of_nat (Z.to_nat N))%Z) prev).
  { apply long_sub_in_range; [lia | | exact Hlong].
    revert Hn. apply Forall_impl. intros; lia. }
  assert (Hn' : Forall (fun i => (- Z.of_nat (Z.to_nat N) <= i < Z.of_nat (Z.to_nat N))%Z) n)
    by (apply (in_range_index _ N); [lia | exact Hn]).
  assert (Lc1 : length c1 = B) by (subst c1; list_len; lia).
  assert (Lc2 : length c2 = B) by (subst c2; list_len; lia).
  unfold sample_z_n_previous. rewrite (typecheck_ok x0 n z_n B C H W) by assumption.
  fold prev.
  rewrite !index_in by (rewrite ?La, ?Lal, ?Lb, ?Lbt; assumption).
  cbn [rbind]. unfold Torch.sqrt, rsub, tmap, mul, div. cbn [shape data rbind].
  rewrite Ln, Lprev.
  rewrite (binop_same_shape Rmult _ _ [B]);
    [| reflexivity | reflexivity | apply wf_vector; list_len; lia | apply wf_vector; list_len; lia].
  cbn [rbind data].
  rewrite (binop_same_shape Rdiv _ _ [B]);
    [| reflexivity | reflexivity | apply wf_vector; list_len; lia | apply wf_vector; list_len; lia].
  cbn [rbind data]. fold c1.
  rewrite (batch_broadcast_eq _ _ z_n B C H W Sz), Lc1. cbn [rbind].
  rewrite (binop_column_r4 Rmult _ z_n B C H W) by assumption.
  cbn [rbind].
  rewrite (binop_same_shape Rmult _ _ [B]);
    [| reflexivity | reflexivity | apply wf_vector; list_len; lia | apply wf_vector; list_len; lia].
  cbn [rbind data].
  rewrite (binop_same_shape Rdiv _ _ [B]);
    [| reflexivity | reflexivity | apply wf_vector; list_len; lia | apply wf_vector; list_len; lia].
  cbn [rbind data]. fold c2.
  rewrite (batch_broadcast_eq _ _ x0 B C H W Sx), Lc2. cbn [rbind].
  rewrite (binop_column_r4 Rmult _ x0 B C H W) by assumption.
  cbn [rbind]. unfold iadd, add.
  rewrite (binop_same_shape Rplus _ _ [B; C; H; W]);
    [| reflexivity | reflexivity
     | unfold wf; cbn [data shape]; list_len; fold k;
       change (numel [B; C; H; W]) with (B * k)%nat; lia
     | unfold wf; cbn [data shape]; list_len; fold k;
       change (numel [B; C; H; W]) with (B * k)%nat; lia].
  cbn [rbind shape data]. rewrite shape_eqb_refl. fold k. fold mu.
  rewrite (batch_broadcast_eq _ _ z_n B C H W Sz), picks_length, Ln. cbn [rbind].
  unfold normal. cbn [data shape].
  rewrite forallb_nonneg_picks;
    [| intros j Hj; apply (beta_tilde_nonneg N ty hd nl m Hinit); lia
     | rewrite Lbt; exact Hn'].
  change [B; 1; 1; 1]%nat with (B :: repeat 1%nat (length [C; H; W])).
  rewrite broadcast_shapes_column_r.
  unfold randn. unfold mul, add.
  rewrite (binop_column_l Rmult _ _ B [C; H; W]);
    [| reflexivity | reflexivity | cbn [data]; list_len; lia
     | unfold wf; cbn [data shape]; list_len; reflexivity].
  cbn [rbind data].
  rewrite (binop_same_shape Rplus _ _ [B; C; H; W]);
    [| reflexivity | reflexivity
     | unfold wf; cbn [data shape]; subst mu; list_len; fold k;
       change (numel [B; C; H; W]) with (B * k)%nat; lia
     | unfold wf; cbn [data shape]; list_len; fold k;
       change (numel [B; C; H; W]) with (B * k)%nat; lia].
  cbn [rbind data]. unfold typecheck_return. cbn [shape]. rewrite Sz, shape_eqb_refl.
  reflexivity.
Qed.

Lemma randn_length s' : length (data (fst (randn s' g))) = numel s'.
Proof. unfold randn. cbn [fst data]. now list_len. Qed.

Lemma sample_z_n_previous_entries :
  exists z,
    sample_z_n_previous m x0 z_n n g = Ok (z, snd (randn [B; C; H; W] g))
    /\ shape z = [B; C; H; W] /\ wf z /\
    forall b c h w, (b < B)%nat -> (c < C)%nat -> (h < H)%nat -> (w < W)%nat ->
      let k := Z.to_nat (nth b n 0%Z) in
      let p := norm_index (Z.to_nat N) (nth b n 0%Z - 1) in
      let xi := at4 (fst (randn [B; C; H; W] g)) b c h w in
      at4 z b c h w
      = at4 z_n b c h w * R_sqrt.sqrt (at1 (alpha m) k) * (1 - at1 (alpha_bar m) p)
          / (1 - at1 (alpha_bar m) k)
        + at4 x0 b c h w * R_sqrt.sqrt (at1 (alpha_bar m) p) * at1 (beta m) k
          / (1 - at1 (alpha_bar m) k)
        + at1 (beta_tilde m) k * xi.
Proof.
  assert (Lz : length (data z_n) = (B * numel [C; H; W])%nat) by (rewrite Wz, Sz; reflexivity).
  assert (Lx : length (data x0) = (B * numel [C; H; W])%nat) by (rewrite Wx, Sx; reflexivity).
  pose proof (randn_length [B; C; H; W]) as Lr.
  change (numel [B; C; H; W]) with (B * numel [C; H; W])%nat in Lr.
  pose proof (alpha_bar_length N ty hd nl m Hinit) as La.
  pose proof (alpha_length N ty hd nl m Hinit) as Lal.
  pose proof (beta_length N ty hd nl m Hinit) as Lb.
  pose proof (beta_tilde_length N ty hd nl m Hinit) as Lbt.
  eexists. split; [apply sample_z_n_previous_eq|]. split; [reflexivity|]. split.
  { unfold wf. cbn [data shape]. list_len. rewrite long_sub_length.
    change (numel [B; C; H; W]) with (B * numel [C; H; W])%nat. lia. }
  intros b c h w Hb Hc Hh Hw k p xi.
  destruct (ravel4 B C H W b c h w Hb Hc Hh Hw) as [Hi Hq].
  assert (Hk : (0 <= nth b n 0 < N)%Z)
    by (rewrite Forall_forall in Hn; apply Hn, nth_In; lia).
  assert (Hl : (- 2 ^ 63 <= nth b n 0 < 2 ^ 63)%Z)
    by (rewrite Forall_forall in Hlong; apply Hlong, nth_In; lia).
  subst xi. unfold at4. cbn [shape data]. rewrite Sz, Sx.
  set (i := (((b * C + c) * H + h) * W + w)%nat) in *.
  change (numel [B; C; H; W]) with (B * numel [C; H; W])%nat in Hi.
  rewrite zip_with_nth_lt by (list_len; rewrite ?long_sub_length; lia).
  rewrite zip_with_nth_lt by (list_len; rewrite ?long_sub_length; lia).
  rewrite !nth_zip_column_r by (list_len; rewrite ?long_sub_length; lia).
  rewrite nth_zip_column_l by (list_len; rewrite ?long_sub_length; lia).
  rewrite Hq.
  rewrite !zip_with_nth_lt by (list_len; rewrite ?long_sub_length; lia).
  rewrite !nth_map0 by (list_len; rewrite ?long_sub_length; lia).
  rewrite !picks_nth by (rewrite ?long_sub_length; lia).
  rewrite long_sub_nth by lia.
  rewrite La, Lal, Lb, Lbt.
  rewrite (norm_index_nonneg _ (nth b n 0%Z)) by lia.
  fold k. fold p. unfold at1, Rdiv. cbn [randn fst shape data]. fold i. ring.
Qed.

End ReverseStep.

(** *** The forward noising map *)

Section Forward.

Variables (N : Z) (ty : string) (hd nl : Z) (m : DDPM).
Hypothesis Hinit : DDPM_init N ty hd nl = Ok m.

Variables (x0 epsilon : Tensor) (n : LongTensor) (B C H W : nat).
Hypothesis Sx : shape x0 = [B; C; H; W].
Hypothesis Wx : wf x0.
Hypothesis Se : shape epsilon = [B; C; H; W].
Hypothesis We : wf epsilon.
Hypothesis Ln : length n = B.
Hypothesis Hn : Forall (fun k => (0 <= k < N)%Z) n.

Lemma noisy_sample_eq :
  noisy_sample m x0 n epsilon
  = Ok (mkTensor [B; C; H; W]
          (zip_with Rplus
             (zip_with Rmult
                (per_sample (picks (data (alpha_bar m)) n) (numel [C; H; W]))
                (data x0))
             (zip_with Rmult
                (per_sample
                   (map R_sqrt.sqrt
                      (map (fun x => 1 - x) (picks (data (alpha_bar m)) n)))
                   (numel [C; H; W]))
                (data epsilon)))).
Proof.
  assert (Lx : length (data x0) = (B * numel [C; H; W])%nat) by (rewrite Wx, Sx; reflexivity).
  assert (Le : length (data epsilon) = (B * numel [C; H; W])%nat) by (rewrite We, Se; reflexivity).
  pose proof (alpha_bar_length N ty hd nl m Hinit) as La.
  destruct (DDPM_init_inv _ _ _ _ _ Hinit) as (HN & _).
  unfold noisy_sample.
  rewrite index_in by (apply (in_range_index _ N); [lia | exact Hn]).
  cbn [rbind]. rewrite (batch_broadcast_eq _ _ x0 B C H W Sx), picks_length, Ln.
  cbn [rbind].
  rewrite (mul_column_l _ x0 B C H W) by (list_len; assumption).
  cbn [rbind]. unfold Torch.sqrt, rsub, tmap. cbn [shape data].
  rewrite (batch_broadcast_eq _ _ epsilon B C H W Se). list_len. rewrite Ln.
  cbn [rbind].
  rewrite (mul_column_l _ epsilon B C H W) by (list_len; assumption).
  cbn [rbind]. unfold iadd, add.
  rewrite (binop_same_shape Rplus _ _ [B; C; H; W]);
    [| reflexivity | reflexivity
     | unfold wf; cbn [data shape]; list_len;
       change (numel [B; C; H; W]) with (B * numel [C; H; W])%nat; lia
     | unfold wf; cbn [data shape]; list_len;
       change (numel [B; C; H; W]) with (B * numel [C; H; W])%nat; lia].
  cbn [rbind shape data]. now rewrite shape_eqb_refl.
Qed.

(** The noisy sample that the loss is computed from. *)
Lemma noisy_sample_entries :
  exists z_n,
    noisy_sample m x0 n epsilon = Ok z_n /\ shape z_n = [B; C; H; W] /\ wf z_n /\
    forall b c h w, (b < B)%nat -> (c < C)%nat -> (h < H)%nat -> (w < W)%nat ->
      let alpha_bar_n := at1 (alpha_bar m) (Z.to_nat (nth b n 0%Z)) in
      at4 z_n b c h w
      = alpha_bar_n * at4 x0 b c h w
        + R_sqrt.sqrt (1 - alpha_bar_n) * at4 epsilon b c h w.
Proof.
  assert (Lx : length (data x0) = (B * numel [C; H; W])%nat) by (rewrite Wx, Sx; reflexivity).
  assert (Le : length (data epsilon) = (B * numel [C; H; W])%nat) by (rewrite We, Se; reflexivity).
  eexists. split; [apply noisy_sample_eq|]. split; [reflexivity|]. split.
  { unfold wf. cbn [data shape]. list_len.
    change (numel [B; C; H; W]) with (B * numel [C; H; W])%nat. lia. }
  intros b c h w Hb Hc Hh Hw alpha_bar_n.
  destruct (ravel4 B C H W b c h w Hb Hc Hh Hw) as [Hi Hq].
  unfold at4. cbn [shape data]. rewrite Sx, Se.
  set (i := (((b * C + c) * H + h) * W + w)%nat) in *.
  change (numel [B; C; H; W]) with (B * numel [C; H; W])%nat in Hi.
  rewrite zip_with_nth_lt by (list_len; lia).
  rewrite !nth_zip_column_l by (list_len; lia).
  rewrite Hq. rewrite !nth_map0 by (list_len; lia).
  rewrite picks_nth by lia.
  rewrite norm_index_nonneg; [reflexivity|].
  rewrite Forall_forall in Hn. apply Hn, nth_In. lia.
Qed.

(** Reconstruction from the noisy sample and the noise that made it. *)
Lemma estimate_x0_noisy_sample :
  exists z_n x,
    noisy_sample m x0 n epsilon = Ok z_n /\ estimate_x0 m z_n n epsilon = Ok x /\
    forall b c h w, (b < B)%nat -> (c < C)%nat -> (h < H)%nat -> (w < W)%nat ->
      let alpha_bar_n := at1 (alpha_bar m) (Z.to_nat (nth b n 0%Z)) in
      at4 x b c h w = R_sqrt.sqrt alpha_bar_n * at4 x0 b c h w.
Proof.
  destruct noisy_sample_entries as (z_n & Ez & Sz & Wz & Fz).
  destruct (estimate_x0_entries N ty hd nl m Hinit z_n epsilon n B C H W Sz Wz Se We Ln Hn)
    as (x & Ex & _ & _ & Fx).
  exists z_n, x. split; [exact Ez|]. split; [exact Ex|].
  intros b c h w Hb Hc Hh Hw alpha_bar_n.
  rewrite (Fx b c h w Hb Hc Hh Hw), (Fz b c h w Hb Hc Hh Hw). fold alpha_bar_n.
  assert (Hk : (0 <= nth b n 0 < N)%Z)
    by (rewrite Forall_forall in Hn; apply Hn, nth_In; lia).
  assert (Ha : 0 < alpha_bar_n < 1)
    by (apply (alpha_bar_range N ty hd nl m Hinit); lia).
  assert (Hs : 0 < R_sqrt.sqrt alpha_bar_n) by (apply sqrt_lt_R0; lra).
  pose proof (sqrt_def alpha_bar_n ltac:(lra)) as Hd.
  field_simplify_eq; [| lra]. rewrite <- Hd at 1. ring.
Qed.

End Forward.

(** *** The reverse step at noise level zero *)

Section ZeroLevel.

Variables (N : Z) (ty : string) (hd nl : Z) (m : DDPM).
Hypothesis Hinit : DDPM_init N ty hd nl = Ok m.

Variables (x0 z_n : Tensor) (n : LongTensor) (g : rng) (B C H W : nat).
Hypothesis Sx : shape x0 = [B; C; H; W].
Hypothesis Wx : wf x0.
Hypothesis Sz : shape z_n = [B; C; H; W].
Hypothesis Wz : wf z_n.
Hypothesis Ln : length n = B.
Hypothesis Hn : Forall (fun k => (0 <= k < N)%Z) n.
Hypothesis Hlong : Forall (fun k => (- 2 ^ 63 <= k < 2 ^ 63)%Z) n.

Lemma index_previous_at_zero b :
  (b < B)%nat -> nth b n 0%Z = 0%Z ->
  exists prev,
    index (alpha_bar m) (long_sub n 1) = Ok prev
    /\ nth b (long_sub n 1) 0%Z = (-1)%Z
    /\ at1 prev b = at1 (alpha_bar m) (Z.to_nat (N - 1)).
Proof.
  intros Hb H0.
  pose proof (alpha_bar_length N ty hd nl m Hinit) as La.
  destruct (DDPM_init_inv _ _ _ _ _ Hinit) as (HN & _).
  assert (Hp : nth b (long_sub n 1) 0%Z = (-1)%Z)
    by (rewrite long_sub_nth by (rewrite ?H0; lia); rewrite H0; reflexivity).
  eexists. split; [| split; [exact Hp|]].
  - apply index_in. rewrite La. apply long_sub_in_range; [lia | | exact Hlong].
    revert Hn. apply Forall_impl. intros; lia.
  - unfold at1 at 1. cbn [data].
    rewrite picks_nth by (rewrite long_sub_length; lia).
    rewrite Hp, La. unfold at1. f_equal.
    unfold norm_index. change (0 <=? -1)%Z with false. cbv iota. lia.
Qed.

Lemma sample_z_n_previous_zero_entries b :
  (b < B)%nat -> nth b n 0%Z = 0%Z ->
  exists z g',
    sample_z_n_previous m x0 z_n n g = Ok (z, g') /\
    forall c h w, (c < C)%nat -> (h < H)%nat -> (w < W)%nat ->
      let last := Z.to_nat (N - 1) in
      let xi := at4 (fst (randn [B; C; H; W] g)) b c h w in
      at4 z b c h w
      = at4 z_n b c h w * R_sqrt.sqrt (at1 (alpha m) 0) * (1 - at1 (alpha_bar m) last)
          / (1 - at1 (alpha_bar m) 0)
        + at4 x0 b c h w * R_sqrt.sqrt (at1 (alpha_bar m) last) * at1 (beta m) 0
          / (1 - at1 (alpha_bar m) 0)
        + at1 (beta_tilde m) 0 * xi.
Proof.
  intros Hb H0.
  destruct (DDPM_init_inv _ _ _ _ _ Hinit) as (HN & _).
  destruct (sample_z_n_previous_entries N ty hd nl m Hinit x0 z_n n g B C H W
              Sx Wx Sz Wz Ln Hn Hlong) as (z & Ez & _ & _ & Fz).
  exists z, (snd (randn [B; C; H; W] g)). split; [exact Ez|].
  intros c h w Hc Hh Hw last xi.
  rewrite (Fz b c h w Hb Hc Hh Hw). cbv zeta. rewrite H0.
  replace (norm_index (Z.to_nat N) (0 - 1)) with last
    by (unfold norm_index, last; change (0 <=? 0 - 1)%Z with false; cbv iota; lia).
  reflexivity.
Qed.

End ZeroLevel.

(** *** The sampling loop *)

Section Sampling.

Variable forward : Network -> Tensor -> Tensor -> result Tensor.

Variables (N : Z) (ty : string) (hd nl : Z) (m : DDPM).
Hypothesis Hinit : DDPM_init N ty hd nl = Ok m.
Hypothesis Hbits : (N < 2 ^ 63)%Z.

Variable B : nat.

Let image_shape : list nat := [B; 1; 28; 28]%nat.

(** The network maps a batch of images and a noise level per image to
    a batch of images of the same shape. *)
Hypothesis forward_ok :
  forall z t, shape z = image_shape -> wf z -> shape t = [B] -> wf t ->
    exists e, forward (model m) z t = Ok e /\ shape e = image_shape /\ wf e.

Lemma rev_range_S k :
  rev (range (Z.of_nat (S k))) = Z.of_nat k :: rev (range (Z.of_nat k)).
Proof.
  unfold range. rewrite !Nat2Z.id, seq_S, map_app, rev_app_distr. reflexivity.
Qed.

Lemma sample_loop_refines k z x0 g :
  sample_loop forward m B (rev (range (Z.of_nat (S k)))) z x0 g
  = ('(x, g') <- Spec.denoise_from forward m B k z g ;; Ok (Some x, g')).
Proof.
  revert z x0 g. induction k as [|k IH]; intros z x0 g.
  - rewrite rev_range_S. cbn [sample_loop Spec.denoise_from].
    destruct (forward (model m) z _) as [e|]; [|reflexivity]. cbn [rbind].
    destruct (estimate_x0 m z _ e) as [x|]; reflexivity.
  - rewrite rev_range_S. cbn [sample_loop Spec.denoise_from].
    destruct (forward (model m) z _) as [e|]; [|reflexivity]. cbn [rbind].
    destruct (estimate_x0 m z _ e) as [x|]; [|reflexivity]. cbn [rbind].
    destruct (Z.eqb_spec (Z.of_nat (S k)) 0) as [E|_]; [lia|].
    destruct (sample_z_n_previous m x z _ g) as [[z' g']|]; [|reflexivity].
    cbn [rbind]. apply IH.
Qed.

Lemma long_full_length k v : length (long_full k v) = k.
Proof. apply repeat_length. Qed.

Lemma long_full_all (P : Z -> Prop) k v : P v -> Forall P (long_full k v).
Proof. intros H. unfold long_full. apply Forall_forall. intros x Hx. now apply repeat_spec in Hx as ->. Qed.

Lemma denoise_from_ok k z g :
  (Z.of_nat k < N)%Z -> shape z = image_shape -> wf z ->
  exists x g', Spec.denoise_from forward m B k z g = Ok (x, g')
               /\ shape x = image_shape /\ wf x.
Proof.
  revert z g. induction k as [|k IH]; intros z g Hk Sz Wz.
  - cbn [Spec.denoise_from].
    destruct (forward_ok z (full B (IZR (Z.of_nat 0) / IZR (Ddpm.N m))) Sz Wz eq_refl)
      as (e & -> & Se & We); [apply wf_vector, repeat_length|].
    cbn [rbind].
    destruct (estimate_x0_entries N ty hd nl m Hinit z e (long_full B (Z.of_nat 0))
                B 1 28 28 Sz Wz Se We (long_full_length _ _))
      as (x & -> & Sx & Wx & _); [apply long_full_all; lia|].
    cbn [rbind]. now exists x, g.
  - cbn [Spec.denoise_from].
    destruct (forward_ok z (full B (IZR (Z.of_nat (S k)) / IZR (Ddpm.N m))) Sz Wz eq_refl)
      as (e & -> & Se & We); [apply wf_vector, repeat_length|].
    cbn [rbind].
    destruct (estimate_x0_entries N ty hd nl m Hinit z e (long_full B (Z.of_nat (S k)))
                B 1 28 28 Sz Wz Se We (long_full_length _ _))
      as (x & -> & Sx & Wx & _); [apply long_full_all; lia|].
    cbn [rbind].
    destruct (sample_z_n_previous_entries N ty hd nl m Hinit x z
                (long_full B (Z.of_nat (S k))) g B 1 28 28 Sx Wx Sz Wz
                (long_full_length _ _))
      as (z' & -> & Sz' & Wz' & _);
      [apply long_full_all; lia | apply long_full_all; lia |].
    cbn [rbind]. apply IH; [lia | exact Sz' | exact Wz'].
Qed.

Lemma sample_refines g :
  sample forward m (Z.of_nat B) g
  = Spec.denoise_from forward m B (Z.to_nat (N - 1))
      (fst (randn image_shape g)) (snd (randn image_shape g)).
Proof.
  destruct (DDPM_init_inv _ _ _ _ _ Hinit) as (HN & EN & _).
  unfold sample. destruct (Z.leb_spec 0 (Z.of_nat B)); [|lia].
  rewrite Nat2Z.id, EN. fold image_shape. unfold randn at 1. cbv zeta.
  replace N with (Z.of_nat (S (Z.to_nat (N - 1)))) at 1 by lia.
  rewrite sample_loop_refines. unfold randn. cbn [fst snd].
  destruct (Spec.denoise_from forward m B (Z.to_nat (N - 1)) _ _) as [[x g']|];
    reflexivity.
Qed.

Lemma sample_ok g :
  exists x0 g', sample forward m (Z.of_nat B) g = Ok (x0, g')
                /\ shape x0 = image_shape /\ wf x0.
Proof.
  destruct (DDPM_init_inv _ _ _ _ _ Hinit) as (HN & _).
  rewrite sample_refines. apply denoise_from_ok.
  - lia.
  - reflexivity.
  - unfold wf, randn. cbn [fst data shape]. now list_len.
Qed.

End Sampling.

(** *** The two-step model *)

Import Examples.

Section ScheduleMore.

Variables (N : Z) (ty : string) (hd nl : Z) (m : DDPM).
Hypothesis Hinit : DDPM_init N ty hd nl = Ok m.

Lemma beta_tilde_range n :
  (0 < n < Z.to_nat N)%nat -> 0 < at1 (beta_tilde m) n < 1.
Proof.
  intros Hn. rewrite (beta_tilde_at N ty hd nl m Hinit) by exact Hn.
  destruct n as [|k]; [lia|]. replace (S k - 1)%nat with k by lia.
  pose proof (beta_range N ty hd nl m Hinit (S k) ltac:(lia)) as Hb.
  unfold beta_start, beta_end in Hb.
  pose proof (alpha_bar_range N ty hd nl m Hinit k ltac:(lia)) as H1.
  pose proof (alpha_bar_range N ty hd nl m Hinit (S k) ltac:(lia)) as H2.
  pose proof (alpha_bar_decreasing N ty hd nl m Hinit k ltac:(lia)) as H3.
  set (a := at1 (alpha_bar m) k) in *. set (a' := at1 (alpha_bar m) (S k)) in *.
  set (b := at1 (beta m) (S k)) in *.
  assert (Hq : 0 < (1 - a) / (1 - a') < 1).
  { split.
    - apply Rdiv_lt_0_compat; lra.
    - apply (Rmult_lt_reg_r (1 - a')); [lra|]. unfold Rdiv.
      rewrite Rmult_assoc, Rinv_l by lra. lra. }
  nra.
Qed.

End ScheduleMore.

Lemma sqrt_neq_self a : 0 < a < 1 -> a <> R_sqrt.sqrt a.
Proof.
  intros Ha E. pose proof (sqrt_def a ltac:(lra)) as Hd.
  rewrite <- E in Hd. nra.
Qed.

Lemma sqrt_neq_one a : 0 < a < 1 -> R_sqrt.sqrt a <> 1.
Proof.
  intros Ha E. pose proof (sqrt_def a ltac:(lra)) as Hd.
  rewrite E in Hd. lra.
Qed.

Lemma two_steps_ok : DDPM_init 2 "resnet" 4 1 = Ok two_steps.
Proof.
  destruct (ResNet_init_ok 4 1 ltac:(lia)) as [net E].
  destruct (DDPM_init_ok 2 "resnet" 4 1 (NetResNet net) ltac:(lia)) as (m & Hm & _).
  - rewrite select_model_resnet, E. reflexivity.
  - unfold two_steps. now rewrite Hm.
Qed.

Lemma two_steps_alpha_bar_0 : at1 (alpha_bar two_steps) 0 = 1 - 1e-4.
Proof.
  rewrite (alpha_bar_first _ _ _ _ _ two_steps_ok).
  rewrite (alpha_at _ _ _ _ _ two_steps_ok) by (simpl; lia).
  destruct (DDPM_init_inv _ _ _ _ _ two_steps_ok) as (_ & _ & _ & _ & -> & _).
  rewrite linspace_at by (simpl; lia). unfold beta_start. simpl INR. lra.
Qed.

Lemma pixel_shape v : shape (pixel v) = [1; 1; 1; 1]%nat.
Proof. reflexivity. Qed.

Lemma pixel_wf v : wf (pixel v).
Proof. reflexivity. Qed.

Lemma pixel_at v : at4 (pixel v) 0 0 0 0 = v.
Proof. reflexivity. Qed.

(** C2, on the two-step model, for the one-pixel image 1, the noise
    level 0 and the noise 0.  The claim has
    [z_n = sqrt(alpha_bar[n]) * x0 + sqrt(1 - alpha_bar[n]) * epsilon];
    [simplified_loss] multiplies [x0] by [alpha_bar[n]] itself, so that
    its [z_n] is 0.9999 where the claim has the square root of 0.9999. *)
Theorem noisy_sample_scales_by_alpha_bar :
  exists z_n,
    noisy_sample two_steps (pixel 1) [0%Z] (pixel 0) = Ok z_n
    /\ at4 z_n 0 0 0 0 = 1 - 1e-4
    /\ at4 z_n 0 0 0 0
       <> R_sqrt.sqrt (at1 (alpha_bar two_steps) 0) * at4 (pixel 1) 0 0 0 0
          + R_sqrt.sqrt (1 - at1 (alpha_bar two_steps) 0) * at4 (pixel 0) 0 0 0 0.
Proof.
  destruct (noisy_sample_entries 2 "resnet" 4 1 two_steps two_steps_ok
              (pixel 1) (pixel 0) [0%Z] 1 1 1 1
              (pixel_shape 1) (pixel_wf 1) (pixel_shape 0) (pixel_wf 0) eq_refl)
    as (z & Ez & _ & _ & Fz).
  { repeat constructor; lia. }
  specialize (Fz 0 0 0 0 ltac:(lia) ltac:(lia) ltac:(lia) ltac:(lia))%nat.
  cbv zeta in Fz. simpl nth in Fz. simpl Z.to_nat in Fz.
  rewrite !pixel_at, two_steps_alpha_bar_0 in Fz.
  exists z. split; [exact Ez|]. split; [rewrite Fz; lra|].
  rewrite Fz, !pixel_at, two_steps_alpha_bar_0.
  pose proof (sqrt_neq_self (1 - 1e-4) ltac:(lra)). lra.
Qed.

(** C1, on the two-step model, for the one-pixel image 1, the noise
    level 0 and the noise 0.  [estimate_x0], given the [z_n] that
    [simplified_loss] forms and the noise that went into it, returns the
    square root of 0.9999 and not the clean image 1: it divides by
    [sqrt(alpha_bar[n])] what was multiplied by [alpha_bar[n]]. *)
Theorem estimate_x0_misses_clean_image :
  exists z_n x,
    noisy_sample two_steps (pixel 1) [0%Z] (pixel 0) = Ok z_n
    /\ estimate_x0 two_steps z_n [0%Z] (pixel 0) = Ok x
    /\ at4 x 0 0 0 0 = R_sqrt.sqrt (1 - 1e-4)
    /\ at4 x 0 0 0 0 <> at4 (pixel 1) 0 0 0 0.
Proof.
  destruct (estimate_x0_noisy_sample 2 "resnet" 4 1 two_steps two_steps_ok
              (pixel 1) (pixel 0) [0%Z] 1 1 1 1
              (pixel_shape 1) (pixel_wf 1) (pixel_shape 0) (pixel_wf 0) eq_refl)
    as (z & x & Ez & Ex & Fx).
  { repeat constructor; lia. }
  specialize (Fx 0 0 0 0 ltac:(lia) ltac:(lia) ltac:(lia) ltac:(lia))%nat.
  cbv zeta in Fx. simpl nth in Fx. simpl Z.to_nat in Fx.
  rewrite !pixel_at, two_steps_alpha_bar_0 in Fx.
  exists z, x. split; [exact Ez|]. split; [exact Ex|].
  split; [rewrite Fx; lra|].
  rewrite Fx, pixel_at, Rmult_1_r. apply sqrt_neq_one. lra.
Qed.

(** C4, on the two-step model at noise level 1, with [x0] and [z_n]
    the one-pixel image 0 and a unit-normal draw of 1.  The mean [mu] is
    the one of the claim, but the draw is [mu + beta_tilde[n] * xi]:
    [beta_tilde[n]] is handed to the generator as the standard
    deviation, where a variance of [beta_tilde[n]] asks for its square
    root. *)
Theorem sample_z_n_previous_deviation :
  exists z g',
    sample_z_n_previous two_steps (pixel 0) (pixel 0) [1%Z] all_ones = Ok (z, g')
    /\ let mu := at4 (pixel 0) 0 0 0 0 * R_sqrt.sqrt (at1 (alpha two_steps) 1)
                   * (1 - at1 (alpha_bar two_steps) 0) / (1 - at1 (alpha_bar two_steps) 1)
                 + at4 (pixel 0) 0 0 0 0 * R_sqrt.sqrt (at1 (alpha_bar two_steps) 0)
                   * at1 (beta two_steps) 1 / (1 - at1 (alpha_bar two_steps) 1) in
       let xi := all_ones 0%nat in
       at4 z 0 0 0 0 = mu + at1 (beta_tilde two_steps) 1 * xi
       /\ at4 z 0 0 0 0 <> mu + R_sqrt.sqrt (at1 (beta_tilde two_steps) 1) * xi.
Proof.
  destruct (sample_z_n_previous_entries 2 "resnet" 4 1 two_steps two_steps_ok
              (pixel 0) (pixel 0) [1%Z] all_ones 1 1 1 1
              (pixel_shape 0) (pixel_wf 0) (pixel_shape 0) (pixel_wf 0) eq_refl)
    as (z & Ez & _ & _ & Fz).
  { repeat constructor; lia. }
  { repeat constructor; lia. }
  specialize (Fz 0 0 0 0 ltac:(lia) ltac:(lia) ltac:(lia) ltac:(lia))%nat.
  cbv zeta in Fz. simpl nth in Fz.
  change (norm_index (Z.to_nat 2) (1 - 1)) with 0%nat in Fz.
  change (Z.to_nat 1) with 1%nat in Fz.
  change (at4 (fst (randn [1; 1; 1; 1]%nat all_ones)) 0 0 0 0) with (all_ones 0%nat) in Fz.
  eexists z, _. split; [exact Ez|]. cbv zeta. split; [exact Fz|].
  rewrite Fz. unfold all_ones.
  pose proof (beta_tilde_range 2 "resnet" 4 1 two_steps two_steps_ok 1 ltac:(simpl; lia)) as Hb.
  pose proof (sqrt_neq_self _ Hb). lra.
Qed.

(** *** The statements of the specification *)

(** C5. For every [N >= 1] the schedule that the constructor builds has
    [beta_tilde[0] = beta[0]] and, for [0 < n < N],
    [beta_tilde[n] = beta[n] * (1 - alpha_bar[n-1]) / (1 - alpha_bar[n])],
    where [alpha = 1 - beta] and [alpha_bar] is the cumulative product of
    [alpha].  The constructor returns whenever the network it is asked
    for can be built.  Each of the four buffers is a vector of [N]
    entries, [beta] is the one at equal distances from [1e-4] to [2e-2],
    and the divisor [1 - alpha_bar[n]] lies strictly between 0 and 1, so
    that the quotient is one of real numbers and every [beta_tilde[n]]
    is positive. *)
Theorem beta_tilde_schedule N ty hd nl net :
  (1 <= N)%Z -> select_model ty hd nl = Ok net ->
  exists m,
    DDPM_init N ty hd nl = Ok m
    /\ (shape (beta m) = [Z.to_nat N] /\ wf (beta m))
    /\ (shape (alpha m) = [Z.to_nat N] /\ wf (alpha m))
    /\ (shape (alpha_bar m) = [Z.to_nat N] /\ wf (alpha_bar m))
    /\ (shape (beta_tilde m) = [Z.to_nat N] /\ wf (beta_tilde m))
    /\ at1 (beta_tilde m) 0 = at1 (beta m) 0
    /\ (forall n, (0 < n < Z.to_nat N)%nat ->
          at1 (beta_tilde m) n
          = at1 (beta m) n * (1 - at1 (alpha_bar m) (n - 1)) / (1 - at1 (alpha_bar m) n))
    /\ (forall n, (n < Z.to_nat N)%nat -> at1 (alpha m) n = 1 - at1 (beta m) n)
    /\ at1 (alpha_bar m) 0 = at1 (alpha m) 0
    /\ (forall n, (S n < Z.to_nat N)%nat ->
          at1 (alpha_bar m) (S n) = at1 (alpha_bar m) n * at1 (alpha m) (S n))
    /\ (forall n, (n < Z.to_nat N)%nat ->
          at1 (beta m) n = 1e-4 + INR n * ((2e-2 - 1e-4) / INR (Z.to_nat N - 1))
          /\ 0 < 1 - at1 (alpha_bar m) n < 1
          /\ 0 < at1 (beta_tilde m) n).
Proof.
  intros HN Hs. destruct (DDPM_init_ok N ty hd nl net HN Hs) as (m & Hm & _).
  exists m. split; [exact Hm|].
  destruct (schedule_shapes N ty hd nl m Hm) as (Sb & Sa & Sc & St).
  do 4 (split; [assumption|]).
  split; [apply (beta_tilde_first N ty hd nl m Hm)|].
  split.
  { intros n Hn. rewrite (beta_tilde_at N ty hd nl m Hm n Hn). unfold Rdiv. ring. }
  split; [apply (alpha_at N ty hd nl m Hm)|].
  split; [apply (alpha_bar_first N ty hd nl m Hm)|].
  split; [apply (alpha_bar_step N ty hd nl m Hm)|].
  intros n Hn.
  split; [apply (beta_at N ty hd nl m Hm n Hn)|].
  pose proof (alpha_bar_range N ty hd nl m Hm n Hn) as Ha.
  split; [lra|].
  destruct n as [|k].
  - rewrite (beta_tilde_first N ty hd nl m Hm).
    pose proof (beta_range N ty hd nl m Hm 0%nat Hn) as Hb. unfold beta_start in Hb. lra.
  - apply (beta_tilde_range N ty hd nl m Hm). lia.
Qed.

Lemma beta_tilde_schedule_witness :
  exists m,
    DDPM_init 2 "resnet" 4 1 = Ok m
    /\ (shape (beta m) = [Z.to_nat 2] /\ wf (beta m))
    /\ (shape (alpha m) = [Z.to_nat 2] /\ wf (alpha m))
    /\ (shape (alpha_bar m) = [Z.to_nat 2] /\ wf (alpha_bar m))
    /\ (shape (beta_tilde m) = [Z.to_nat 2] /\ wf (beta_tilde m))
    /\ at1 (beta_tilde m) 0 = at1 (beta m) 0
    /\ (forall n, (0 < n < Z.to_nat 2)%nat ->
          at1 (beta_tilde m) n
          = at1 (beta m) n * (1 - at1 (alpha_bar m) (n - 1)) / (1 - at1 (alpha_bar m) n))
    /\ (forall n, (n < Z.to_nat 2)%nat -> at1 (alpha m) n = 1 - at1 (beta m) n)
    /\ at1 (alpha_bar m) 0 = at1 (alpha m) 0
    /\ (forall n, (S n < Z.to_nat 2)%nat ->
          at1 (alpha_bar m) (S n) = at1 (alpha_bar m) n * at1 (alpha m) (S n))
    /\ (forall n, (n < Z.to_nat 2)%nat ->
          at1 (beta m) n = 1e-4 + INR n * ((2e-2 - 1e-4) / INR (Z.to_nat 2 - 1))
          /\ 0 < 1 - at1 (alpha_bar m) n < 1
          /\ 0 < at1 (beta_tilde m) n).
Proof.
  eapply (beta_tilde_schedule 2 "resnet" 4 1); [lia | reflexivity].
Defined.

(** C6. For every [N >= 1] the schedule that the constructor builds,
    with [beta] at equal distances from [1e-4] to [2e-2], [alpha = 1 - beta]
    and [alpha_bar] the cumulative product of [alpha], has every [beta[n]]
    and every [alpha[n]] strictly between 0 and 1, and [alpha_bar]
    non-increasing with every entry in (0, 1]. *)
Theorem schedule_ranges N ty hd nl net :
  (1 <= N)%Z -> select_model ty hd nl = Ok net ->
  exists m,
    DDPM_init N ty hd nl = Ok m
    /\ length (data (beta m)) = Z.to_nat N
    /\ length (data (alpha m)) = Z.to_nat N
    /\ length (data (alpha_bar m)) = Z.to_nat N
    /\ (forall n, (n < Z.to_nat N)%nat ->
          at1 (beta m) n = 1e-4 + INR n * ((2e-2 - 1e-4) / INR (Z.to_nat N - 1))
          /\ 0 < at1 (beta m) n < 1
          /\ 0 < at1 (alpha m) n < 1
          /\ 0 < at1 (alpha_bar m) n <= 1)
    /\ (forall i j, (i <= j)%nat -> (j < Z.to_nat N)%nat ->
          at1 (alpha_bar m) j <= at1 (alpha_bar m) i).
Proof.
  intros HN Hs. destruct (DDPM_init_ok N ty hd nl net HN Hs) as (m & Hm & _).
  exists m. split; [exact Hm|].
  split; [apply (beta_length N ty hd nl m Hm)|].
  split; [apply (alpha_length N ty hd nl m Hm)|].
  split; [apply (alpha_bar_length N ty hd nl m Hm)|].
  split; [| apply (alpha_bar_monotone N ty hd nl m Hm)].
  intros n Hn.
  pose proof (beta_range N ty hd nl m Hm n Hn) as Hb. unfold beta_start, beta_end in Hb.
  pose proof (alpha_range N ty hd nl m Hm n Hn).
  pose proof (alpha_bar_range N ty hd nl m Hm n Hn).
  split; [apply (beta_at N ty hd nl m Hm n Hn)|].
  repeat split; lra.
Qed.

Lemma schedule_ranges_witness :
  exists m,
    DDPM_init 3 "unet" 8 2 = Ok m
    /\ length (data (beta m)) = Z.to_nat 3
    /\ length (data (alpha m)) = Z.to_nat 3
    /\ length (data (alpha_bar m)) = Z.to_nat 3
    /\ (forall n, (n < Z.to_nat 3)%nat ->
          at1 (beta m) n = 1e-4 + INR n * ((2e-2 - 1e-4) / INR (Z.to_nat 3 - 1))
          /\ 0 < at1 (beta m) n < 1
          /\ 0 < at1 (alpha m) n < 1
          /\ 0 < at1 (alpha_bar m) n <= 1)
    /\ (forall i j, (i <= j)%nat -> (j < Z.to_nat 3)%nat ->
          at1 (alpha_bar m) j <= at1 (alpha_bar m) i).
Proof.
  eapply (schedule_ranges 3 "unet" 8 2); [lia | reflexivity].
Defined.

(** C3. For every batch [z_n], every noise estimate [epsilon] of the
    same shape and every vector [n] of noise levels within [0, N), one
    per image, [estimate_x0] returns the batch whose entry [b, c, h, w] is
    [(z_n - sqrt(1 - alpha_bar[n[b]]) * epsilon) / sqrt(alpha_bar[n[b]])]
    at that entry: the schedule scalar of image [b] serves all of its
    entries. *)
Theorem estimate_x0_formula N ty hd nl m z_n n epsilon B C H W :
  DDPM_init N ty hd nl = Ok m ->
  shape z_n = [B; C; H; W] -> wf z_n ->
  shape epsilon = [B; C; H; W] -> wf epsilon ->
  length n = B -> Forall (fun k => (0 <= k < N)%Z) n ->
  exists x0,
    estimate_x0 m z_n n epsilon = Ok x0 /\ shape x0 = [B; C; H; W] /\ wf x0 /\
    forall b c h w, (b < B)%nat -> (c < C)%nat -> (h < H)%nat -> (w < W)%nat ->
      let alpha_bar_n := at1 (alpha_bar m) (Z.to_nat (nth b n 0%Z)) in
      at4 x0 b c h w
      = (at4 z_n b c h w - R_sqrt.sqrt (1 - alpha_bar_n) * at4 epsilon b c h w)
        / R_sqrt.sqrt alpha_bar_n.
Proof. intros. now apply (estimate_x0_entries N ty hd nl m). Qed.

Lemma estimate_x0_formula_witness :
  exists x0,
    estimate_x0 two_steps (pixel 3) [1%Z] (pixel 2) = Ok x0
    /\ shape x0 = [1; 1; 1; 1]%nat /\ wf x0 /\
    forall b c h w, (b < 1)%nat -> (c < 1)%nat -> (h < 1)%nat -> (w < 1)%nat ->
      let alpha_bar_n := at1 (alpha_bar two_steps) (Z.to_nat (nth b [1%Z] 0%Z)) in
      at4 x0 b c h w
      = (at4 (pixel 3) b c h w - R_sqrt.sqrt (1 - alpha_bar_n) * at4 (pixel 2) b c h w)
        / R_sqrt.sqrt alpha_bar_n.
Proof.
  apply (estimate_x0_formula 2 "resnet" 4 1 two_steps (pixel 3) [1%Z] (pixel 2) 1 1 1 1).
  - exact two_steps_ok.
  - reflexivity.
  - reflexivity.
  - reflexivity.
  - reflexivity.
  - reflexivity.
  - repeat constructor; lia.
Defined.

(** C10. When the vector of noise levels holds a zero, say for image
    [b], [sample_z_n_previous] does not fail: [n - 1] is [-1] there,
    which as an index counts from the end, so that the step reads
    [alpha_bar[N-1]], the last entry of the schedule, where the formula
    has [alpha_bar[n-1]]. *)
Theorem sample_z_n_previous_at_level_zero N ty hd nl m x0 z_n n g B C H W b :
  DDPM_init N ty hd nl = Ok m ->
  shape x0 = [B; C; H; W] -> wf x0 ->
  shape z_n = [B; C; H; W] -> wf z_n ->
  length n = B ->
  Forall (fun k => (0 <= k < N)%Z) n ->
  Forall (fun k => (- 2 ^ 63 <= k < 2 ^ 63)%Z) n ->
  (b < B)%nat -> nth b n 0%Z = 0%Z ->
  (exists prev,
     index (alpha_bar m) (long_sub n 1) = Ok prev
     /\ nth b (long_sub n 1) 0%Z = (-1)%Z
     /\ at1 prev b = at1 (alpha_bar m) (Z.to_nat (N - 1)))
  /\ exists z g',
       sample_z_n_previous m x0 z_n n g = Ok (z, g') /\
       forall c h w, (c < C)%nat -> (h < H)%nat -> (w < W)%nat ->
         let last := Z.to_nat (N - 1) in
         let xi := at4 (fst (randn [B; C; H; W] g)) b c h w in
         at4 z b c h w
         = at4 z_n b c h w * R_sqrt.sqrt (at1 (alpha m) 0) * (1 - at1 (alpha_bar m) last)
             / (1 - at1 (alpha_bar m) 0)
           + at4 x0 b c h w * R_sqrt.sqrt (at1 (alpha_bar m) last) * at1 (beta m) 0
             / (1 - at1 (alpha_bar m) 0)
           + at1 (beta_tilde m) 0 * xi.
Proof.
  intros Hinit Sx Wx Sz Wz Ln Hn Hlong Hb H0. split.
  - exact (index_previous_at_zero N ty hd nl m Hinit n B Ln Hn Hlong b Hb H0).
  - exact (sample_z_n_previous_zero_entries N ty hd nl m Hinit x0 z_n n g B C H W
             Sx Wx Sz Wz Ln Hn Hlong b Hb H0).
Qed.

Lemma sample_z_n_previous_at_level_zero_witness :
  (exists prev,
     index (alpha_bar two_steps) (long_sub [0%Z] 1) = Ok prev
     /\ nth 0 (long_sub [0%Z] 1) 0%Z = (-1)%Z
     /\ at1 prev 0 = at1 (alpha_bar two_steps) (Z.to_nat (2 - 1)))
  /\ exists z g',
       sample_z_n_previous two_steps (pixel 1) (pixel 2) [0%Z] all_ones = Ok (z, g') /\
       forall c h w, (c < 1)%nat -> (h < 1)%nat -> (w < 1)%nat ->
         let last := Z.to_nat (2 - 1) in
         let xi := at4 (fst (randn [1; 1; 1; 1]%nat all_ones)) 0 c h w in
         at4 z 0 c h w
         = at4 (pixel 2) 0 c h w * R_sqrt.sqrt (at1 (alpha two_steps) 0)
             * (1 - at1 (alpha_bar two_steps) last) / (1 - at1 (alpha_bar two_steps) 0)
           + at4 (pixel 1) 0 c h w * R_sqrt.sqrt (at1 (alpha_bar two_steps) last)
             * at1 (beta two_steps) 0 / (1 - at1 (alpha_bar two_steps) 0)
           + at1 (beta_tilde two_steps) 0 * xi.
Proof.
  apply (sample_z_n_previous_at_level_zero 2 "resnet" 4 1 two_steps
           (pixel 1) (pixel 2) [0%Z] all_ones 1 1 1 1 0).
  - exact two_steps_ok.
  - reflexivity.
  - reflexivity.
  - reflexivity.
  - reflexivity.
  - reflexivity.
  - repeat constructor; lia.
  - repeat constructor; lia.
  - lia.
  - reflexivity.
Defined.

(** C8. For every [N >= 1] that fits a 64-bit noise level, every batch
    size and every network that maps a batch of images to a batch of
    images, [sample] does what section 4.4 says: from [n = N - 1] down to
    0 it predicts the noise from [(z_n, n/N)] and computes [x0] with
    [estimate_x0], samples [z_{n-1}] while [n > 0], and at [n = 0] returns
    the last [x0], a tensor of shape [(batch_size, 1, 28, 28)]. *)
Theorem sample_terminates forward N ty hd nl m batch_size g :
  DDPM_init N ty hd nl = Ok m ->
  (1 <= N < 2 ^ 63)%Z ->
  (0 <= batch_size)%Z ->
  (forall z t,
     shape z = [Z.to_nat batch_size; 1; 28; 28]%nat -> wf z ->
     shape t = [Z.to_nat batch_size] -> wf t ->
     exists e, forward (model m) z t = Ok e
               /\ shape e = [Z.to_nat batch_size; 1; 28; 28]%nat /\ wf e) ->
  let noise := randn [Z.to_nat batch_size; 1; 28; 28]%nat g in
  sample forward m batch_size g
  = Spec.denoise_from forward m (Z.to_nat batch_size) (Z.to_nat (N - 1))
      (fst noise) (snd noise)
  /\ exists x0 g',
       sample forward m batch_size g = Ok (x0, g')
       /\ shape x0 = [Z.to_nat batch_size; 1; 28; 28]%nat /\ wf x0.
Proof.
  intros Hinit [_ Hbits] Hb Hf noise.
  pose proof (sample_refines forward N ty hd nl m Hinit (Z.to_nat batch_size) g) as E.
  destruct (sample_ok forward N ty hd nl m Hinit Hbits (Z.to_nat batch_size) Hf g)
    as (x0 & g' & Ex & Sx & Wx).
  rewrite (Z2Nat.id batch_size Hb) in E, Ex.
  split; [exact E|]. now exists x0, g'.
Qed.

Lemma sample_terminates_witness :
  let noise := randn [Z.to_nat 1; 1; 28; 28]%nat all_ones in
  sample echo two_steps 1 all_ones
  = Spec.denoise_from echo two_steps (Z.to_nat 1) (Z.to_nat (2 - 1)) (fst noise) (snd noise)
  /\ exists x0 g',
       sample echo two_steps 1 all_ones = Ok (x0, g')
       /\ shape x0 = [Z.to_nat 1; 1; 28; 28]%nat /\ wf x0.
Proof.
  apply (sample_terminates echo 2 "resnet" 4 1 two_steps 1 all_ones).
  - exact two_steps_ok.
  - lia.
  - lia.
  - intros z t Sz Wz _ _. exists z. split; [reflexivity|]. split; assumption.
Defined.

(** C9, as the constructor behaves.  It raises the error "Unknown model
    type ..." if and only if the type is neither "resnet" nor "unet".
    For "resnet", given at least one step and a hidden width that is not
    negative, it builds a residual network and returns; for "unet" it
    does so when moreover [0 <= n_layers <= 2], and a deeper U-net
    fails its assertion. *)
Theorem DDPM_init_model_type N ty hd nl :
  (DDPM_init N ty hd nl = Err (unknown_model_type ty)
   <-> ty <> "resnet"%string /\ ty <> "unet"%string)
  /\ (ty = "resnet"%string -> (1 <= N)%Z -> (0 <= hd)%Z ->
      exists m net, DDPM_init N ty hd nl = Ok m /\ model m = NetResNet net)
  /\ (ty = "unet"%string -> (1 <= N)%Z -> (0 <= hd)%Z -> (0 <= nl <= 2)%Z ->
      exists m net, DDPM_init N ty hd nl = Ok m /\ model m = NetMiniUnet net)
  /\ (ty = "unet"%string -> (2 < nl)%Z -> DDPM_init N ty hd nl = Err AssertionError).
Proof. apply DDPM_init_outcomes. Qed.

Lemma DDPM_init_model_type_witness :
  (exists m net, DDPM_init 5 "resnet" 8 2 = Ok m /\ model m = NetResNet net)
  /\ (exists m net, DDPM_init 5 "unet" 8 2 = Ok m /\ model m = NetMiniUnet net)
  /\ DDPM_init 5 "unet" 8 3 = Err AssertionError.
Proof.
  split; [| split].
  - apply (proj1 (proj2 (DDPM_init_model_type 5 "resnet" 8 2))); [reflexivity | lia | lia].
  - apply (proj1 (proj2 (proj2 (DDPM_init_model_type 5 "unet" 8 2))));
      [reflexivity | lia | lia | lia].
  - apply (proj2 (proj2 (proj2 (DDPM_init_model_type 5 "unet" 8 3))));
      [reflexivity | lia].
Defined.

End DdpmFacts.

(** ** The variational autoencoder *)

Module VaeFacts.

Import Torch TorchFacts Vae.
Open Scope R_scope.
Open Scope result_scope.

Lemma kl_term_code mu l :
  Rtrigo_def.exp (l + l) + mu * mu - (l + l) - 1 = Spec.kl_term mu l.
Proof. unfold Spec.kl_term. cbv zeta. rewrite exp_plus. ring. Qed.

Lemma kl_term_nonneg mu l : 0 <= Spec.kl_term mu l.
Proof.
  rewrite <- kl_term_code. pose proof (exp_ineq1_le (l + l)). nra.
Qed.

Lemma kl_term_zero mu l : Spec.kl_term mu l = 0 <-> mu = 0 /\ l = 0.
Proof.
  rewrite <- kl_term_code. split.
  - intros H. destruct (Req_dec l 0) as [->|Hl].
    + rewrite Rplus_0_r, exp_0 in H. split; [nra | reflexivity].
    + pose proof (exp_ineq1 (l + l) ltac:(lra)). nra.
  - intros [-> ->]. rewrite Rplus_0_r, exp_0. ring.
Qed.

Lemma sum_list_nonneg l : Forall (fun x => 0 <= x) l -> 0 <= sum_list l.
Proof. induction 1; simpl; lra. Qed.

Lemma sum_list_zero l :
  Forall (fun x => 0 <= x) l -> (sum_list l = 0 <-> Forall (fun x => x = 0) l).
Proof.
  induction 1 as [|x l Hx Hl IH]; simpl.
  - split; [constructor | reflexivity].
  - pose proof (sum_list_nonneg l Hl). split.
    + intros H0. constructor; [lra | apply IH; lra].
    + intros H0. inversion H0; subst. apply IH in H4. lra.
Qed.

Lemma sum_over_zero k f :
  (forall j, (j < k)%nat -> 0 <= f j) ->
  (Spec.sum_over k f = 0 <-> forall j, (j < k)%nat -> f j = 0).
Proof.
  intros Hf. unfold Spec.sum_over. rewrite sum_list_zero.
  - rewrite Forall_map, Forall_forall. split.
    + intros H j Hj. apply H, in_seq. lia.
    + intros H j Hj. apply in_seq in Hj. apply H. lia.
  - rewrite Forall_map, Forall_forall. intros j Hj. apply in_seq in Hj. apply Hf. lia.
Qed.

Lemma chunk_row k m d b :
  length d = (k * m)%nat -> (b < k)%nat ->
  nth b (chunks k m d) [] = map (fun j => nth (b * m + j) d 0) (seq 0 m).
Proof.
  intros L Hb.
  assert (Lr : length (nth b (chunks k m d) []) = m).
  { pose proof (chunks_block_length k m d L) as F. rewrite Forall_forall in F.
    apply F, nth_In. now rewrite chunks_length. }
  apply (nth_ext _ _ 0 0).
  - now rewrite Lr, length_map, length_seq.
  - intros j Hj. rewrite Lr in Hj.
    rewrite (nth_chunks k m d b j L Hb Hj).
    rewrite (nth_indep (map (fun j => nth (b * m + j) d 0) (seq 0 m)) 0
               (nth (b * m + 0) d 0)) by (now rewrite length_map, length_seq).
    rewrite (map_nth (fun j => nth (b * m + j) d 0)), seq_nth by exact Hj.
    reflexivity.
Qed.

Section KL.

Variables (mu logsigma : Tensor) (B L : nat).
Hypothesis Sm : shape mu = [B; L].
Hypothesis Wm : wf mu.
Hypothesis Sl : shape logsigma = [B; L].
Hypothesis Wl : wf logsigma.

Lemma kl_divergence_eq :
  kl_divergence mu logsigma
  = Ok (mkTensor [B]
          (map (fun x => 0.5 * x)
             (map sum_list
                (chunks B L
                   (map (fun x => x - 1)
                      (zip_with Rminus
                         (zip_with Rplus
                            (map Rtrigo_def.exp
                               (zip_with Rplus (data logsigma) (data logsigma)))
                            (zip_with Rmult (data mu) (data mu)))
                         (zip_with Rplus (data logsigma) (data logsigma)))))))).
Proof.
  assert (Lm : length (data mu) = (B * (L * 1))%nat) by (rewrite Wm, Sm; reflexivity).
  assert (Ll : length (data logsigma) = (B * (L * 1))%nat) by (rewrite Wl, Sl; reflexivity).
  unfold kl_divergence, typecheck_latent, ndim. rewrite Sm, Sl, shape_eqb_refl.
  cbn [length Nat.eqb andb]. unfold add, mul, sub.
  rewrite (binop_same_shape Rplus logsigma logsigma [B; L]) by assumption.
  cbn [rbind]. unfold Torch.exp, tmap. cbn [shape data].
  rewrite (binop_same_shape Rmult mu mu [B; L]) by assumption.
  cbn [rbind].
  rewrite (binop_same_shape Rplus _ _ [B; L]);
    [| reflexivity | reflexivity
     | unfold wf; cbn [data shape numel fold_right]; list_len; lia
     | unfold wf; cbn [data shape numel fold_right]; list_len; lia].
  cbn [rbind data].
  rewrite (binop_same_shape Rminus _ _ [B; L]);
    [| reflexivity | reflexivity
     | unfold wf; cbn [data shape numel fold_right]; list_len; lia
     | unfold wf; cbn [data shape numel fold_right]; list_len; lia].
  cbn [rbind data]. unfold sum_dim1, sub_scalar, scale, tmap. cbn [shape data rbind hd].
  now rewrite shape_eqb_refl.
Qed.

(** The sum that the code takes over the latent dimensions of sample [b]. *)
Lemma kl_row d b :
  d = map (fun x => x - 1)
        (zip_with Rminus
           (zip_with Rplus
              (map Rtrigo_def.exp (zip_with Rplus (data logsigma) (data logsigma)))
              (zip_with Rmult (data mu) (data mu)))
           (zip_with Rplus (data logsigma) (data logsigma))) ->
  (b < B)%nat ->
  nth b (map (fun x => 0.5 * x) (map sum_list (chunks B L d))) 0
  = Spec.kl_per_sample mu logsigma b.
Proof.
  intros Ed Hb.
  assert (Lm : length (data mu) = (B * L)%nat) by (rewrite Wm, Sm; simpl; lia).
  assert (Ll : length (data logsigma) = (B * L)%nat) by (rewrite Wl, Sl; simpl; lia).
  assert (Ld : length d = (B * L)%nat) by (rewrite Ed; list_len; lia).
  unfold Spec.kl_per_sample, Spec.sum_over. rewrite Sm. cbn [nth].
  rewrite nth_map0 by (list_len; now rewrite chunks_length).
  replace (1 / 2) with 0.5 by lra. f_equal.
  rewrite (nth_indep _ 0 (sum_list [])) by (list_len; now rewrite chunks_length).
  rewrite (map_nth sum_list). f_equal.
  rewrite (chunk_row B L d b Ld Hb).
  apply map_ext_in. intros j Hj. apply in_seq in Hj.
  assert (Hi : (b * L + j < B * L)%nat).
  { apply Nat.lt_le_trans with ((b + 1) * L)%nat; [lia|].
    apply Nat.mul_le_mono_r. lia. }
  rewrite Ed.
  rewrite nth_map0 by (list_len; lia).
  rewrite !zip_with_nth_lt by (list_len; lia).
  rewrite nth_map0 by (list_len; lia).
  rewrite !zip_with_nth_lt by (list_len; lia).
  unfold at2. rewrite Sm, Sl. apply kl_term_code.
Qed.

Lemma kl_per_sample_zero b :
  Spec.kl_per_sample mu logsigma b = 0
  <-> forall j, (j < L)%nat -> at2 mu b j = 0 /\ at2 logsigma b j = 0.
Proof.
  unfold Spec.kl_per_sample. rewrite Sm. cbn [nth].
  set (f := fun j => Spec.kl_term (at2 mu b j) (at2 logsigma b j)).
  assert (Hf : forall j, (j < L)%nat -> 0 <= f j) by (intros; apply kl_term_nonneg).
  pose proof (sum_over_zero L f Hf) as Hz.
  split.
  - intros H0 j Hj. apply kl_term_zero. apply Hz; [lra | exact Hj].
  - intros H0. assert (S0 : Spec.sum_over L f = 0).
    { apply Hz. intros j Hj. apply kl_term_zero. now apply H0. }
    rewrite S0. lra.
Qed.

Lemma kl_divergence_entries :
  exists kl,
    kl_divergence mu logsigma = Ok kl /\ shape kl = [B] /\ wf kl /\
    forall b, (b < B)%nat ->
      at1 kl b = Spec.kl_per_sample mu logsigma b
      /\ (at1 kl b = 0
          <-> forall j, (j < L)%nat -> at2 mu b j = 0 /\ at2 logsigma b j = 0).
Proof.
  eexists. split; [apply kl_divergence_eq|]. split; [reflexivity|]. split.
  { unfold wf. cbn [data shape]. list_len. rewrite chunks_length. simpl. lia. }
  intros b Hb. unfold at1. cbn [data].
  rewrite (kl_row _ b eq_refl Hb).
  split; [reflexivity | apply kl_per_sample_zero].
Qed.

End KL.

(** C7. For every batch of pairs [(mu, logsigma)], [kl_divergence]
    returns per sample half the sum over the latent dimensions of
    [sigma^2 + mu^2 - 2 * logsigma - 1] with [sigma = exp(logsigma)], and
    that value is zero if and only if [mu = 0] and [logsigma = 0] in every
    latent dimension. *)
Theorem kl_divergence_formula mu logsigma B L :
  shape mu = [B; L] -> wf mu -> shape logsigma = [B; L] -> wf logsigma ->
  exists kl,
    kl_divergence mu logsigma = Ok kl /\ shape kl = [B] /\ wf kl /\
    forall b, (b < B)%nat ->
      at1 kl b = Spec.kl_per_sample mu logsigma b
      /\ (at1 kl b = 0
          <-> forall j, (j < L)%nat -> at2 mu b j = 0 /\ at2 logsigma b j = 0).
Proof. apply kl_divergence_entries. Qed.

Lemma kl_divergence_formula_witness :
  exists kl,
    kl_divergence (mkTensor [1; 2]%nat [0; 1]) (mkTensor [1; 2]%nat [0; 0]) = Ok kl
    /\ shape kl = [1%nat] /\ wf kl /\
    forall b, (b < 1)%nat ->
      at1 kl b
      = Spec.kl_per_sample (mkTensor [1; 2]%nat [0; 1]) (mkTensor [1; 2]%nat [0; 0]) b
      /\ (at1 kl b = 0
          <-> forall j, (j < 2)%nat ->
                at2 (mkTensor [1; 2]%nat [0; 1]) b j = 0
                /\ at2 (mkTensor [1; 2]%nat [0; 0]) b j = 0).
Proof.
  apply (kl_divergence_formula (mkTensor [1; 2]%nat [0; 1]) (mkTensor [1; 2]%nat [0; 0]) 1 2);
    reflexivity.
Defined.

End VaeFacts.

(** ** More of the diffusion model *)

Module DdpmMore.

Import Torch TorchFacts Ddpm DdpmFacts Examples DdpmTraining.
Open Scope R_scope.
Open Scope result_scope.

(** *** The schedule *)

Section ScheduleShape.

Variables (N : Z) (ty : string) (hd nl : Z) (m : DDPM).
Hypothesis Hinit : DDPM_init N ty hd nl = Ok m.

Lemma beta_first : at1 (beta m) 0 = 1e-4.
Proof.
  destruct (DDPM_init_inv _ _ _ _ _ Hinit) as (HN & _).
  rewrite (beta_at N ty hd nl m Hinit) by lia. unfold beta_start. simpl INR. lra.
Qed.

Lemma beta_last : (2 <= N)%Z -> at1 (beta m) (Z.to_nat N - 1) = 2e-2.
Proof.
  intros HN. rewrite (beta_at N ty hd nl m Hinit) by lia.
  assert (0 < INR (Z.to_nat N - 1)) by (apply lt_0_INR; lia).
  unfold beta_start, beta_end. field. lra.
Qed.

Lemma beta_strictly_increasing i j :
  (i < j)%nat -> (j < Z.to_nat N)%nat -> at1 (beta m) i < at1 (beta m) j.
Proof.
  intros Hij Hj. rewrite !(beta_at N ty hd nl m Hinit) by lia.
  assert (Hn : 0 < INR (Z.to_nat N - 1)) by (apply lt_0_INR; lia).
  assert (Hs : 0 < (beta_end - beta_start) / INR (Z.to_nat N - 1)).
  { apply Rdiv_lt_0_compat; [unfold beta_start, beta_end; lra | exact Hn]. }
  assert (INR i < INR j) by (apply lt_INR; exact Hij).
  nra.
Qed.

Lemma alpha_strictly_decreasing i j :
  (i < j)%nat -> (j < Z.to_nat N)%nat -> at1 (alpha m) j < at1 (alpha m) i.
Proof.
  intros Hij Hj. rewrite !(alpha_at N ty hd nl m Hinit) by lia.
  pose proof (beta_strictly_increasing i j Hij Hj). lra.
Qed.

Lemma beta_tilde_below_beta n :
  (0 < n < Z.to_nat N)%nat -> 0 < at1 (beta_tilde m) n < at1 (beta m) n.
Proof.
  intros Hn. rewrite (beta_tilde_at N ty hd nl m Hinit) by exact Hn.
  destruct n as [|k]; [lia|]. replace (S k - 1)%nat with k by lia.
  pose proof (beta_range N ty hd nl m Hinit (S k) ltac:(lia)) as Hb.
  unfold beta_start, beta_end in Hb.
  pose proof (alpha_bar_range N ty hd nl m Hinit k ltac:(lia)) as H1.
  pose proof (alpha_bar_range N ty hd nl m Hinit (S k) ltac:(lia)) as H2.
  pose proof (alpha_bar_decreasing N ty hd nl m Hinit k ltac:(lia)) as H3.
  set (a := at1 (alpha_bar m) k) in *. set (a' := at1 (alpha_bar m) (S k)) in *.
  set (b := at1 (beta m) (S k)) in *.
  assert (Hq : 0 < (1 - a) / (1 - a') < 1).
  { split.
    - apply Rdiv_lt_0_compat; lra.
    - apply (Rmult_lt_reg_r (1 - a')); [lra|]. unfold Rdiv.
      rewrite Rmult_assoc, Rinv_l by lra. lra. }
  nra.
Qed.

Lemma alpha_between n :
  (n < Z.to_nat N)%nat -> 0.98 <= at1 (alpha m) n <= 0.9999.
Proof.
  intros Hn. rewrite (alpha_at N ty hd nl m Hinit) by exact Hn.
  pose proof (beta_range N ty hd nl m Hinit n Hn) as Hb.
  unfold beta_start, beta_end in Hb. lra.
Qed.

Lemma alpha_bar_geometric n :
  (n < Z.to_nat N)%nat ->
  0.98 ^ (S n) <= at1 (alpha_bar m) n <= 0.9999 ^ (S n).
Proof.
  induction n as [|n IH]; intros Hn.
  - rewrite (alpha_bar_first N ty hd nl m Hinit).
    pose proof (alpha_between 0 Hn). simpl. lra.
  - rewrite (alpha_bar_step N ty hd nl m Hinit) by exact Hn.
    specialize (IH ltac:(lia)). pose proof (alpha_between (S n) Hn) as Ha.
    assert (P1 : 0 < 0.98 ^ S n) by (apply pow_lt; lra).
    assert (P2 : 0 < 0.9999 ^ S n) by (apply pow_lt; lra).
    change (0.98 ^ S (S n)) with (0.98 * 0.98 ^ S n).
    change (0.9999 ^ S (S n)) with (0.9999 * 0.9999 ^ S n).
    split; nra.
Qed.

End ScheduleShape.

Lemma DDPM_init_network_error N ty hd nl e :
  select_model ty hd nl = Err e -> DDPM_init N ty hd nl = Err e.
Proof. intros H. unfold DDPM_init. now rewrite H. Qed.

Lemma DDPM_init_zero_steps ty hd nl net :
  select_model ty hd nl = Ok net -> DDPM_init 0 ty hd nl = Err IndexError.
Proof. intros H. unfold DDPM_init. rewrite H. reflexivity. Qed.

Lemma DDPM_init_negative_steps N ty hd nl net :
  (N < 0)%Z -> select_model ty hd nl = Ok net -> DDPM_init N ty hd nl = Err TorchError.
Proof.
  intros HN H. unfold DDPM_init. rewrite H. cbn [rbind].
  destruct (Z.leb_spec 0 N); [lia | reflexivity].
Qed.

(** *** The networks *)

Lemma mapM_map {A B : Type} (f : A -> result B) (g : A -> B) (l : list A) :
  (forall x, In x l -> f x = Ok (g x)) -> mapM f l = Ok (map g l).
Proof.
  induction l as [|x l IH]; intros H; simpl; [reflexivity|].
  rewrite (H x (or_introl eq_refl)), IH by (intros y Hy; apply H; now right).
  reflexivity.
Qed.

Lemma nth_map_in {A B : Type} (f : A -> B) (l : list A) (k : nat) (d : A) (d' : B) :
  (k < length l)%nat -> nth k (map f l) d' = f (nth k l d).
Proof.
  intros H. rewrite (nth_indep _ d' (f d)) by (now rewrite length_map). apply map_nth.
Qed.

Lemma range_length n : length (range n) = Z.to_nat n.
Proof. unfold range. now rewrite length_map, length_seq. Qed.

Lemma range2_length a b : length (range2 a b) = Z.to_nat (b - a).
Proof. unfold range2. now rewrite length_map, length_seq. Qed.

Lemma range_nth n k : (k < Z.to_nat n)%nat -> nth k (range n) 0%Z = Z.of_nat k.
Proof.
  intros H. unfold range. rewrite (map_nth Z.of_nat _ 0%nat k : nth k _ (Z.of_nat 0) = _).
  now rewrite seq_nth.
Qed.

Lemma range2_nth a b k :
  (k < Z.to_nat (b - a))%nat -> nth k (range2 a b) 0%Z = (a + Z.of_nat k)%Z.
Proof.
  intros H. unfold range2.
  rewrite (nth_indep _ 0%Z ((fun i => (a + Z.of_nat i)%Z) 0%nat))
    by (now rewrite length_map, length_seq).
  rewrite (map_nth (fun i => (a + Z.of_nat i)%Z)). now rewrite seq_nth.
Qed.

(** The residual network, once its widths are not negative. *)
Lemma ResNet_init_eq fd hd nl :
  (0 <= fd)%Z -> (0 <= hd)%Z ->
  ResNet_init fd hd nl
  = Ok (mkResNet (mkConv2d (fd + 1) hd 3 1) (mkConv2d hd fd 3 1)
          (map (fun _ => (mkConv2d (hd + 1) hd 3 1, mkConv2d hd hd 3 1)) (range nl))).
Proof.
  intros Hf Hh. unfold ResNet_init, ConvLayer.
  rewrite (Conv2d_init_ok (fd + 1) hd) by lia.
  rewrite (Conv2d_init_ok hd fd) by lia. cbn [rbind].
  rewrite (mapM_map _ (fun _ => (mkConv2d (hd + 1) hd 3 1, mkConv2d hd hd 3 1))).
  - reflexivity.
  - intros x _. now rewrite !Conv2d_init_ok by lia.
Qed.

(** The U-net of depth 0, 1 or 2. *)
Lemma MiniUnet_init_eq fd hd nl :
  (0 <= fd)%Z -> (0 <= hd)%Z -> (0 <= nl <= 2)%Z ->
  let level i := (mkConv2d (4 ^ i * hd + 1) (4 ^ i * hd) 3 1,
                  mkConv2d (4 ^ i * hd) (4 ^ i * hd) 1 0) in
  let up i := (mkConv2d (2 * 4 ^ i * hd + 1) (4 ^ i * hd) 3 1,
               mkConv2d (4 ^ i * hd) (4 ^ i * hd) 1 0) in
  MiniUnet_init fd hd nl
  = Ok (mkMiniUnet nl (mkConv2d (fd + 1) hd 3 1) (mkConv2d hd fd 3 1)
          (map level (range nl))
          (mkConv2d (4 ^ nl * hd + 1) (4 ^ nl * hd) 3 1,
           mkConv2d (4 ^ nl * hd) (4 ^ nl * hd) 3 1)
          (map up (rev (range2 1 (nl + 1))))).
Proof.
  intros Hf Hh Hn level up. unfold MiniUnet_init, ConvLayer, pow4.
  destruct (Z.leb_spec nl 2); [|lia].
  rewrite (Conv2d_init_ok (fd + 1) hd) by lia.
  rewrite (Conv2d_init_ok hd fd) by lia. cbn [rbind].
  rewrite (mapM_map _ level).
  2:{ intros i Hi. apply in_range in Hi.
      assert (0 <= 4 ^ i * hd)%Z by (apply Z.mul_nonneg_nonneg; [apply Z.pow_nonneg|]; lia).
      now rewrite !Conv2d_init_ok by lia. }
  cbn [rbind]. destruct (Z.leb_spec 0 nl); [|lia]. cbn [rbind]. cbv zeta.
  assert (0 <= 4 ^ nl * hd)%Z by (apply Z.mul_nonneg_nonneg; [apply Z.pow_nonneg|]; lia).
  rewrite !Conv2d_init_ok by lia. cbn [rbind].
  rewrite (mapM_map _ up).
  2:{ intros i Hi. apply in_rev in Hi. apply in_range2 in Hi.
      assert (0 <= 4 ^ i * hd)%Z by (apply Z.mul_nonneg_nonneg; [apply Z.pow_nonneg|]; lia).
      now rewrite !Conv2d_init_ok by lia. }
  reflexivity.
Qed.

(** *** Outcomes of the reconstruction *)

Lemma gather_out d n :
  Exists (fun i => ~ (- Z.of_nat (length d) <= i < Z.of_nat (length d))%Z) n ->
  gather d n = Err IndexError.
Proof.
  induction n as [|i n IH]; intros H; [inversion H|].
  simpl. destruct (py_index (length d) i) as [k|] eqn:E; [|reflexivity].
  inversion H as [? ? Hi | ? ? Hn]; subst.
  - exfalso. apply Hi. unfold py_index in E.
    destruct (Z.leb_spec 0 i); destruct (Z.ltb_spec i (Z.of_nat (length d)));
      simpl in E; try lia;
      destruct (Z.leb_spec (- Z.of_nat (length d)) i); destruct (Z.ltb_spec i 0);
      simpl in E; try lia; discriminate.
  - now rewrite (IH Hn).
Qed.

Lemma typecheck_spec a n b :
  Ddpm.typecheck a n b = true
  <-> exists B C H W, shape a = [B; C; H; W] /\ shape b = [B; C; H; W] /\ length n = B.
Proof.
  unfold Ddpm.typecheck, ndim. split.
  - intros H. apply andb_prop in H. destruct H as [H Hn].
    apply andb_prop in H. destruct H as [Hd Hs].
    apply Nat.eqb_eq in Hd, Hn. unfold shape_eqb in Hs.
    destruct (list_eq_dec Nat.eq_dec (shape a) (shape b)) as [E|]; [|discriminate].
    destruct (shape a) as [|B [|C [|H [|W [|? ?]]]]] eqn:Sa; simpl in Hd; try lia.
    exists B, C, H, W. simpl in Hn. now rewrite <- E.
  - intros (B & C & H & W & -> & -> & Hn). rewrite shape_eqb_refl. simpl.
    now rewrite Hn, Nat.eqb_refl.
Qed.

Section EstimateX0Outcomes.

Variables (N : Z) (ty : string) (hd nl : Z) (m : DDPM).
Hypothesis Hinit : DDPM_init N ty hd nl = Ok m.
Variables (z_n epsilon : Tensor) (n : LongTensor).

Lemma estimate_x0_ill_typed_err :
  ~ (exists B C H W,
       shape z_n = [B; C; H; W] /\ shape epsilon = [B; C; H; W] /\ length n = B) ->
  estimate_x0 m z_n n epsilon = Err TypeError.
Proof.
  intros H. unfold estimate_x0.
  destruct (Ddpm.typecheck z_n n epsilon) eqn:E; [|reflexivity].
  exfalso. apply H. now apply typecheck_spec.
Qed.

Variables (B C H W : nat).
Hypothesis Sz : shape z_n = [B; C; H; W].
Hypothesis Wz : wf z_n.
Hypothesis Se : shape epsilon = [B; C; H; W].
Hypothesis We : wf epsilon.
Hypothesis Ln : length n = B.

Lemma estimate_x0_out_of_range_err :
  Exists (fun k => (k < - N \/ N <= k)%Z) n ->
  estimate_x0 m z_n n epsilon = Err IndexError.
Proof.
  intros Hn.
  pose proof (alpha_bar_length N ty hd nl m Hinit) as La.
  destruct (DDPM_init_inv _ _ _ _ _ Hinit) as (HN & _).
  unfold estimate_x0. rewrite (typecheck_ok z_n n epsilon B C H W) by assumption.
  unfold index. rewrite gather_out; [reflexivity|].
  rewrite La. revert Hn. apply Exists_impl. intros k Hk. lia.
Qed.

Hypothesis Hn : Forall (fun k => (- N <= k < N)%Z) n.

Lemma estimate_x0_wrapping_eq :
  estimate_x0 m z_n n epsilon
  = Ok (mkTensor [B; C; H; W]
          (zip_with Rdiv
             (zip_with Rminus (data z_n)
                (zip_with Rmult
                   (per_sample
                      (map R_sqrt.sqrt
                         (map (fun x => 1 - x) (picks (data (alpha_bar m)) n)))
                      (numel [C; H; W]))
                   (data epsilon)))
             (per_sample (map R_sqrt.sqrt (picks (data (alpha_bar m)) n))
                (numel [C; H; W])))).
Proof.
  assert (Lz : length (data z_n) = (B * numel [C; H; W])%nat) by (rewrite Wz, Sz; reflexivity).
  assert (Le : length (data epsilon) = (B * numel [C; H; W])%nat) by (rewrite We, Se; reflexivity).
  pose proof (alpha_bar_length N ty hd nl m Hinit) as La.
  destruct (DDPM_init_inv _ _ _ _ _ Hinit) as (HN & _).
  unfold estimate_x0. rewrite (typecheck_ok z_n n epsilon B C H W) by assumption.
  rewrite index_in by (rewrite La; revert Hn; apply Forall_impl; intros; lia).
  cbn [rbind]. rewrite (batch_broadcast_eq _ _ z_n B C H W Sz), picks_length, Ln.
  cbn [rbind]. unfold Torch.sqrt, rsub, tmap. cbn [shape data].
  rewrite (mul_column_l _ epsilon B C H W) by (list_len; assumption).
  cbn [rbind]. unfold sub, div.
  rewrite (binop_same_shape Rminus z_n _ [B; C; H; W]);
    [| assumption | reflexivity | assumption
     | unfold wf; cbn [data shape]; list_len; simpl numel in *; lia].
  cbn [rbind data].
  rewrite (binop_column_r4 Rdiv _ _ B C H W);
    [| list_len; assumption | reflexivity
     | unfold wf; cbn [data shape]; list_len; simpl numel in *; lia].
  cbn [rbind data]. unfold typecheck_return. cbn [shape]. rewrite Sz, shape_eqb_refl.
  reflexivity.
Qed.

Lemma estimate_x0_wrapping_entries :
  exists x0,
    estimate_x0 m z_n n epsilon = Ok x0 /\ shape x0 = [B; C; H; W] /\ wf x0 /\
    forall b c h w, (b < B)%nat -> (c < C)%nat -> (h < H)%nat -> (w < W)%nat ->
      let k := nth b n 0%Z in
      let alpha_bar_n :=
        at1 (alpha_bar m) (Z.to_nat (if (k <? 0)%Z then N + k else k)) in
      at4 x0 b c h w
      = (at4 z_n b c h w - R_sqrt.sqrt (1 - alpha_bar_n) * at4 epsilon b c h w)
        / R_sqrt.sqrt alpha_bar_n.
Proof.
  assert (Lz : length (data z_n) = (B * numel [C; H; W])%nat) by (rewrite Wz, Sz; reflexivity).
  assert (Le : length (data epsilon) = (B * numel [C; H; W])%nat) by (rewrite We, Se; reflexivity).
  pose proof (alpha_bar_length N ty hd nl m Hinit) as La.
  destruct (DDPM_init_inv _ _ _ _ _ Hinit) as (HN & _).
  eexists. split; [apply estimate_x0_wrapping_eq|]. split; [reflexivity|]. split.
  { unfold wf. cbn [data shape]. list_len. simpl numel in *. lia. }
  intros b c h w Hb Hc Hh Hw k alpha_bar_n.
  destruct (ravel4 B C H W b c h w Hb Hc Hh Hw) as [Hi Hq].
  unfold at4. cbn [shape data]. rewrite Sz, Se.
  set (i := (((b * C + c) * H + h) * W + w)%nat) in *.
  change (numel [B; C; H; W]) with (B * numel [C; H; W])%nat in Hi.
  rewrite nth_zip_column_r by (list_len; lia).
  rewrite zip_with_nth_lt by (list_len; lia).
  rewrite nth_zip_column_l by (list_len; lia).
  rewrite Hq. rewrite !nth_map0 by (list_len; lia).
  rewrite picks_nth by lia. fold k. rewrite La.
  replace (norm_index (Z.to_nat N) k) with (Z.to_nat (if (k <? 0)%Z then N + k else k)).
  - reflexivity.
  - unfold norm_index. destruct (Z.ltb_spec k 0); destruct (Z.leb_spec 0 k); lia.
Qed.

End EstimateX0Outcomes.

Section Inverse.

Variables (N : Z) (ty : string) (hd nl : Z) (m : DDPM).
Hypothesis Hinit : DDPM_init N ty hd nl = Ok m.
Variables (x0 z_n epsilon : Tensor) (n : LongTensor) (B C H W : nat).
Hypothesis Sz : shape z_n = [B; C; H; W].
Hypothesis Wz : wf z_n.
Hypothesis Se : shape epsilon = [B; C; H; W].
Hypothesis We : wf epsilon.
Hypothesis Ln : length n = B.
Hypothesis Hn : Forall (fun k => (0 <= k < N)%Z) n.

Lemma estimate_x0_inverts_forward :
  (forall b c h w, (b < B)%nat -> (c < C)%nat -> (h < H)%nat -> (w < W)%nat ->
     let alpha_bar_n := at1 (alpha_bar m) (Z.to_nat (nth b n 0%Z)) in
     at4 z_n b c h w
     = R_sqrt.sqrt alpha_bar_n * at4 x0 b c h w
       + R_sqrt.sqrt (1 - alpha_bar_n) * at4 epsilon b c h w) ->
  exists x,
    estimate_x0 m z_n n epsilon = Ok x /\
    forall b c h w, (b < B)%nat -> (c < C)%nat -> (h < H)%nat -> (w < W)%nat ->
      at4 x b c h w = at4 x0 b c h w.
Proof.
  intros Hz.
  destruct (estimate_x0_entries N ty hd nl m Hinit z_n epsilon n B C H W Sz Wz Se We Ln Hn)
    as (x & Ex & _ & _ & Fx).
  exists x. split; [exact Ex|].
  intros b c h w Hb Hc Hh Hw.
  rewrite (Fx b c h w Hb Hc Hh Hw), (Hz b c h w Hb Hc Hh Hw). cbv zeta.
  assert (Hk : (0 <= nth b n 0 < N)%Z)
    by (rewrite Forall_forall in Hn; apply Hn, nth_In; lia).
  pose proof (alpha_bar_range N ty hd nl m Hinit (Z.to_nat (nth b n 0%Z)) ltac:(lia)) as Ha.
  assert (Hs : 0 < R_sqrt.sqrt (at1 (alpha_bar m) (Z.to_nat (nth b n 0%Z))))
    by (apply sqrt_lt_R0; lra).
  field. lra.
Qed.

End Inverse.

Section BatchBroadcast.

Variables (a b : Tensor) (B : nat) (s : list nat).

Lemma batch_broadcast_not_vector :
  ndim a <> 1%nat -> batch_broadcast a b = Err AssertionError.
Proof.
  intros H. unfold batch_broadcast. destruct (Nat.eqb_spec (ndim a) 1); [contradiction|].
  reflexivity.
Qed.

Hypothesis Sa : shape a = [B].
Hypothesis Wa : wf a.
Hypothesis Sb : shape b = B :: s.
Hypothesis Wb : wf b.

Lemma batch_broadcast_mul_entries :
  exists v p,
    batch_broadcast a b = Ok v
    /\ shape v = B :: repeat 1%nat (length s) /\ data v = data a
    /\ mul v b = Ok p /\ shape p = B :: s
    /\ forall i, (i < B * numel s)%nat ->
         at1 p i = at1 a (i / numel s) * at1 b i.
Proof.
  assert (La : length (data a) = B) by (rewrite Wa, Sa; simpl; lia).
  assert (Lb : length (data b) = (B * numel s)%nat) by (rewrite Wb, Sb; reflexivity).
  unfold batch_broadcast, ndim. rewrite Sa, Sb. cbn [length Nat.eqb Nat.sub].
  rewrite Nat.sub_0_r. unfold view_column. rewrite La.
  eexists. eexists. split; [reflexivity|]. cbn [shape data].
  split; [reflexivity|]. split; [reflexivity|]. split.
  { unfold mul. apply (binop_column_l Rmult _ b B s); [reflexivity | exact Sb | exact La | exact Wb]. }
  split; [reflexivity|].
  intros i Hi. unfold at1. cbn [data].
  apply nth_zip_column_l; lia.
Qed.

End BatchBroadcast.

(** *** More on the reverse step *)

Lemma randn_at4 g B C H W b c h w :
  (b < B)%nat -> (c < C)%nat -> (h < H)%nat -> (w < W)%nat ->
  at4 (fst (randn [B; C; H; W] g)) b c h w = g (((b * C + c) * H + h) * W + w)%nat.
Proof.
  intros Hb Hc Hh Hw. destruct (ravel4 B C H W b c h w Hb Hc Hh Hw) as [Hi _].
  unfold at4, randn. cbn [fst shape data].
  rewrite (nth_indep _ 0 (g 0%nat)) by (now rewrite length_map, length_seq).
  rewrite (map_nth g), seq_nth by exact Hi. reflexivity.
Qed.

Lemma reverse_mean_algebra sp sa a ap x :
  sa * sa = a -> 1 - ap * a <> 0 ->
  sp * sa * x * sa * (1 - ap) / (1 - ap * a) + x * sp * (1 - a) / (1 - ap * a) = sp * x.
Proof.
  intros Ha Hd. replace (sp * sa * x * sa) with (sp * x * (sa * sa)) by ring.
  rewrite Ha. field. exact Hd.
Qed.

Section ReverseStepMore.

Variables (N : Z) (ty : string) (hd nl : Z) (m : DDPM).
Hypothesis Hinit : DDPM_init N ty hd nl = Ok m.

Variables (x0 z_n : Tensor) (n : LongTensor) (g : rng) (B C H W : nat).
Hypothesis Sx : shape x0 = [B; C; H; W].
Hypothesis Wx : wf x0.
Hypothesis Sz : shape z_n = [B; C; H; W].
Hypothesis Wz : wf z_n.
Hypothesis Ln : length n = B.
Hypothesis Hn : Forall (fun k => (0 <= k < N)%Z) n.
Hypothesis Hlong : Forall (fun k => (- 2 ^ 63 <= k < 2 ^ 63)%Z) n.

Lemma sample_z_n_previous_positive_entries :
  exists z g',
    sample_z_n_previous m x0 z_n n g = Ok (z, g')
    /\ shape z = [B; C; H; W] /\ wf z
    /\ (forall i, g' i = g (i + B * C * H * W)%nat)
    /\ forall b c h w, (b < B)%nat -> (c < C)%nat -> (h < H)%nat -> (w < W)%nat ->
         (1 <= nth b n 0)%Z ->
         let k := Z.to_nat (nth b n 0%Z) in
         let xi := g (((b * C + c) * H + h) * W + w)%nat in
         at4 z b c h w
         = at4 z_n b c h w * R_sqrt.sqrt (at1 (alpha m) k) * (1 - at1 (alpha_bar m) (k - 1))
             / (1 - at1 (alpha_bar m) k)
           + at4 x0 b c h w * R_sqrt.sqrt (at1 (alpha_bar m) (k - 1)) * at1 (beta m) k
             / (1 - at1 (alpha_bar m) k)
           + at1 (beta_tilde m) k * xi.
Proof.
  destruct (sample_z_n_previous_entries N ty hd nl m Hinit x0 z_n n g B C H W
              Sx Wx Sz Wz Ln Hn Hlong) as (z & Ez & Sz' & Wz' & Fz).
  exists z, (snd (randn [B; C; H; W] g)). split; [exact Ez|].
  split; [exact Sz'|]. split; [exact Wz'|]. split.
  { intros i. unfold randn. cbn [snd numel fold_right]. f_equal. lia. }
  intros b c h w Hb Hc Hh Hw Hk k xi.
  rewrite (Fz b c h w Hb Hc Hh Hw). cbv zeta.
  rewrite randn_at4 by assumption.
  replace (norm_index (Z.to_nat N) (nth b n 0%Z - 1)) with (k - 1)%nat
    by (rewrite norm_index_nonneg by lia; subst k; lia).
  reflexivity.
Qed.

(** The mean of the reverse step takes a clean image scaled for level
    [n] to the same image scaled for level [n - 1]. *)
Lemma sample_z_n_previous_keeps_clean_image :
  exists z g',
    sample_z_n_previous m x0 z_n n g = Ok (z, g') /\
    forall b c h w, (b < B)%nat -> (c < C)%nat -> (h < H)%nat -> (w < W)%nat ->
      (1 <= nth b n 0)%Z ->
      let k := Z.to_nat (nth b n 0%Z) in
      let xi := g (((b * C + c) * H + h) * W + w)%nat in
      at4 z_n b c h w = R_sqrt.sqrt (at1 (alpha_bar m) k) * at4 x0 b c h w ->
      at4 z b c h w
      = R_sqrt.sqrt (at1 (alpha_bar m) (k - 1)) * at4 x0 b c h w
        + at1 (beta_tilde m) k * xi.
Proof.
  destruct sample_z_n_previous_positive_entries as (z & g' & Ez & _ & _ & _ & Fz).
  exists z, g'. split; [exact Ez|].
  intros b c h w Hb Hc Hh Hw Hk k xi Hclean.
  rewrite (Fz b c h w Hb Hc Hh Hw Hk). fold k. fold xi. rewrite Hclean.
  assert (Hr : (0 <= nth b n 0 < N)%Z)
    by (rewrite Forall_forall in Hn; apply Hn, nth_In; lia).
  assert (Hk' : (k = S (k - 1))%nat) by (subst k; lia).
  assert (Hlt : (S (k - 1) < Z.to_nat N)%nat) by (subst k; lia).
  pose proof (alpha_bar_step N ty hd nl m Hinit (k - 1)%nat Hlt) as Estep.
  pose proof (alpha_at N ty hd nl m Hinit (S (k - 1)) Hlt) as Ealpha.
  pose proof (alpha_range N ty hd nl m Hinit (S (k - 1)) Hlt) as Ra.
  pose proof (alpha_bar_range N ty hd nl m Hinit (k - 1)%nat ltac:(lia)) as Rp.
  pose proof (alpha_bar_range N ty hd nl m Hinit (S (k - 1)) Hlt) as Rk.
  rewrite <- Hk' in *.
  set (a := at1 (alpha m) k) in *. set (ab := at1 (alpha_bar m) k) in *.
  set (ap := at1 (alpha_bar m) (k - 1)) in *. set (bt := at1 (beta m) k) in *.
  assert (Esq : R_sqrt.sqrt ab = R_sqrt.sqrt ap * R_sqrt.sqrt a)
    by (rewrite Estep; apply sqrt_mult; lra).
  assert (Ea : R_sqrt.sqrt a * R_sqrt.sqrt a = a) by (apply sqrt_def; lra).
  rewrite Esq.
  replace bt with (1 - a) by lra.
  assert (Hden : 1 - ap * a <> 0) by (rewrite <- Estep; lra).
  rewrite Estep. f_equal.
  apply reverse_mean_algebra; assumption.
Qed.

End ReverseStepMore.

(** *** The losses *)




Section SimplifiedLoss.

Variable forward : Network -> Tensor -> Tensor -> result Tensor.
Variables (N : Z) (ty : string) (hd nl : Z) (m : DDPM).
Hypothesis Hinit : DDPM_init N ty hd nl = Ok m.

Variables (x0 epsilon : Tensor) (n : LongTensor) (B C H W : nat).
Hypothesis Sx : shape x0 = [B; C; H; W].
Hypothesis Wx : wf x0.
Hypothesis Se : shape epsilon = [B; C; H; W].
Hypothesis We : wf epsilon.
Hypothesis Ln : length n = B.
Hypothesis Hn : Forall (fun k => (0 <= k < N)%Z) n.


Lemma simplified_loss_network_error z_n e :
  noisy_sample m x0 n epsilon = Ok z_n ->
  forward (model m) z_n (normalize m n) = Err e ->
  simplified_loss forward m x0 n epsilon = Err e.
Proof.
  intros Ez Ef. unfold simplified_loss.
  rewrite (typecheck_ok x0 n epsilon B C H W) by assumption.
  cbv zeta. rewrite Ez. cbn [rbind]. now rewrite Ef.
Qed.

End SimplifiedLoss.

Section Loss.

Variable forward : Network -> Tensor -> Tensor -> result Tensor.
Variable randint : Z -> nat -> rng -> result (LongTensor * rng).
Variables (N : Z) (ty : string) (hd nl : Z) (m : DDPM).
Hypothesis Hinit : DDPM_init N ty hd nl = Ok m.

Variables (x0 : Tensor) (g : rng) (B C H W : nat).
Hypothesis Sx : shape x0 = [B; C; H; W].
Hypothesis Wx : wf x0.

Hypothesis randint_ok :
  forall g0, exists n g1,
    randint N B g0 = Ok (n, g1) /\ length n = B /\ Forall (fun k => (0 <= k < N)%Z) n.

Hypothesis forward_ok :
  forall z t, shape z = [B; C; H; W] -> wf z ->
    exists e, forward (model m) z t = Ok e /\ shape e = [B; C; H; W] /\ wf e.


End Loss.

(** *** The draws of the sampling loop *)

Section SamplingDraws.

Variable forward : Network -> Tensor -> Tensor -> result Tensor.

Variables (N : Z) (ty : string) (hd nl : Z) (m : DDPM).
Hypothesis Hinit : DDPM_init N ty hd nl = Ok m.
Hypothesis Hbits : (N < 2 ^ 63)%Z.

Variable B : nat.

Hypothesis forward_ok :
  forall z t, shape z = [B; 1; 28; 28]%nat -> wf z -> shape t = [B] -> wf t ->
    exists e, forward (model m) z t = Ok e /\ shape e = [B; 1; 28; 28]%nat /\ wf e.

Lemma denoise_from_draws k z g :
  (Z.of_nat k < N)%Z -> shape z = [B; 1; 28; 28]%nat -> wf z ->
  exists x g',
    Spec.denoise_from forward m B k z g = Ok (x, g')
    /\ forall i, g' i = g (i + k * (B * 1 * 28 * 28))%nat.
Proof.
  revert z g. induction k as [|k IH]; intros z g Hk Sz Wz.
  - cbn [Spec.denoise_from].
    destruct (forward_ok z (full B (IZR (Z.of_nat 0) / IZR (Ddpm.N m))) Sz Wz eq_refl)
      as (e & -> & Se & We); [apply wf_vector, repeat_length|].
    cbn [rbind].
    destruct (estimate_x0_entries N ty hd nl m Hinit z e (long_full B (Z.of_nat 0))
                B 1 28 28 Sz Wz Se We (long_full_length _ _))
      as (x & -> & Sx & Wx & _); [apply long_full_all; lia|].
    cbn [rbind]. exists x, g. split; [reflexivity|]. intros i. f_equal. lia.
  - cbn [Spec.denoise_from].
    destruct (forward_ok z (full B (IZR (Z.of_nat (S k)) / IZR (Ddpm.N m))) Sz Wz eq_refl)
      as (e & -> & Se & We); [apply wf_vector, repeat_length|].
    cbn [rbind].
    destruct (estimate_x0_entries N ty hd nl m Hinit z e (long_full B (Z.of_nat (S k)))
                B 1 28 28 Sz Wz Se We (long_full_length _ _))
      as (x & -> & Sx & Wx & _); [apply long_full_all; lia|].
    cbn [rbind].
    destruct (sample_z_n_previous_positive_entries N ty hd nl m Hinit x z
                (long_full B (Z.of_nat (S k))) g B 1 28 28 Sx Wx Sz Wz
                (long_full_length _ _))
      as (z' & g1 & -> & Sz' & Wz' & Hg1 & _);
      [apply long_full_all; lia | apply long_full_all; lia |].
    cbn [rbind].
    destruct (IH z' g1 ltac:(lia) Sz' Wz') as (x' & g' & E & Hg').
    exists x', g'. split; [exact E|].
    intros i. rewrite Hg', Hg1. f_equal. lia.
Qed.

Lemma sample_draws g :
  exists x0 g',
    sample forward m (Z.of_nat B) g = Ok (x0, g')
    /\ forall i, g' i = g (i + Z.to_nat N * (B * 1 * 28 * 28))%nat.
Proof.
  destruct (DDPM_init_inv _ _ _ _ _ Hinit) as (HN & _).
  rewrite (sample_refines forward N ty hd nl m Hinit B g).
  destruct (denoise_from_draws (Z.to_nat (N - 1)) (fst (randn [B; 1; 28; 28]%nat g))
              (snd (randn [B; 1; 28; 28]%nat g)) ltac:(lia) eq_refl)
    as (x & g' & E & Hg').
  { unfold wf, randn. cbn [fst data shape]. now list_len. }
  exists x, g'. split; [exact E|].
  intros i. rewrite Hg'. unfold randn. cbn [snd numel fold_right]. f_equal.
  replace (Z.to_nat N) with (S (Z.to_nat (N - 1))) by lia. lia.
Qed.

End SamplingDraws.

(** *** Statements about the diffusion model *)

Import ExamplesMore.

(** *** Further statements about the diffusion model *)

(** X1. In exact real arithmetic, that is for the schedule as it is
    computed before any rounding to [float32], the variance schedule of
    a constructed model starts at [1e-4], ends at [2e-2] when it has two
    steps or more, and grows strictly from one step to the next, so that
    [alpha] falls strictly. *)
Theorem beta_schedule_increasing N ty hd nl m :
  DDPM_init N ty hd nl = Ok m ->
  at1 (beta m) 0 = 1e-4
  /\ ((2 <= N)%Z -> at1 (beta m) (Z.to_nat N - 1) = 2e-2)
  /\ forall i j, (i < j)%nat -> (j < Z.to_nat N)%nat ->
       at1 (beta m) i < at1 (beta m) j /\ at1 (alpha m) j < at1 (alpha m) i.
Proof.
  intros Hinit. split; [apply (beta_first N ty hd nl m Hinit)|].
  split; [apply (beta_last N ty hd nl m Hinit)|].
  intros i j Hij Hj. split.
  - apply (beta_strictly_increasing N ty hd nl m Hinit i j Hij Hj).
  - apply (alpha_strictly_decreasing N ty hd nl m Hinit i j Hij Hj).
Qed.

Lemma beta_schedule_increasing_witness :
  at1 (beta two_steps) 0 = 1e-4
  /\ ((2 <= 2)%Z -> at1 (beta two_steps) (Z.to_nat 2 - 1) = 2e-2)
  /\ forall i j, (i < j)%nat -> (j < Z.to_nat 2)%nat ->
       at1 (beta two_steps) i < at1 (beta two_steps) j
       /\ at1 (alpha two_steps) j < at1 (alpha two_steps) i.
Proof. apply (beta_schedule_increasing 2 "resnet" 4 1 two_steps). exact two_steps_ok. Defined.

(** X2. In exact real arithmetic, after the first step the posterior
    variance [beta_tilde[n]] is positive and strictly below the forward
    variance [beta[n]].  Rounding to [float32] is outside this
    statement. *)
Theorem beta_tilde_under_beta N ty hd nl m n :
  DDPM_init N ty hd nl = Ok m -> (0 < n < Z.to_nat N)%nat ->
  0 < at1 (beta_tilde m) n < at1 (beta m) n.
Proof. intros Hinit. apply (beta_tilde_below_beta N ty hd nl m Hinit). Qed.

Lemma beta_tilde_under_beta_witness :
  0 < at1 (beta_tilde two_steps) 1 < at1 (beta two_steps) 1.
Proof.
  apply (beta_tilde_under_beta 2 "resnet" 4 1 two_steps 1).
  - exact two_steps_ok.
  - simpl. lia.
Defined.

(** X3. In exact real arithmetic, the share of the signal that is left
    at level [n] decays geometrically:
    [0.98^(n+1) <= alpha_bar[n] <= 0.9999^(n+1)].  Rounding to [float32],
    where the product can underflow to zero, is outside this
    statement. *)
Theorem alpha_bar_decay N ty hd nl m n :
  DDPM_init N ty hd nl = Ok m -> (n < Z.to_nat N)%nat ->
  0.98 ^ (S n) <= at1 (alpha_bar m) n <= 0.9999 ^ (S n).
Proof. intros Hinit. apply (alpha_bar_geometric N ty hd nl m Hinit). Qed.

Lemma alpha_bar_decay_witness :
  0.98 ^ 2 <= at1 (alpha_bar two_steps) 1 <= 0.9999 ^ 2.
Proof.
  apply (alpha_bar_decay 2 "resnet" 4 1 two_steps 1).
  - exact two_steps_ok.
  - simpl. lia.
Defined.

(** X4. The constructor builds the network first: an error of the
    network is the error of the constructor whatever [N] is.  With the
    network built, [N = 0] fails with an index error, at the entry
    [beta_tilde[0]] that does not exist, and a negative [N] fails in the
    tensor library. *)
Theorem DDPM_init_step_errors N ty hd nl :
  (forall e, select_model ty hd nl = Err e -> DDPM_init N ty hd nl = Err e)
  /\ (forall net, select_model ty hd nl = Ok net ->
        (N = 0%Z -> DDPM_init N ty hd nl = Err IndexError)
        /\ ((N < 0)%Z -> DDPM_init N ty hd nl = Err TorchError)).
Proof.
  split.
  - intros e. apply DDPM_init_network_error.
  - intros net Hs. split.
    + intros ->. apply (DDPM_init_zero_steps ty hd nl net Hs).
    + intros HN. apply (DDPM_init_negative_steps N ty hd nl net HN Hs).
Qed.

Lemma DDPM_init_step_errors_witness :
  DDPM_init 0 "unet" 8 5 = Err AssertionError
  /\ DDPM_init 0 "resnet" 4 1 = Err IndexError
  /\ DDPM_init (-3) "resnet" 4 1 = Err TorchError.
Proof.
  split; [| split].
  - apply (proj1 (DDPM_init_step_errors 0 "unet" 8 5)). reflexivity.
  - eapply (proj1 (proj2 (DDPM_init_step_errors 0 "resnet" 4 1) _ eq_refl)). reflexivity.
  - eapply (proj2 (proj2 (DDPM_init_step_errors (-3) "resnet" 4 1) _ eq_refl)). lia.
Defined.

(** X5. A residual network of widths that are not negative has
    [n_layers] residual blocks, none when [n_layers] is negative; its
    embedding takes the image and the noise level, [feature_dim + 1]
    channels, and every block takes [hidden_dim + 1] channels and returns
    [hidden_dim], with kernels of size 3 padded by 1. *)
Theorem ResNet_init_layers fd hd nl :
  (0 <= fd)%Z -> (0 <= hd)%Z ->
  exists net,
    ResNet_init fd hd nl = Ok net
    /\ length (res_layers net) = Z.to_nat nl
    /\ in_channels (res_embed net) = (fd + 1)%Z
    /\ out_channels (res_embed net) = hd
    /\ in_channels (res_out net) = hd
    /\ out_channels (res_out net) = fd
    /\ Forall (fun l => in_channels (fst l) = (hd + 1)%Z
                        /\ out_channels (fst l) = in_channels (snd l)
                        /\ out_channels (snd l) = hd
                        /\ kernel_size (fst l) = 3%Z /\ padding (fst l) = 1%Z
                        /\ kernel_size (snd l) = 3%Z /\ padding (snd l) = 1%Z)
         (res_layers net).
Proof.
  intros Hf Hh. eexists. split; [apply ResNet_init_eq; assumption|].
  cbn [res_layers res_embed res_out in_channels out_channels].
  rewrite length_map, range_length. repeat split.
  apply Forall_map, Forall_forall. intros x _. cbn. repeat split.
Qed.

Lemma ResNet_init_layers_witness :
  exists net,
    ResNet_init 1 4 3 = Ok net
    /\ length (res_layers net) = Z.to_nat 3
    /\ in_channels (res_embed net) = (1 + 1)%Z
    /\ out_channels (res_embed net) = 4%Z
    /\ in_channels (res_out net) = 4%Z
    /\ out_channels (res_out net) = 1%Z
    /\ Forall (fun l => in_channels (fst l) = (4 + 1)%Z
                        /\ out_channels (fst l) = in_channels (snd l)
                        /\ out_channels (snd l) = 4%Z
                        /\ kernel_size (fst l) = 3%Z /\ padding (fst l) = 1%Z
                        /\ kernel_size (snd l) = 3%Z /\ padding (snd l) = 1%Z)
         (res_layers net).
Proof. apply (ResNet_init_layers 1 4 3); lia. Defined.

(** X6. A U-net of depth [n_layers] in 0, 1, 2 has that many
    downscaling and upscaling blocks.  The block at depth [k] works on
    [4^k * hidden_dim] channels, and the upscaling block that pops its
    skip connection, the one at position [n_layers - 1 - k], takes twice
    the four-fold of these channels and one more: the rearranged output
    of the block, the skip connection and the noise level. *)
Theorem MiniUnet_init_wiring fd hd nl :
  (0 <= fd)%Z -> (0 <= hd)%Z -> (0 <= nl <= 2)%Z ->
  exists net,
    MiniUnet_init fd hd nl = Ok net
    /\ length (unet_downscaling net) = Z.to_nat nl
    /\ length (unet_upscaling net) = Z.to_nat nl
    /\ in_channels (fst (unet_bottom_map net)) = (4 ^ nl * hd + 1)%Z
    /\ out_channels (snd (unet_bottom_map net)) = (4 ^ nl * hd)%Z
    /\ forall k down, nth_error (unet_downscaling net) k = Some down ->
         in_channels (fst down) = (4 ^ Z.of_nat k * hd + 1)%Z
         /\ out_channels (snd down) = (4 ^ Z.of_nat k * hd)%Z
         /\ exists up,
              nth_error (unet_upscaling net) (Z.to_nat nl - 1 - k) = Some up
              /\ in_channels (fst up) = (2 * (4 * out_channels (snd down)) + 1)%Z
              /\ out_channels (snd up) = (4 * out_channels (snd down))%Z.
Proof.
  intros Hf Hh Hn. eexists. split; [apply MiniUnet_init_eq; assumption|].
  cbn [unet_downscaling unet_upscaling unet_bottom_map fst snd in_channels out_channels].
  rewrite !length_map, length_rev, range_length, range2_length.
  replace (nl + 1 - 1)%Z with nl by lia.
  do 4 (split; [reflexivity|]).
  intros k down Hd.
  assert (Hk : (k < Z.to_nat nl)%nat).
  { assert (Hs : nth_error (map (fun i => (mkConv2d (4 ^ i * hd + 1) (4 ^ i * hd) 3 1,
                                            mkConv2d (4 ^ i * hd) (4 ^ i * hd) 1 0))
                               (range nl)) k <> None) by (rewrite Hd; discriminate).
    apply nth_error_Some in Hs. now rewrite length_map, range_length in Hs. }
  rewrite nth_error_map, (nth_error_nth' _ 0%Z) in Hd by (now rewrite range_length).
  rewrite range_nth in Hd by exact Hk. cbn [option_map] in Hd. injection Hd as <-.
  cbn [fst snd in_channels out_channels].
  do 2 (split; [reflexivity|]).
  rewrite nth_error_map, (nth_error_nth' _ 0%Z) by (rewrite length_rev, range2_length; lia).
  rewrite rev_nth by (rewrite range2_length; lia).
  rewrite range2_length.
  replace (Z.to_nat (nl + 1 - 1) - S (Z.to_nat nl - 1 - k))%nat with k by lia.
  rewrite range2_nth by lia. cbn [option_map].
  eexists. split; [reflexivity|]. cbn [fst snd in_channels out_channels].
  replace (1 + Z.of_nat k)%Z with (Z.succ (Z.of_nat k)) by lia.
  rewrite Z.pow_succ_r by lia. split; ring.
Qed.

Lemma MiniUnet_init_wiring_witness :
  exists net,
    MiniUnet_init 1 8 2 = Ok net
    /\ length (unet_downscaling net) = Z.to_nat 2
    /\ length (unet_upscaling net) = Z.to_nat 2
    /\ in_channels (fst (unet_bottom_map net)) = (4 ^ 2 * 8 + 1)%Z
    /\ out_channels (snd (unet_bottom_map net)) = (4 ^ 2 * 8)%Z
    /\ forall k down, nth_error (unet_downscaling net) k = Some down ->
         in_channels (fst down) = (4 ^ Z.of_nat k * 8 + 1)%Z
         /\ out_channels (snd down) = (4 ^ Z.of_nat k * 8)%Z
         /\ exists up,
              nth_error (unet_upscaling net) (Z.to_nat 2 - 1 - k) = Some up
              /\ in_channels (fst up) = (2 * (4 * out_channels (snd down)) + 1)%Z
              /\ out_channels (snd up) = (4 * out_channels (snd down))%Z.
Proof. apply (MiniUnet_init_wiring 1 8 2); lia. Defined.

(** X7. [estimate_x0] checks its arguments before it reads the
    schedule: unless [z_n] and [epsilon] have one four-dimensional shape
    and [n] has one entry per image, it raises a type error, whatever the
    noise levels are.  On well-typed arguments a level outside [-N, N)
    raises an index error. *)
Theorem estimate_x0_failures N ty hd nl m z_n n epsilon :
  DDPM_init N ty hd nl = Ok m ->
  (~ (exists B C H W,
        shape z_n = [B; C; H; W] /\ shape epsilon = [B; C; H; W] /\ length n = B) ->
   estimate_x0 m z_n n epsilon = Err TypeError)
  /\ (forall B C H W,
        shape z_n = [B; C; H; W] -> shape epsilon = [B; C; H; W] -> length n = B ->
        Exists (fun k => (k < - N \/ N <= k)%Z) n ->
        estimate_x0 m z_n n epsilon = Err IndexError).
Proof.
  intros Hinit. split.
  - apply estimate_x0_ill_typed_err.
  - intros B C H W Sz Se Ln Hn.
    now apply (estimate_x0_out_of_range_err N ty hd nl m Hinit z_n epsilon n B C H W).
Qed.

Lemma estimate_x0_failures_witness :
  estimate_x0 two_steps (pixel 1) [] (pixel 2) = Err TypeError
  /\ estimate_x0 two_steps (pixel 1) [2%Z] (pixel 2) = Err IndexError.
Proof.
  split.
  - apply (proj1 (estimate_x0_failures 2 "resnet" 4 1 two_steps (pixel 1) [] (pixel 2)
                    two_steps_ok)).
    intros (B & C & H & W & Sz & _ & Ln). simpl in Ln. subst B. discriminate Sz.
  - apply (proj2 (estimate_x0_failures 2 "resnet" 4 1 two_steps (pixel 1) [2%Z] (pixel 2)
                    two_steps_ok) 1 1 1 1)%nat; try reflexivity.
    constructor. lia.
Defined.

(** X8. [estimate_x0] takes every level in [-N, N): a negative level
    [k] counts from the end of the schedule, so that the image is
    reconstructed with [alpha_bar[N + k]] and nothing is raised. *)
Theorem estimate_x0_negative_level N ty hd nl m z_n n epsilon B C H W :
  DDPM_init N ty hd nl = Ok m ->
  shape z_n = [B; C; H; W] -> wf z_n ->
  shape epsilon = [B; C; H; W] -> wf epsilon ->
  length n = B -> Forall (fun k => (- N <= k < N)%Z) n ->
  exists x0,
    estimate_x0 m z_n n epsilon = Ok x0 /\ shape x0 = [B; C; H; W] /\ wf x0 /\
    forall b c h w, (b < B)%nat -> (c < C)%nat -> (h < H)%nat -> (w < W)%nat ->
      let k := nth b n 0%Z in
      let alpha_bar_n :=
        at1 (alpha_bar m) (Z.to_nat (if (k <? 0)%Z then N + k else k)) in
      at4 x0 b c h w
      = (at4 z_n b c h w - R_sqrt.sqrt (1 - alpha_bar_n) * at4 epsilon b c h w)
        / R_sqrt.sqrt alpha_bar_n.
Proof. intros. now apply (estimate_x0_wrapping_entries N ty hd nl m). Qed.

Lemma estimate_x0_negative_level_witness :
  exists x0,
    estimate_x0 two_steps (pixel 3) [(-1)%Z] (pixel 2) = Ok x0
    /\ shape x0 = [1; 1; 1; 1]%nat /\ wf x0 /\
    forall b c h w, (b < 1)%nat -> (c < 1)%nat -> (h < 1)%nat -> (w < 1)%nat ->
      let k := nth b [(-1)%Z] 0%Z in
      let alpha_bar_n :=
        at1 (alpha_bar two_steps) (Z.to_nat (if (k <? 0)%Z then 2 + k else k)) in
      at4 x0 b c h w
      = (at4 (pixel 3) b c h w - R_sqrt.sqrt (1 - alpha_bar_n) * at4 (pixel 2) b c h w)
        / R_sqrt.sqrt alpha_bar_n.
Proof.
  apply (estimate_x0_negative_level 2 "resnet" 4 1 two_steps (pixel 3) [(-1)%Z] (pixel 2)
           1 1 1 1);
    first [exact two_steps_ok | reflexivity | (repeat constructor; lia)].
Defined.

(** X9. In exact real arithmetic, [estimate_x0] inverts the forward
    map of the paper: from
    [z_n = sqrt(alpha_bar[n]) * x0 + sqrt(1 - alpha_bar[n]) * epsilon] and
    that [epsilon] it returns [x0].  Rounding to [float32], where
    [alpha_bar[n]] can underflow to zero, is outside this statement. *)
Theorem estimate_x0_inverts_noising N ty hd nl m x0 z_n n epsilon B C H W :
  DDPM_init N ty hd nl = Ok m ->
  shape z_n = [B; C; H; W] -> wf z_n ->
  shape epsilon = [B; C; H; W] -> wf epsilon ->
  length n = B -> Forall (fun k => (0 <= k < N)%Z) n ->
  (forall b c h w, (b < B)%nat -> (c < C)%nat -> (h < H)%nat -> (w < W)%nat ->
     let alpha_bar_n := at1 (alpha_bar m) (Z.to_nat (nth b n 0%Z)) in
     at4 z_n b c h w
     = R_sqrt.sqrt alpha_bar_n * at4 x0 b c h w
       + R_sqrt.sqrt (1 - alpha_bar_n) * at4 epsilon b c h w) ->
  exists x,
    estimate_x0 m z_n n epsilon = Ok x /\
    forall b c h w, (b < B)%nat -> (c < C)%nat -> (h < H)%nat -> (w < W)%nat ->
      at4 x b c h w = at4 x0 b c h w.
Proof. intros. now apply (estimate_x0_inverts_forward N ty hd nl m). Qed.

Lemma estimate_x0_inverts_noising_witness :
  let abar := at1 (alpha_bar two_steps) 1 in
  exists x,
    estimate_x0 two_steps
      (pixel (R_sqrt.sqrt abar * 3 + R_sqrt.sqrt (1 - abar) * 2)) [1%Z] (pixel 2) = Ok x /\
    forall b c h w, (b < 1)%nat -> (c < 1)%nat -> (h < 1)%nat -> (w < 1)%nat ->
      at4 x b c h w = at4 (pixel 3) b c h w.
Proof.
  intros abar.
  apply (estimate_x0_inverts_noising 2 "resnet" 4 1 two_steps (pixel 3)
           (pixel (R_sqrt.sqrt abar * 3 + R_sqrt.sqrt (1 - abar) * 2)) [1%Z]
           (pixel 2) 1 1 1 1);
    try first [exact two_steps_ok | reflexivity | (repeat constructor; lia)].
  intros b c h w Hb Hc Hh Hw. cbv zeta.
  replace b with 0%nat by lia. replace c with 0%nat by lia.
  replace h with 0%nat by lia. replace w with 0%nat by lia.
  rewrite !pixel_at. reflexivity.
Defined.

(** X10. [batch_broadcast(a, b)] asserts that [a] has one dimension.
    For [a] with one entry per sample of [b], whatever the rank of [b],
    it returns the entries of [a] in a shape of as many dimensions as
    [b], all but the first of size one, and its product with [b] scales
    every entry of sample [i] by [a[i]]. *)
Theorem batch_broadcast_scales a b B s :
  (ndim a <> 1%nat -> batch_broadcast a b = Err AssertionError)
  /\ (shape a = [B] -> wf a -> shape b = B :: s -> wf b ->
      exists v p,
        batch_broadcast a b = Ok v
        /\ shape v = B :: repeat 1%nat (length s) /\ data v = data a
        /\ mul v b = Ok p /\ shape p = B :: s
        /\ forall i, (i < B * numel s)%nat ->
             at1 p i = at1 a (i / numel s) * at1 b i).
Proof.
  split.
  - apply batch_broadcast_not_vector.
  - apply batch_broadcast_mul_entries.
Qed.

Lemma batch_broadcast_scales_witness :
  exists v p,
    batch_broadcast (mkTensor [2]%nat [3; 5]) (mkTensor [2; 2]%nat [1; 2; 3; 4]) = Ok v
    /\ shape v = 2%nat :: repeat 1%nat (length [2%nat]) /\ data v = [3; 5]
    /\ mul v (mkTensor [2; 2]%nat [1; 2; 3; 4]) = Ok p /\ shape p = [2; 2]%nat
    /\ forall i, (i < 2 * numel [2%nat])%nat ->
         at1 p i = at1 (mkTensor [2]%nat [3; 5]) (i / numel [2%nat])
                   * at1 (mkTensor [2; 2]%nat [1; 2; 3; 4]) i.
Proof.
  apply (proj2 (batch_broadcast_scales (mkTensor [2]%nat [3; 5])
                  (mkTensor [2; 2]%nat [1; 2; 3; 4]) 2 [2%nat])); reflexivity.
Defined.

(** X11. At the levels of one and above [sample_z_n_previous] draws
    [mu + beta_tilde[n] * xi], where [mu] weighs [z_n] by
    [sqrt(alpha[n]) * (1 - alpha_bar[n-1]) / (1 - alpha_bar[n])] and [x0]
    by [sqrt(alpha_bar[n-1]) * beta[n] / (1 - alpha_bar[n])].  Entry [i]
    of the result takes draw [i] of the generator, and the generator
    that comes back starts after one draw per entry. *)
Theorem sample_z_n_previous_positive_level N ty hd nl m x0 z_n n g B C H W :
  DDPM_init N ty hd nl = Ok m ->
  shape x0 = [B; C; H; W] -> wf x0 ->
  shape z_n = [B; C; H; W] -> wf z_n ->
  length n = B ->
  Forall (fun k => (0 <= k < N)%Z) n ->
  Forall (fun k => (- 2 ^ 63 <= k < 2 ^ 63)%Z) n ->
  exists z g',
    sample_z_n_previous m x0 z_n n g = Ok (z, g')
    /\ shape z = [B; C; H; W] /\ wf z
    /\ (forall i, g' i = g (i + B * C * H * W)%nat)
    /\ forall b c h w, (b < B)%nat -> (c < C)%nat -> (h < H)%nat -> (w < W)%nat ->
         (1 <= nth b n 0)%Z ->
         let k := Z.to_nat (nth b n 0%Z) in
         let xi := g (((b * C + c) * H + h) * W + w)%nat in
         at4 z b c h w
         = at4 z_n b c h w * R_sqrt.sqrt (at1 (alpha m) k) * (1 - at1 (alpha_bar m) (k - 1))
             / (1 - at1 (alpha_bar m) k)
           + at4 x0 b c h w * R_sqrt.sqrt (at1 (alpha_bar m) (k - 1)) * at1 (beta m) k
             / (1 - at1 (alpha_bar m) k)
           + at1 (beta_tilde m) k * xi.
Proof. intros. now apply (sample_z_n_previous_positive_entries N ty hd nl m). Qed.

Lemma sample_z_n_previous_positive_level_witness :
  exists z g',
    sample_z_n_previous two_steps (pixel 1) (pixel 2) [1%Z] all_ones = Ok (z, g')
    /\ shape z = [1; 1; 1; 1]%nat /\ wf z
    /\ (forall i, g' i = all_ones (i + 1 * 1 * 1 * 1)%nat)
    /\ forall b c h w, (b < 1)%nat -> (c < 1)%nat -> (h < 1)%nat -> (w < 1)%nat ->
         (1 <= nth b [1%Z] 0)%Z ->
         let k := Z.to_nat (nth b [1%Z] 0%Z) in
         let xi := all_ones (((b * 1 + c) * 1 + h) * 1 + w)%nat in
         at4 z b c h w
         = at4 (pixel 2) b c h w * R_sqrt.sqrt (at1 (alpha two_steps) k)
             * (1 - at1 (alpha_bar two_steps) (k - 1)) / (1 - at1 (alpha_bar two_steps) k)
           + at4 (pixel 1) b c h w * R_sqrt.sqrt (at1 (alpha_bar two_steps) (k - 1))
             * at1 (beta two_steps) k / (1 - at1 (alpha_bar two_steps) k)
           + at1 (beta_tilde two_steps) k * xi.
Proof.
  apply (sample_z_n_previous_positive_level 2 "resnet" 4 1 two_steps (pixel 1) (pixel 2)
           [1%Z] all_ones 1 1 1 1);
    first [exact two_steps_ok | reflexivity | (repeat constructor; lia)].
Defined.

(** X12. In exact real arithmetic, the mean of the reverse step is
    consistent with the schedule:
    where [z_n] is the clean image scaled for level [n],
    [sqrt(alpha_bar[n]) * x0], the draw is the clean image scaled for
    level [n - 1], [sqrt(alpha_bar[n-1]) * x0], plus the noise
    [beta_tilde[n] * xi]. *)
Theorem sample_z_n_previous_on_clean_image N ty hd nl m x0 z_n n g B C H W :
  DDPM_init N ty hd nl = Ok m ->
  shape x0 = [B; C; H; W] -> wf x0 ->
  shape z_n = [B; C; H; W] -> wf z_n ->
  length n = B ->
  Forall (fun k => (0 <= k < N)%Z) n ->
  Forall (fun k => (- 2 ^ 63 <= k < 2 ^ 63)%Z) n ->
  exists z g',
    sample_z_n_previous m x0 z_n n g = Ok (z, g') /\
    forall b c h w, (b < B)%nat -> (c < C)%nat -> (h < H)%nat -> (w < W)%nat ->
      (1 <= nth b n 0)%Z ->
      let k := Z.to_nat (nth b n 0%Z) in
      let xi := g (((b * C + c) * H + h) * W + w)%nat in
      at4 z_n b c h w = R_sqrt.sqrt (at1 (alpha_bar m) k) * at4 x0 b c h w ->
      at4 z b c h w
      = R_sqrt.sqrt (at1 (alpha_bar m) (k - 1)) * at4 x0 b c h w
        + at1 (beta_tilde m) k * xi.
Proof. intros. now apply (sample_z_n_previous_keeps_clean_image N ty hd nl m). Qed.

Lemma sample_z_n_previous_on_clean_image_witness :
  exists z g',
    sample_z_n_previous two_steps (pixel 3)
      (pixel (R_sqrt.sqrt (at1 (alpha_bar two_steps) 1) * 3)) [1%Z] all_ones = Ok (z, g') /\
    at4 z 0 0 0 0
    = R_sqrt.sqrt (at1 (alpha_bar two_steps) 0) * 3 + at1 (beta_tilde two_steps) 1 * 1.
Proof.
  destruct (sample_z_n_previous_on_clean_image 2 "resnet" 4 1 two_steps (pixel 3)
              (pixel (R_sqrt.sqrt (at1 (alpha_bar two_steps) 1) * 3)) [1%Z] all_ones
              1 1 1 1) as (z & g' & E & F);
    try first [exact two_steps_ok | reflexivity | (repeat constructor; lia)].
  exists z, g'. split; [exact E|].
  specialize (F 0 0 0 0 ltac:(lia) ltac:(lia) ltac:(lia) ltac:(lia))%nat.
  cbv zeta in F. cbn [nth] in F. rewrite !pixel_at in F.
  apply F; [lia | reflexivity].
Defined.





(** X15. [sample] uses one draw of the generator per pixel for the
    first noise and one per pixel for each of the [N - 1] reverse steps:
    the generator that comes back starts [N * batch_size * 784] draws
    further on. *)
Theorem sample_draws_per_step forward N ty hd nl m batch_size g :
  DDPM_init N ty hd nl = Ok m ->
  (N < 2 ^ 63)%Z ->
  (0 <= batch_size)%Z ->
  (forall z t,
     shape z = [Z.to_nat batch_size; 1; 28; 28]%nat -> wf z ->
     shape t = [Z.to_nat batch_size] -> wf t ->
     exists e, forward (model m) z t = Ok e
               /\ shape e = [Z.to_nat batch_size; 1; 28; 28]%nat /\ wf e) ->
  exists x0 g',
    sample forward m batch_size g = Ok (x0, g')
    /\ forall i, g' i = g (i + Z.to_nat N * (Z.to_nat batch_size * 784))%nat.
Proof.
  intros Hinit Hbits Hb Hf.
  destruct (sample_draws forward N ty hd nl m Hinit Hbits (Z.to_nat batch_size) Hf g)
    as (x0 & g' & E & Hg).
  rewrite (Z2Nat.id batch_size Hb) in E.
  exists x0, g'. split; [exact E|].
  intros i. rewrite Hg. f_equal. lia.
Qed.

Lemma sample_draws_per_step_witness :
  exists x0 g',
    sample echo two_steps 1 all_ones = Ok (x0, g')
    /\ forall i, g' i = all_ones (i + Z.to_nat 2 * (Z.to_nat 1 * 784))%nat.
Proof.
  apply (sample_draws_per_step echo 2 "resnet" 4 1 two_steps 1 all_ones).
  - exact two_steps_ok.
  - lia.
  - lia.
  - intros z t Sz Wz _ _. exists z. split; [reflexivity|]. split; assumption.
Defined.

End DdpmMore.

(** ** More of the variational autoencoder *)

Module VaeMore.

Import Torch TorchFacts TorchMore Vae VaeFacts VaeTraining.
Open Scope R_scope.
Open Scope result_scope.

Lemma latent_typecheck_spec mu logsigma :
  typecheck_latent mu logsigma = true
  <-> exists B L, shape mu = [B; L] /\ shape logsigma = [B; L].
Proof.
  unfold typecheck_latent, ndim. split.
  - intros H. apply andb_prop in H. destruct H as [Hd Hs].
    apply Nat.eqb_eq in Hd. unfold shape_eqb in Hs.
    destruct (list_eq_dec Nat.eq_dec (shape mu) (shape logsigma)) as [E|]; [|discriminate].
    destruct (shape mu) as [|B [|L [|? ?]]] eqn:Sm; simpl in Hd; try lia.
    exists B, L. now rewrite <- E.
  - intros (B & L & -> & ->). now rewrite shape_eqb_refl.
Qed.

Lemma kl_divergence_ill_typed mu logsigma :
  ~ (exists B L, shape mu = [B; L] /\ shape logsigma = [B; L]) ->
  kl_divergence mu logsigma = Err TypeError.
Proof.
  intros H. unfold kl_divergence.
  destruct (typecheck_latent mu logsigma) eqn:E; [|reflexivity].
  exfalso. apply H. now apply latent_typecheck_spec.
Qed.

Lemma kl_divergence_outcomes mu logsigma :
  wf mu -> wf logsigma ->
  (kl_divergence mu logsigma = Err TypeError
   <-> ~ (exists B L, shape mu = [B; L] /\ shape logsigma = [B; L]))
  /\ ((exists B L, shape mu = [B; L] /\ shape logsigma = [B; L])
      -> exists kl, kl_divergence mu logsigma = Ok kl).
Proof.
  intros Wm Wl. split; [split|].
  - intros E (B & L & Sm & Sl).
    rewrite (kl_divergence_eq mu logsigma B L Sm Wm Sl Wl) in E. discriminate.
  - apply kl_divergence_ill_typed.
  - intros (B & L & Sm & Sl). eexists. apply (kl_divergence_eq mu logsigma B L Sm Wm Sl Wl).
Qed.

Lemma sum_over_nonneg k f :
  (forall j, (j < k)%nat -> 0 <= f j) -> 0 <= Spec.sum_over k f.
Proof.
  intros Hf. unfold Spec.sum_over. apply sum_list_nonneg.
  rewrite Forall_map, Forall_forall. intros j Hj. apply in_seq in Hj. apply Hf. lia.
Qed.

Section Latent.

Variables (mu logsigma : Tensor) (B L : nat).
Hypothesis Sm : shape mu = [B; L].
Hypothesis Wm : wf mu.
Hypothesis Sl : shape logsigma = [B; L].
Hypothesis Wl : wf logsigma.

Lemma kl_per_sample_nonneg b : 0 <= Spec.kl_per_sample mu logsigma b.
Proof.
  unfold Spec.kl_per_sample.
  assert (0 <= Spec.sum_over (nth 1 (shape mu) 0%nat)
                 (fun j => Spec.kl_term (at2 mu b j) (at2 logsigma b j)))
    by (apply sum_over_nonneg; intros; apply kl_term_nonneg).
  lra.
Qed.

Lemma kl_divergence_nonneg_entries :
  exists kl,
    kl_divergence mu logsigma = Ok kl /\
    forall b, (b < B)%nat -> 0 <= at1 kl b.
Proof.
  destruct (kl_divergence_entries mu logsigma B L Sm Wm Sl Wl) as (kl & E & _ & _ & F).
  exists kl. split; [exact E|]. intros b Hb.
  destruct (F b Hb) as [-> _]. apply kl_per_sample_nonneg.
Qed.

Variable g : rng.



End Latent.



Section Elbo.

Variable encoder : Tensor -> result (Tensor * Tensor).
Variable decoder : Tensor -> result Tensor.
Variable binary_cross_entropy : Tensor -> Tensor -> result Tensor.

Variables (x mu logsigma : Tensor) (g : rng) (B D L : nat).
Hypothesis Sx : shape x = [B; D].
Hypothesis Henc : encoder x = Ok (mu, logsigma).
Hypothesis Sm : shape mu = [B; L].
Hypothesis Wm : wf mu.
Hypothesis Sl : shape logsigma = [B; L].
Hypothesis Wl : wf logsigma.
Hypothesis Hdec :
  forall z, shape z = [B; L] -> wf z ->
    exists theta, decoder z = Ok theta /\ shape theta = [B; D] /\ wf theta.
Hypothesis Hbce :
  forall theta, shape theta = [B; D] -> wf theta ->
    exists c, binary_cross_entropy theta x = Ok c /\ shape c = [B; D] /\ wf c.


End Elbo.

Import ExamplesMore.

(** *** Further statements about the autoencoder *)

(** X16. In exact real arithmetic, the divergence that [kl_divergence]
    returns is not negative, for any sample of the batch.  Rounding to
    [float32], which can leave a result just below zero, is outside this
    statement. *)
Theorem kl_divergence_nonneg mu logsigma B L :
  shape mu = [B; L] -> wf mu -> shape logsigma = [B; L] -> wf logsigma ->
  exists kl,
    kl_divergence mu logsigma = Ok kl /\
    forall b, (b < B)%nat -> 0 <= at1 kl b.
Proof. apply kl_divergence_nonneg_entries. Qed.

Lemma kl_divergence_nonneg_witness :
  exists kl,
    kl_divergence (mkTensor [1; 2]%nat [3; 1]) (mkTensor [1; 2]%nat [0; 2]) = Ok kl /\
    forall b, (b < 1)%nat -> 0 <= at1 kl b.
Proof.
  apply (kl_divergence_nonneg (mkTensor [1; 2]%nat [3; 1]) (mkTensor [1; 2]%nat [0; 2]) 1 2);
    reflexivity.
Defined.

(** X17. [kl_divergence] raises a type error exactly when [mu] and
    [logsigma] do not have one and the same two-dimensional shape;
    otherwise it returns. *)
Theorem kl_divergence_type_error mu logsigma :
  wf mu -> wf logsigma ->
  (kl_divergence mu logsigma = Err TypeError
   <-> ~ (exists B L, shape mu = [B; L] /\ shape logsigma = [B; L]))
  /\ ((exists B L, shape mu = [B; L] /\ shape logsigma = [B; L])
      -> exists kl, kl_divergence mu logsigma = Ok kl).
Proof. apply kl_divergence_outcomes. Qed.

Lemma kl_divergence_type_error_witness :
  (kl_divergence (mkTensor [2]%nat [3; 1]) (mkTensor [2]%nat [0; 2]) = Err TypeError
   <-> ~ (exists B L, [2%nat] = [B; L] /\ [2%nat] = [B; L]))
  /\ ((exists B L, [2%nat] = [B; L] /\ [2%nat] = [B; L])
      -> exists kl, kl_divergence (mkTensor [2]%nat [3; 1]) (mkTensor [2]%nat [0; 2]) = Ok kl).
Proof.
  apply (kl_divergence_type_error (mkTensor [2]%nat [3; 1]) (mkTensor [2]%nat [0; 2]));
    reflexivity.
Defined.





End VaeMore.

(** ** The rearrangements *)

Module EinopsFacts.

Import Torch TorchFacts Einops.
Open Scope R_scope.
Open Scope result_scope.

Example space_to_depth_block (a b c d : R) :
  space_to_depth (mkTensor [1; 1; 2; 2]%nat [a; b; c; d])
  = Ok (mkTensor [1; 4; 1; 1]%nat [a; b; c; d]).
Proof. reflexivity. Qed.

Example space_to_depth_row (a b c d e f g h : R) :
  space_to_depth (mkTensor [1; 1; 2; 4]%nat [a; b; c; d; e; f; g; h])
  = Ok (mkTensor [1; 4; 1; 2]%nat [a; c; b; d; e; g; f; h]).
Proof. reflexivity. Qed.

Example depth_to_space_row (a b c d e f g h : R) :
  depth_to_space (mkTensor [1; 4; 1; 2]%nat [a; c; b; d; e; g; f; h])
  = Ok (mkTensor [1; 1; 2; 4]%nat [a; b; c; d; e; f; g; h]).
Proof. reflexivity. Qed.

Example space_to_depth_odd (a b c : R) :
  space_to_depth (mkTensor [1; 1; 1; 3]%nat [a; b; c]) = Err TorchError.
Proof. reflexivity. Qed.

(** *** Row-major positions *)

Lemma unravel4_ravel C H W b c h w :
  (c < C)%nat -> (h < H)%nat -> (w < W)%nat ->
  unravel4 C H W (((b * C + c) * H + h) * W + w) = (b, c, h, w).
Proof.
  intros Hc Hh Hw. unfold unravel4.
  assert (E1 : ((((b * C + c) * H + h) * W + w) / W = (b * C + c) * H + h)%nat).
  { rewrite Nat.div_add_l by lia. rewrite Nat.div_small by exact Hw. lia. }
  assert (E2 : (((b * C + c) * H + h) / H = b * C + c)%nat).
  { rewrite Nat.div_add_l by lia. rewrite Nat.div_small by exact Hh. lia. }
  assert (E3 : ((b * C + c) / C = b)%nat).
  { rewrite Nat.div_add_l by lia. rewrite Nat.div_small by exact Hc. lia. }
  rewrite E1, E2, E3. repeat f_equal.
  - rewrite Nat.add_comm, Nat.Div0.mod_add. now apply Nat.mod_small.
  - rewrite Nat.add_comm, Nat.Div0.mod_add. now apply Nat.mod_small.
  - rewrite Nat.add_comm, Nat.Div0.mod_add. now apply Nat.mod_small.
Qed.

Lemma ravel_unravel4 C H W p :
  let '(b, c, h, w) := unravel4 C H W p in
  (((b * C + c) * H + h) * W + w = p)%nat.
Proof.
  unfold unravel4.
  pose proof (Nat.div_mod_eq p W) as E1.
  pose proof (Nat.div_mod_eq (p / W) H) as E2.
  pose proof (Nat.div_mod_eq (p / W / H) C) as E3.
  set (q1 := (p / W)%nat) in *. set (q2 := (q1 / H)%nat) in *. set (q3 := (q2 / C)%nat) in *.
  replace (q3 * C + q2 mod C)%nat with q2 by lia.
  replace (q2 * H + q1 mod H)%nat with q1 by lia.
  lia.
Qed.

Lemma unravel4_bounds B C H W p :
  (p < B * C * H * W)%nat ->
  let '(b, c, h, w) := unravel4 C H W p in
  (b < B /\ c < C /\ h < H /\ w < W)%nat.
Proof.
  intros Hp. unfold unravel4.
  assert (HW : (0 < W)%nat) by (destruct W; lia).
  assert (HH : (0 < H)%nat) by (destruct H; [rewrite Nat.mul_0_r in Hp; lia | lia]).
  assert (HC : (0 < C)%nat) by (destruct C; [rewrite Nat.mul_0_r in Hp; simpl in Hp; lia | lia]).
  repeat split.
  - apply Nat.Div0.div_lt_upper_bound. apply Nat.Div0.div_lt_upper_bound.
    apply Nat.Div0.div_lt_upper_bound. 
    replace (W * (H * (C * B)))%nat with (B * C * H * W)%nat by ring. exact Hp.
  - apply Nat.mod_upper_bound. lia.
  - apply Nat.mod_upper_bound. lia.
  - apply Nat.mod_upper_bound. lia.
Qed.

Lemma ravel4_lt B C H W b c h w :
  (b < B)%nat -> (c < C)%nat -> (h < H)%nat -> (w < W)%nat ->
  (((b * C + c) * H + h) * W + w < B * C * H * W)%nat.
Proof.
  intros Hb Hc Hh Hw. destruct (ravel4 B C H W b c h w Hb Hc Hh Hw) as [Hi _].
  simpl numel in Hi. rewrite Nat.mul_1_r in Hi.
  replace (B * C * H * W)%nat with (B * (C * (H * W)))%nat by ring. exact Hi.
Qed.

(** The channel [(c, h2, w2)] of a block, and back. *)
Lemma block_channel c h2 w2 :
  (h2 < 2)%nat -> (w2 < 2)%nat ->
  let k := ((c * 2 + h2) * 2 + w2)%nat in
  (k / 2 / 2 = c /\ (k / 2) mod 2 = h2 /\ k mod 2 = w2)%nat.
Proof.
  intros H2 W2 k. subst k.
  assert (E1 : (((c * 2 + h2) * 2 + w2) / 2 = c * 2 + h2)%nat).
  { rewrite Nat.div_add_l by lia. rewrite Nat.div_small by exact W2. lia. }
  rewrite E1. repeat split.
  - rewrite Nat.div_add_l by lia. rewrite Nat.div_small by exact H2. lia.
  - rewrite Nat.add_comm, Nat.Div0.mod_add. now apply Nat.mod_small.
  - rewrite Nat.add_comm, Nat.Div0.mod_add. now apply Nat.mod_small.
Qed.

Lemma channel_block k :
  (((k / 2 / 2) * 2 + (k / 2) mod 2) * 2 + k mod 2 = k)%nat.
Proof.
  pose proof (Nat.div_mod_eq k 2) as E1.
  pose proof (Nat.div_mod_eq (k / 2) 2) as E2.
  lia.
Qed.

Lemma halves y : ((y / 2) * 2 + y mod 2 = y)%nat.
Proof. pose proof (Nat.div_mod_eq y 2). lia. Qed.

Lemma nth_map_seq (f : nat -> R) n i :
  (i < n)%nat -> nth i (map f (seq 0 n)) 0 = f i.
Proof.
  intros H. rewrite (nth_indep _ 0 (f 0%nat)) by (now rewrite length_map, length_seq).
  rewrite (map_nth f), seq_nth by exact H. reflexivity.
Qed.

(** *** The two rearrangements *)

Lemma space_to_depth_eq t B C h w :
  shape t = [B; C; h * 2; w * 2]%nat ->
  space_to_depth t
  = Ok (mkTensor [B; C * 2 * 2; h; w]%nat
          (map (fun o =>
                  let '(b, k, i, j) := unravel4 (C * 2 * 2) h w o in
                  nth (((b * C + k / 2 / 2) * (h * 2) + (i * 2 + (k / 2) mod 2)) * (w * 2)
                       + (j * 2 + k mod 2)) (data t) 0)
               (seq 0 (numel [B; C * 2 * 2; h; w]%nat)))).
Proof.
  intros St. unfold space_to_depth. rewrite St.
  rewrite !Nat.even_mul. cbn [Nat.even orb andb]. rewrite !orb_true_r. cbn [andb].
  cbv zeta. rewrite !Nat.div_mul by lia. reflexivity.
Qed.

Lemma depth_to_space_eq t B C h w :
  shape t = [B; C * 2 * 2; h; w]%nat ->
  depth_to_space t
  = Ok (mkTensor [B; C; h * 2; w * 2]%nat
          (map (fun p =>
                  let '(b, c, y, x) := unravel4 C (h * 2) (w * 2) p in
                  nth (((b * (C * 2 * 2) + ((c * 2 + y mod 2) * 2 + x mod 2)) * h + y / 2) * w
                       + x / 2) (data t) 0)
               (seq 0 (numel [B; C; h * 2; w * 2]%nat)))).
Proof.
  intros St. unfold depth_to_space. rewrite St.
  replace (C * 2 * 2)%nat with (C * 4)%nat by lia.
  rewrite Nat.Div0.mod_mul. cbn [Nat.eqb]. cbv zeta.
  rewrite Nat.div_mul by lia. reflexivity.
Qed.

Lemma numel4 B C H W : numel [B; C; H; W] = (B * C * H * W)%nat.
Proof. simpl. ring. Qed.

Section RoundTrip.

Variables (B C h w : nat).

Lemma space_to_depth_then_back t :
  shape t = [B; C; h * 2; w * 2]%nat -> wf t ->
  exists d,
    space_to_depth t = Ok d
    /\ shape d = [B; C * 2 * 2; h; w]%nat /\ wf d
    /\ (forall b c i j h2 w2,
          (b < B)%nat -> (c < C)%nat -> (i < h)%nat -> (j < w)%nat ->
          (h2 < 2)%nat -> (w2 < 2)%nat ->
          at4 d b ((c * 2 + h2) * 2 + w2) i j = at4 t b c (i * 2 + h2) (j * 2 + w2))
    /\ depth_to_space d = Ok t.
Proof.
  intros St Wt.
  assert (Lt : length (data t) = (B * C * (h * 2) * (w * 2))%nat)
    by (rewrite Wt, St; apply numel4).
  rewrite (space_to_depth_eq t B C h w St).
  eexists. split; [reflexivity|].
  split; [reflexivity|]. split.
  { unfold wf. cbn [data shape]. now rewrite length_map, length_seq. }
  split.
  { intros b c i j h2 w2 Hb Hc Hi Hj Hh2 Hw2.
    unfold at4. cbn [shape data]. rewrite St.
    assert (Hk : ((c * 2 + h2) * 2 + w2 < C * 2 * 2)%nat) by lia.
    rewrite nth_map_seq by (rewrite numel4; now apply ravel4_lt).
    rewrite unravel4_ravel by assumption.
    destruct (block_channel c h2 w2 Hh2 Hw2) as (-> & -> & ->). reflexivity. }
  rewrite (depth_to_space_eq _ B C h w) by reflexivity. cbn [data].
  destruct t as [st dt]. cbn [shape data] in *. subst st. f_equal. f_equal.
  apply (nth_ext _ _ 0 0).
  { now rewrite length_map, length_seq, numel4. }
  intros p Hp. rewrite length_map, length_seq, numel4 in Hp.
  rewrite nth_map_seq by (now rewrite numel4).
  pose proof (ravel_unravel4 C (h * 2) (w * 2) p) as R.
  pose proof (unravel4_bounds B C (h * 2) (w * 2) p Hp) as Bd.
  destruct (unravel4 C (h * 2) (w * 2) p) as [[[b c] y] x].
  destruct Bd as (Hb & Hc & Hy & Hx).
  assert (Hy2 : (y mod 2 < 2)%nat) by (apply Nat.mod_upper_bound; lia).
  assert (Hx2 : (x mod 2 < 2)%nat) by (apply Nat.mod_upper_bound; lia).
  assert (Hyh : (y / 2 < h)%nat) by (apply Nat.Div0.div_lt_upper_bound; lia).
  assert (Hxw : (x / 2 < w)%nat) by (apply Nat.Div0.div_lt_upper_bound; lia).
  assert (Hk : ((c * 2 + y mod 2) * 2 + x mod 2 < C * 2 * 2)%nat) by lia.
  rewrite nth_map_seq by (rewrite numel4; now apply ravel4_lt).
  rewrite unravel4_ravel by assumption.
  destruct (block_channel c (y mod 2) (x mod 2) Hy2 Hx2) as (-> & -> & ->).
  rewrite !halves. now rewrite R.
Qed.

Lemma depth_to_space_then_back d :
  shape d = [B; C * 2 * 2; h; w]%nat -> wf d ->
  exists t,
    depth_to_space d = Ok t
    /\ shape t = [B; C; h * 2; w * 2]%nat /\ wf t
    /\ space_to_depth t = Ok d.
Proof.
  intros Sd Wd.
  assert (Ld : length (data d) = (B * (C * 2 * 2) * h * w)%nat)
    by (rewrite Wd, Sd; apply numel4).
  rewrite (depth_to_space_eq d B C h w Sd).
  eexists. split; [reflexivity|].
  split; [reflexivity|]. split.
  { unfold wf. cbn [data shape]. now rewrite length_map, length_seq. }
  rewrite (space_to_depth_eq _ B C h w) by reflexivity. cbn [data].
  destruct d as [sd dd]. cbn [shape data] in *. subst sd. f_equal. f_equal.
  apply (nth_ext _ _ 0 0).
  { now rewrite length_map, length_seq, numel4. }
  intros o Ho. rewrite length_map, length_seq, numel4 in Ho.
  rewrite nth_map_seq by (now rewrite numel4).
  pose proof (ravel_unravel4 (C * 2 * 2) h w o) as R.
  pose proof (unravel4_bounds B (C * 2 * 2) h w o Ho) as Bd.
  destruct (unravel4 (C * 2 * 2) h w o) as [[[b k] i] j].
  destruct Bd as (Hb & Hk & Hi & Hj).
  assert (Hh2 : ((k / 2) mod 2 < 2)%nat) by (apply Nat.mod_upper_bound; lia).
  assert (Hw2 : (k mod 2 < 2)%nat) by (apply Nat.mod_upper_bound; lia).
  assert (Hc : (k / 2 / 2 < C)%nat).
  { apply Nat.Div0.div_lt_upper_bound. apply Nat.Div0.div_lt_upper_bound. lia. }
  rewrite nth_map_seq by (rewrite numel4; apply ravel4_lt; lia).
  rewrite unravel4_ravel by lia.
  assert (E1 : ((i * 2 + (k / 2) mod 2) mod 2 = (k / 2) mod 2)%nat).
  { rewrite Nat.add_comm, Nat.Div0.mod_add. now apply Nat.mod_small. }
  assert (E2 : ((j * 2 + k mod 2) mod 2 = k mod 2)%nat).
  { rewrite Nat.add_comm, Nat.Div0.mod_add. now apply Nat.mod_small. }
  assert (E3 : ((i * 2 + (k / 2) mod 2) / 2 = i)%nat).
  { rewrite Nat.div_add_l by lia. rewrite Nat.div_small by exact Hh2. lia. }
  assert (E4 : ((j * 2 + k mod 2) / 2 = j)%nat).
  { rewrite Nat.div_add_l by lia. rewrite Nat.div_small by exact Hw2. lia. }
  rewrite E1, E2, E3, E4, channel_block. now rewrite R.
Qed.

End RoundTrip.

(** An image of 28 by 28 pixels can be halved twice and no further. *)
Lemma space_to_depth_mnist t B C :
  shape t = [B; C; 28; 28]%nat ->
  exists d1 d2,
    space_to_depth t = Ok d1 /\ shape d1 = [B; C * 2 * 2; 14; 14]%nat
    /\ space_to_depth d1 = Ok d2 /\ shape d2 = [B; C * 2 * 2 * 2 * 2; 7; 7]%nat
    /\ space_to_depth d2 = Err TorchError.
Proof.
  intros St. rewrite (space_to_depth_eq t B C 14 14 St).
  eexists. eexists. split; [reflexivity|]. split; [reflexivity|].
  rewrite (space_to_depth_eq _ B (C * 2 * 2) 7 7) by reflexivity.
  split; [reflexivity|]. split; [reflexivity|].
  reflexivity.
Qed.

Lemma space_to_depth_odd_size t B C H W :
  shape t = [B; C; H; W] -> Nat.odd H = true \/ Nat.odd W = true ->
  space_to_depth t = Err TorchError.
Proof.
  intros St Ho. unfold space_to_depth. rewrite St.
  rewrite <- !Nat.negb_odd. destruct Ho as [-> | ->]; cbn [negb andb];
    [reflexivity | now rewrite andb_false_r].
Qed.

(** *** Statements about the rearrangements *)

(** X20. The rearrangement of the downscaling path turns every two by
    two block of pixels into four channels: the pixel at row
    [2 i + h2] and column [2 j + w2] of channel [c] goes to row [i],
    column [j] of channel [(2 c + h2) * 2 + w2].  The rearrangement of
    the upscaling path undoes it. *)
Theorem space_to_depth_round_trip B C h w t :
  shape t = [B; C; h * 2; w * 2]%nat -> wf t ->
  exists d,
    space_to_depth t = Ok d
    /\ shape d = [B; C * 2 * 2; h; w]%nat /\ wf d
    /\ (forall b c i j h2 w2,
          (b < B)%nat -> (c < C)%nat -> (i < h)%nat -> (j < w)%nat ->
          (h2 < 2)%nat -> (w2 < 2)%nat ->
          at4 d b ((c * 2 + h2) * 2 + w2) i j = at4 t b c (i * 2 + h2) (j * 2 + w2))
    /\ depth_to_space d = Ok t.
Proof. apply space_to_depth_then_back. Qed.

Lemma space_to_depth_round_trip_witness :
  let t := mkTensor [1; 1; 2; 4]%nat [1; 2; 3; 4; 5; 6; 7; 8] in
  exists d,
    space_to_depth t = Ok d
    /\ shape d = [1; 1 * 2 * 2; 1; 2]%nat /\ wf d
    /\ (forall b c i j h2 w2,
          (b < 1)%nat -> (c < 1)%nat -> (i < 1)%nat -> (j < 2)%nat ->
          (h2 < 2)%nat -> (w2 < 2)%nat ->
          at4 d b ((c * 2 + h2) * 2 + w2) i j = at4 t b c (i * 2 + h2) (j * 2 + w2))
    /\ depth_to_space d = Ok t.
Proof.
  intros t. apply (space_to_depth_round_trip 1 1 1 2 t); reflexivity.
Defined.

(** X21. The other way round, the rearrangement of the downscaling
    path undoes the one of the upscaling path, for a number of channels
    that is a multiple of four. *)
Theorem depth_to_space_round_trip B C h w d :
  shape d = [B; C * 2 * 2; h; w]%nat -> wf d ->
  exists t,
    depth_to_space d = Ok t
    /\ shape t = [B; C; h * 2; w * 2]%nat /\ wf t
    /\ space_to_depth t = Ok d.
Proof. apply depth_to_space_then_back. Qed.

Lemma depth_to_space_round_trip_witness :
  let d := mkTensor [1; 4; 1; 2]%nat [1; 2; 3; 4; 5; 6; 7; 8] in
  exists t,
    depth_to_space d = Ok t
    /\ shape t = [1; 1; 1 * 2; 2 * 2]%nat /\ wf t
    /\ space_to_depth t = Ok d.
Proof.
  intros d. apply (depth_to_space_round_trip 1 1 1 2 d); reflexivity.
Defined.

(** X22. The downscaling rearrangement fails on an odd number of rows
    or of columns.  An image of 28 by 28 pixels is therefore halved
    twice, to 14 by 14 and to 7 by 7 with sixteen times the channels,
    and not a third time: the depth that the U-net asserts. *)
Theorem space_to_depth_twice B C H W t :
  shape t = [B; C; H; W] ->
  (Nat.odd H = true \/ Nat.odd W = true -> space_to_depth t = Err TorchError)
  /\ (H = 28%nat -> W = 28%nat ->
      exists d1 d2,
        space_to_depth t = Ok d1 /\ shape d1 = [B; C * 2 * 2; 14; 14]%nat
        /\ space_to_depth d1 = Ok d2 /\ shape d2 = [B; C * 2 * 2 * 2 * 2; 7; 7]%nat
        /\ space_to_depth d2 = Err TorchError).
Proof.
  intros St. split.
  - apply (space_to_depth_odd_size t B C H W St).
  - intros -> ->. apply (space_to_depth_mnist t B C St).
Qed.

Lemma space_to_depth_twice_witness :
  let t := mkTensor [1; 1; 28; 28]%nat (repeat 0 784) in
  exists d1 d2,
    space_to_depth t = Ok d1 /\ shape d1 = [1; 1 * 2 * 2; 14; 14]%nat
    /\ space_to_depth d1 = Ok d2 /\ shape d2 = [1; 1 * 2 * 2 * 2 * 2; 7; 7]%nat
    /\ space_to_depth d2 = Err TorchError.
Proof.
  intros t. apply (proj2 (space_to_depth_twice 1 1 28 28 t eq_refl)); reflexivity.
Defined.

End EinopsFacts.
